(** * kp-backend: upload, job and progress subsystem

    A shallow embedding of [Backend/server/backend_skeleton.py] (songs and
    jobs tables, resumable uploads, dispatch, poller) and of the predictive
    timer of [Backend/progress_tracker.py], with the properties the
    specification states about them.

    Conventions of the embedding:
    - the two sqlite tables are lists of rows in rowid order;
    - [UPLOADS_DIR] is a finite map from entry names to files or session
      directories; a session directory is a finite map from file names to
      bytes plus the parsed content of its [meta.json];
    - values drawn from the environment by a handler ([uuid.uuid4()],
      [time.time()], whether a library call raises) are explicit arguments
      of the handler;
    - a handler returns the new state and a [response]; an exception that
      leaves the view function is the response [Unhandled];
    - names are byte strings, and the file system is that of Linux under
      Python 3.11: a path component holds at most 255 bytes, a NUL makes
      Python refuse the path, [Path.exists()] answers [False] for a
      missing path and for one with a NUL, and raises for a component
      beyond the limit;
    - a path parameter of a URL is one segment: not empty, without a
      slash. Joined to a root, the segment ["."] is the root itself; the
      segment [".."] is the parent of the root, [BASE_DIR], which the
      state does not hold: the handlers are modelled for the segments
      that stay within the two roots;
    - the ids a handler draws are values of [uuid.uuid4()]: none starts
      with [chunk-], none is [meta.json], ["."] or [".."];
    - Python floats are taken as real numbers in the progress tracker:
      what is proved there are bounds that hold with a margin, and values
      the float computation gives exactly. *)

From Stdlib Require Import ZArith QArith Lia Strings.Ascii Strings.String.
From Stdlib Require Reals Lra.
From stdpp Require Import base list list_numbers strings gmap sorting.

Local Open Scope string_scope.
Local Open Scope list_scope.
Local Open Scope Z_scope.

Set Warnings "-register-all".

(** * Python strings and formatting *)

Module PyStr.

(** [str.startswith] *)
Definition startswith (p s : string) : bool := String.prefix p s.

(** The decimal digit character of [d] (for [0 <= d < 10]). *)
Definition digit (d : Z) : string :=
  String (Ascii.ascii_of_nat (48 + Z.to_nat d)) "".

(** Decimal digits of a non-negative integer, most significant first. *)
Fixpoint dec_digits (fuel : nat) (n : Z) : string :=
  match fuel with
  | O => ""
  | S fuel' =>
      if n <? 10 then digit n
      else dec_digits fuel' (n / 10) +:+ digit (n mod 10)
  end.

(** [str(n)] for [n >= 0]; the fuel exceeds the number of digits. *)
Definition str_nat (n : Z) : string :=
  dec_digits (S (Z.to_nat (Z.log2 n))) n.

Fixpoint zeros (k : nat) : string :=
  match k with
  | O => ""
  | S k' => String "0"%char (zeros k')
  end.

(** The [k] low decimal digits of [n], most significant first: what a
    width-[k] zero-padded rendering shows while [n] has at most [k]
    digits. *)
Fixpoint fixed (k : nat) (n : Z) : string :=
  match k with
  | O => ""
  | S k' => fixed k' (n / 10) +:+ digit (n mod 10)
  end.

(** [s.zfill(w)] on a digit string: left padding with ['0'], nothing is
    cut when [s] is already wider. *)
Definition zfill (w : nat) (s : string) : string :=
  zeros (w - String.length s) +:+ s.

(** [f"{idx:06d}"]: sign-aware zero padding to a minimum width of 6. *)
Definition format_06d (idx : Z) : string :=
  if idx <? 0 then "-" +:+ zfill 5 (str_nat (- idx))
  else zfill 6 (str_nat idx).

(** Last index of character [c] in [s] ([str.rfind]); [None] for -1. *)
Fixpoint rfind (c : ascii) (s : string) : option nat :=
  match s with
  | "" => None
  | String a s' =>
      match rfind c s' with
      | Some k => Some (S k)
      | None => if Ascii.eqb a c then Some O else None
      end
  end.

(** [s[i:]] *)
Fixpoint drop (i : nat) (s : string) : string :=
  match i, s with
  | O, _ => s
  | S i', String _ s' => drop i' s'
  | S _, "" => ""
  end.

(** Is there a character other than ['.'] among [s[lo:hi]]? *)
Fixpoint has_non_dot (lo hi : nat) (s : string) : bool :=
  match s with
  | "" => false
  | String a s' =>
      match hi with
      | O => false
      | S hi' =>
          match lo with
          | O => negb (Ascii.eqb a "."%char) || has_non_dot O hi' s'
          | S lo' => has_non_dot lo' hi' s'
          end
      end
  end.

(** [os.path.splitext(p)[1]] (posix): the extension starts at the last
    dot, provided that dot comes after the last ['/'] and some character
    of the file name before it is not a dot. *)
Definition splitext_ext (p : string) : string :=
  match rfind "."%char p with
  | None => ""
  | Some dot =>
      let start := match rfind "/"%char p with Some k => S k | None => O end in
      if (start <=? dot)%nat && has_non_dot start dot p
      then drop dot p else ""
  end.

(** [PurePath.suffix] of a file name: from the last dot on, when that dot
    is neither the first nor the last character. *)
Definition suffix (name : string) : string :=
  match rfind "."%char name with
  | Some i =>
      if (0 <? i)%nat && (S i <? String.length name)%nat
      then drop i name else ""
  | None => ""
  end.

(** [str(z)] for any integer. *)
Definition str_int (z : Z) : string :=
  if z <? 0 then "-" +:+ str_nat (- z) else str_nat z.

End PyStr.

(** * Data model *)

Definition bytes := list Byte.byte.

(** JSON documents, as produced by [request.get_json()] and [json.loads].
    Numbers are restricted to integers. *)
Inductive json :=
| JNull
| JBool (b : bool)
| JNum (z : Z)
| JStr (s : string)
| JArr (l : list json)
| JObj (m : gmap string json).

(** Python truth value of a decoded JSON document ([x or {}], [if x]). *)
Definition truthy (j : json) : bool :=
  match j with
  | JNull => false
  | JBool b => b
  | JNum z => negb (z =? 0)
  | JStr s => negb (String.eqb s "")
  | JArr l => match l with [] => false | _ => true end
  | JObj m => match map_to_list m with [] => false | _ => true end
  end.

(** [request.get_json() or {}] *)
Definition json_or_empty (body : option json) : json :=
  match body with
  | Some j => if truthy j then j else JObj ∅
  | None => JObj ∅
  end.

(** A row of table [songs]. [metadata] is the decoded JSON object of the
    TEXT column ([json.dumps] on write, [json.loads] on read). *)
Record song := mk_song {
  song_id : string;
  title : option string;
  artist : option string;
  filename : string;
  duration : option Q;
  metadata : gmap string json;
  song_created_at : Q
}.

(** A row of table [jobs]. *)
Record job := mk_job {
  job_id : string;
  file_id : string;
  model : string;
  status : string;
  progress : Q;
  message : string;
  created_at : Q
}.

(** An upload session directory [UPLOADS_DIR/<upload_id>]: the decoded
    content of [meta.json] when that file exists, and the other files. *)
Record session := mk_session {
  meta : option json;
  files : gmap string bytes
}.

(** An entry of [UPLOADS_DIR]. *)
Inductive node :=
| File (data : bytes)
| Dir (d : session).

(** A pending call [background_process(job_id, file_id, model)]. *)
Definition task : Type := string * string * string.

Record state := mk_state {
  uploads : gmap string node;                (* UPLOADS_DIR *)
  outputs : gmap string (gmap string bytes); (* OUTPUTS_DIR/<file_id>/ *)
  songs : list song;
  jobs : list job;
  threads : list task;                       (* started daemon threads *)
  rq : list task;                            (* messages on the RQ queue *)
  uploads_root : bool;                       (* UPLOADS_DIR exists *)
  outputs_root : bool                        (* OUTPUTS_DIR exists *)
}.

Definition set_uploads (u : gmap string node) (st : state) : state :=
  mk_state u (outputs st) (songs st) (jobs st) (threads st) (rq st)
    (uploads_root st) (outputs_root st).
Definition set_outputs (o : gmap string (gmap string bytes)) (st : state) : state :=
  mk_state (uploads st) o (songs st) (jobs st) (threads st) (rq st)
    (uploads_root st) (outputs_root st).
Definition set_songs (s : list song) (st : state) : state :=
  mk_state (uploads st) (outputs st) s (jobs st) (threads st) (rq st)
    (uploads_root st) (outputs_root st).
Definition set_jobs (j : list job) (st : state) : state :=
  mk_state (uploads st) (outputs st) (songs st) j (threads st) (rq st)
    (uploads_root st) (outputs_root st).
Definition set_threads (t : list task) (st : state) : state :=
  mk_state (uploads st) (outputs st) (songs st) (jobs st) t (rq st)
    (uploads_root st) (outputs_root st).
Definition set_rq (q : list task) (st : state) : state :=
  mk_state (uploads st) (outputs st) (songs st) (jobs st) (threads st) q
    (uploads_root st) (outputs_root st).
Definition set_uploads_root (b : bool) (st : state) : state :=
  mk_state (uploads st) (outputs st) (songs st) (jobs st) (threads st) (rq st)
    b (outputs_root st).
Definition set_outputs_root (b : bool) (st : state) : state :=
  mk_state (uploads st) (outputs st) (songs st) (jobs st) (threads st) (rq st)
    (uploads_root st) b.

(** The server after its start: both roots are there and empty (the
    module creates them when it is loaded), the tables are empty. *)
Definition init_state : state := mk_state ∅ ∅ [] [] [] [] true true.

(** * Names the file system takes *)

(** A NUL in a name: Python refuses such a path before any system call,
    with [ValueError]. *)
Fixpoint has_nul (s : string) : bool :=
  match s with
  | "" => false
  | String c s' => Ascii.eqb c "000"%char || has_nul s'
  end.

(** A path component beyond [NAME_MAX], 255 bytes: the system call fails
    with [ENAMETOOLONG]. *)
Definition too_long (name : string) : bool :=
  (255 <? String.length name)%nat.

(** The exception that [open(..., "wb")] or [mkdir] raises for an entry
    [name] of an existing directory, when the name is refused. *)
Definition refused (name : string) : option string :=
  if has_nul name then Some "ValueError"
  else if too_long name then Some "OSError"
  else None.

(** [Path.exists()] raises in one case only: a component beyond the limit
    below an existing directory. It answers [False] for a name with a
    NUL. *)
Definition exists_raises (name : string) : bool :=
  negb (has_nul name) && too_long name.

(** A URL segment that names an entry of a root: neither the root itself
    nor its parent, and a name the file system takes. *)
Definition entry_name (segment : string) : bool :=
  negb (String.eqb segment ".") && negb (String.eqb segment "..")
  && match refused segment with None => true | Some _ => false end.

(** What a view function hands back to Flask. *)
Inductive response :=
| Json (body : gmap string json) (code : Z)  (* jsonify({...}), code *)
| Empty (code : Z)                           (* ("", code) *)
| NoResponse                                 (* the view returned None *)
| Unhandled (exn : string)                   (* an exception left the view *)
| Aborted (code : Z).                        (* an HTTPException: its error page *)

(** The HTTP status the client sees; Flask answers 500 both when a view
    returns [None] and when an exception leaves it. *)
Definition http_status (r : response) : Z :=
  match r with
  | Json _ c => c
  | Empty c => c
  | NoResponse => 500
  | Unhandled _ => 500
  | Aborted c => c
  end.

Definition error_body (msg : string) : gmap string json :=
  {[ "error" := JStr msg ]}.

(** * Durable store: the songs table *)

Definition find_song (id : string) (l : list song) : option song :=
  List.find (fun s => String.eqb (song_id s) id) l.

(** [INSERT INTO songs ...]; [id] is the primary key, a duplicate raises
    [sqlite3.IntegrityError]. *)
Definition insert_song (s : song) (l : list song) : option (list song) :=
  match find_song (song_id s) l with
  | Some _ => None
  | None => Some (l ++ [s])
  end.

(** * Resumable uploads *)

(** The value of [int(request.headers.get("X-Chunk-Index"))]. *)
Inductive chunk_header :=
| NoHeader                 (* header absent *)
| BadHeader                (* [int()] raises *)
| IndexHeader (idx : Z).

(** [f"chunk-{idx:06d}.part"] *)
Definition chunk_name (idx : Z) : string :=
  "chunk-" +:+ PyStr.format_06d idx +:+ ".part".

(** [sorted(...)] on paths of one directory: ascending code-point order of
    the names. *)
Definition sorted (names : list string) : list string :=
  merge_sort String.le names.

(** [upload_dir.iterdir()]: the names in the directory, in the order the
    file system happens to enumerate them. *)
Definition iterdir (d : session) : list string :=
  (match meta d with Some _ => ["meta.json"] | None => [] end)
  ++ (map_to_list (files d)).*1.

(** [fh.read()] of a file of the session directory. *)
Definition read_file (d : session) (name : string) : bytes :=
  default [] (files d !! name).

(** POST /uploads. [mkdir(parents=True, exist_ok=True)] also creates the
    upload root when it is gone. *)
Definition create_upload (uuid : string) (body : option json) (st : state)
  : state * response :=
  let upload_id := uuid in
  let metadata := json_or_empty body in
  if has_nul upload_id then (st, Unhandled "ValueError")
  else if too_long upload_id then (set_uploads_root true st, Unhandled "OSError")
  else
  match uploads st !! upload_id with
  | Some (File _) => (st, Unhandled "FileExistsError")
  | Some (Dir d) =>
      (set_uploads_root true
         (set_uploads (<[upload_id := Dir (mk_session (Some metadata) (files d))]>
                         (uploads st)) st),
       Json {[ "upload_id" := JStr upload_id ]} 201)
  | None =>
      (set_uploads_root true
         (set_uploads (<[upload_id := Dir (mk_session (Some metadata) ∅)]>
                         (uploads st)) st),
       Json {[ "upload_id" := JStr upload_id ]} 201)
  end.

(** The files that lie in [UPLOADS_DIR] itself. *)
Definition file_of (n : node) : option bytes :=
  match n with
  | File data => Some data
  | Dir _ => None
  end.

(** The upload root read as a session directory, which is what the
    segment ["."] makes of it. The names the server gives to entries of
    the root are uuids, uuids with an extension and chunk names: none is
    [meta.json], and the entries whose names start with [chunk-] are
    files. *)
Definition root_session (st : state) : session :=
  mk_session None (omap file_of (uploads st)).

(** What [UPLOADS_DIR / upload_id] names, if anything. *)
Definition upload_dir (st : state) (upload_id : string) : option node :=
  if String.eqb upload_id "." then
    if uploads_root st then Some (Dir (root_session st)) else None
  else uploads st !! upload_id.

(** POST /uploads/<upload_id>/chunk *)
Definition upload_chunk (upload_id : string) (hdr : chunk_header)
    (data : bytes) (st : state) : state * response :=
  if uploads_root st && exists_raises upload_id then (st, Unhandled "OSError")
  else
  match upload_dir st upload_id with
  | None => (st, Json (error_body "upload not found") 404)
  | Some entry =>
      match hdr with
      | NoHeader => (st, Json (error_body "X-Chunk-Index header required") 400)
      | BadHeader => (st, Json (error_body "invalid chunk index") 400)
      | IndexHeader idx =>
          match entry with
          | File _ => (st, Unhandled "NotADirectoryError")
          | Dir d =>
              match refused (chunk_name idx) with
              | Some exn => (st, Unhandled exn)
              | None =>
                  if String.eqb upload_id "." then
                    (* the chunk file lies in the upload root itself *)
                    match uploads st !! chunk_name idx with
                    | Some (Dir _) => (st, Unhandled "IsADirectoryError")
                    | _ =>
                        (set_uploads (<[chunk_name idx := File data]> (uploads st)) st,
                         Empty 204)
                    end
                  else
                    let d' :=
                      mk_session (meta d) (<[chunk_name idx := data]> (files d)) in
                    (set_uploads (<[upload_id := Dir d']> (uploads st)) st,
                     Empty 204)
              end
          end
      end
  end.

(** The extension [complete_upload] infers from [meta.json]: [".bin"]
    unless the document is an object whose ["filename"] is a non-empty
    string with an extension. Every other shape either skips the branch or
    raises inside the [try], which leaves [ext] as it was. *)
Definition infer_ext (d : session) : string :=
  match meta d with
  | Some (JObj md) =>
      match md !! "filename" with
      | Some (JStr orig_name) =>
          if String.eqb orig_name "" then ".bin"
          else let e := PyStr.splitext_ext orig_name in
               if String.eqb e "" then ".bin" else e
      | _ => ".bin"
      end
  | _ => ".bin"
  end.

(** The bytes written to the final file: the parts in sorted order. *)
Definition assemble (d : session) (parts : list string) : bytes :=
  concat (read_file d <$> parts).

(** [sorted([p for p in upload_dir.iterdir() if
    p.name.startswith("chunk-")])] *)
Definition parts_of (d : session) : list string :=
  sorted (filter (fun p => PyStr.startswith "chunk-" p) (iterdir d)).

(** A session directory holds no chunk file. *)
Definition no_chunks (d : session) : Prop :=
  ∀ name, is_Some (files d !! name) → PyStr.startswith "chunk-" name = false.

(** [shutil.rmtree(upload_dir)]: for the segment ["."] the upload root
    goes, with everything in it. *)
Definition remove_upload_dir (upload_id : string) (st : state) : state :=
  if String.eqb upload_id "." then set_uploads_root false (set_uploads ∅ st)
  else set_uploads (delete upload_id (uploads st)) st.

(** POST /uploads/<upload_id>/complete. [rmtree_ok] tells whether
    [shutil.rmtree(upload_dir)] succeeds; its failure is swallowed. The
    final file is opened before the parts are read: a name the file system
    refuses ends the request there. *)
Definition complete_upload (uuid : string) (now : Q) (rmtree_ok : bool)
    (upload_id : string) (st : state) : state * response :=
  if uploads_root st && exists_raises upload_id then (st, Unhandled "OSError")
  else
  match upload_dir st upload_id with
  | None => (st, Json (error_body "upload not found") 404)
  | Some (File _) => (st, Unhandled "NotADirectoryError")
  | Some (Dir d) =>
      let parts := parts_of d in
      match parts with
      | [] => (st, Json (error_body "no chunks found") 400)
      | _ :: _ =>
          let file_id := uuid in
          let ext := infer_ext d in
          let final_name := file_id +:+ ext in
          match refused final_name with
          | Some exn => (st, Unhandled exn)
          | None =>
          match uploads st !! final_name with
          | Some (Dir _) => (st, Unhandled "IsADirectoryError")
          | _ =>
              let st1 :=
                set_uploads (<[final_name := File (assemble d parts)]> (uploads st)) st in
              match insert_song
                      (mk_song file_id None None final_name None ∅ now)
                      (songs st1) with
              | None => (st1, Unhandled "sqlite3.IntegrityError")
              | Some songs' =>
                  let st2 := set_songs songs' st1 in
                  let st3 :=
                    if rmtree_ok
                    then remove_upload_dir upload_id st2
                    else st2 in
                  (st3, Json {[ "file_id" := JStr file_id;
                                "url" := JStr ("/download/" +:+ file_id) ]} 201)
              end
          end
          end
      end
  end.

(** A run of chunk requests against one session, every request carrying a
    well-formed index header; the responses are dropped. *)
Definition upload_chunks (upload_id : string) (calls : list (Z * bytes))
    (st : state) : state :=
  foldl (fun s c => (upload_chunk upload_id (IndexHeader c.1) c.2 s).1) st calls.

(** The chunk files a run of chunk requests writes, as key-value pairs. *)
Definition written (calls : list (Z * bytes)) : list (string * bytes) :=
  (fun c => (chunk_name c.1, c.2)) <$> calls.

(** The files of a session directory after those writes. *)
Definition write_all (calls : list (Z * bytes)) (m : gmap string bytes)
    : gmap string bytes :=
  foldl (fun m c => <[chunk_name c.1 := c.2]> m) m calls.

(** The requests that send [chunks] in index order, chunk [i] under index
    [i]. *)
Definition in_order (chunks : list bytes) : list (Z * bytes) :=
  zip (seqZ 0 (Z.of_nat (length chunks))) chunks.

(** An upload of 1000001 chunks: the last two hold one byte each, the
    others are empty. *)
Definition overflow_chunks : list bytes :=
  replicate (Z.to_nat 999999) [] ++ [[Byte.x01]; [Byte.x02]].

(** The session ["u"], created on the empty store, after the overflow
    upload in index order. *)
Definition overflow_session : state :=
  upload_chunks "u" (in_order overflow_chunks)
    (create_upload "u" None init_state).1.

(** The first scenario of the specification: a session created with an
    original file name, three chunks of 4, 4 and 8 bytes sent in the order
    1, 0, 2. *)
Definition demo_chunk0 : bytes := [Byte.x00; Byte.x01; Byte.x02; Byte.x03].
Definition demo_chunk1 : bytes := [Byte.x10; Byte.x11; Byte.x12; Byte.x13].
Definition demo_chunk2 : bytes :=
  [Byte.x20; Byte.x21; Byte.x22; Byte.x23; Byte.x24; Byte.x25; Byte.x26; Byte.x27].

Definition demo_created : state :=
  (create_upload "u" (Some (JObj {[ "filename" := JStr "chunked.wav" ]}))
     init_state).1.

Definition demo_session : state :=
  upload_chunks "u" [(1, demo_chunk1); (0, demo_chunk0); (2, demo_chunk2)]
    demo_created.

(** * Songs: upload, partial update, delete *)

(** The value sqlite3 binds for a parameter of a TEXT column: [None] is
    NULL, text is kept, integers and booleans are stored as their decimal
    text (TEXT affinity); lists and dicts, and integers outside the 64-bit
    range, make [execute] raise. *)
Definition bind_text (j : json) : option (option string) :=
  match j with
  | JNull => Some None
  | JStr s => Some (Some s)
  | JNum z =>
      if (- 2 ^ 63 <=? z) && (z <? 2 ^ 63) then Some (Some (PyStr.str_int z))
      else None
  | JBool b => Some (Some (if b then "1" else "0"))
  | JArr _ => None
  | JObj _ => None
  end.

(** [d.get(key)]: a missing key reads as [None]. *)
Definition dict_get (key : string) (d : gmap string json) : json :=
  default JNull (d !! key).

(** [app.config["MAX_CONTENT_LENGTH"]] *)
Definition MAX_CONTENT_LENGTH : Z := 200 * 1024 * 1024.

(** POST /upload. [content_length] is the Content-Length of the request:
    beyond the limit, reading [request.files] aborts with 413. [file] is
    the multipart field (name and content) when present; [form_metadata]
    is [json.loads] of the form field when that field is a non-empty
    string that parses. [f.save] opens the destination for writing: it
    raises for a name the file system refuses, and when the upload root is
    gone. *)
Definition upload (content_length : Z) (uuid : string) (now : Q)
    (file : option (string * bytes)) (form_metadata : option json)
    (st : state) : state * response :=
  if MAX_CONTENT_LENGTH <? content_length then (st, Aborted 413)
  else
  match file with
  | None => (st, Json (error_body "file missing") 400)
  | Some (fname, data) =>
      if String.eqb fname "" then (st, Json (error_body "empty filename") 400)
      else
        let e := PyStr.splitext_ext fname in
        let ext := if String.eqb e "" then ".bin" else e in
        let file_id := uuid in
        let final_name := file_id +:+ ext in
        if has_nul final_name then (st, Unhandled "ValueError")
        else if negb (uploads_root st) then (st, Unhandled "FileNotFoundError")
        else if too_long final_name then (st, Unhandled "OSError")
        else
        match uploads st !! final_name with
        | Some (Dir _) => (st, Unhandled "IsADirectoryError")
        | _ =>
            let st1 := set_uploads (<[final_name := File data]> (uploads st)) st in
            match default (JObj ∅) form_metadata with
            | JObj meta_obj =>
                match bind_text (dict_get "title" meta_obj),
                      bind_text (dict_get "artist" meta_obj) with
                | Some t, Some a =>
                    match insert_song
                            (mk_song file_id t a final_name None meta_obj now)
                            (songs st1) with
                    | None => (st1, Unhandled "sqlite3.IntegrityError")
                    | Some songs' =>
                        (set_songs songs' st1,
                         Json {[ "file_id" := JStr file_id;
                                 "url" := JStr ("/download/" +:+ file_id);
                                 "title" := dict_get "title" meta_obj;
                                 "artist" := dict_get "artist" meta_obj ]} 201)
                    end
                | _, _ => (st1, Unhandled "sqlite3.InterfaceError")
                end
            | _ => (st1, Unhandled "AttributeError")
            end
        end
  end.

(** [UPDATE songs SET title=?, artist=?, metadata=? WHERE id=?] *)
Definition update_song (id : string) (t a : option string)
    (md : gmap string json) (l : list song) : list song :=
  (fun s =>
     if String.eqb (song_id s) id
     then mk_song (song_id s) t a (filename s) (duration s) md (song_created_at s)
     else s) <$> l.

(** The PATCH branch of [song_detail]. [existing.update(body)] lets the keys of the
    body win; the title and artist parameters are read from the body and
    otherwise from the merged metadata. *)
Definition song_patch (id : string) (body : option json) (st : state)
    : state * response :=
  match find_song id (songs st) with
  | None => (st, Json (error_body "not found") 404)
  | Some r =>
      match json_or_empty body with
      | JObj b =>
          let existing := b ∪ metadata r in
          let title_param :=
            match b !! "title" with Some v => v | None => dict_get "title" existing end in
          let artist_param :=
            match b !! "artist" with Some v => v | None => dict_get "artist" existing end in
          match bind_text title_param, bind_text artist_param with
          | Some t, Some a =>
              (set_songs (update_song id t a existing (songs st)) st,
               Json (existing ∪ {[ "id" := JStr id ]}) 200)
          | _, _ => (st, Unhandled "sqlite3.InterfaceError")
          end
      | _ => (st, Unhandled "TypeError")
      end
  end.

(** The DELETE branch of [song_detail]. [unlink] of a missing file raises
    [FileNotFoundError], which is passed over; on a directory it raises
    another [OSError], which leaves the view. *)
Definition song_delete (id : string) (st : state) : state * response :=
  let r := find_song id (songs st) in
  let unlinked :=
    match r with
    | Some row =>
        if String.eqb (filename row) "" then Some (uploads st)
        else match uploads st !! filename row with
             | None => Some (uploads st)
             | Some (File _) => Some (delete (filename row) (uploads st))
             | Some (Dir _) => None
             end
    | None => Some (uploads st)
    end in
  match unlinked with
  | None => (st, Unhandled "IsADirectoryError")
  | Some u =>
      (set_songs (filter (fun s => song_id s ≠ id) (songs st))
         (set_uploads u st),
       Empty 204)
  end.

(** The methods of [/songs/<file_id>] that change the state; the GET
    branch only reads. *)
Inductive method :=
| PATCH
| DELETE.

(** [song_detail(file_id)], by [request.method]. *)
Definition song_detail (m : method) (file_id : string) (body : option json)
    (st : state) : state * response :=
  match m with
  | PATCH => song_patch file_id body st
  | DELETE => song_delete file_id st
  end.

(** * Durable store: the jobs table *)

Definition find_job (id : string) (l : list job) : option job :=
  List.find (fun j => String.eqb (job_id j) id) l.

(** [INSERT INTO jobs ...]; a duplicate primary key raises. *)
Definition insert_job (j : job) (l : list job) : option (list job) :=
  match find_job (job_id j) l with
  | Some _ => None
  | None => Some (l ++ [j])
  end.

(** [UPDATE jobs SET ... WHERE id=?] with the assignments given as [f]. *)
Definition update_job (id : string) (f : job -> job) (l : list job) : list job :=
  (fun j => if String.eqb (job_id j) id then f j else j) <$> l.

Definition set_progress_message (p : Q) (m : string) (j : job) : job :=
  mk_job (job_id j) (file_id j) (model j) (status j) p m (created_at j).
Definition set_status_message (s m : string) (j : job) : job :=
  mk_job (job_id j) (file_id j) (model j) s (progress j) m (created_at j).
Definition set_status_progress_message (s : string) (p : Q) (m : string) (j : job) : job :=
  mk_job (job_id j) (file_id j) (model j) s p m (created_at j).

(** The row of [l] that [ORDER BY created_at LIMIT 1] returns: least
    [created_at], the earliest row among equals. *)
Fixpoint oldest (best : job) (l : list job) : job :=
  match l with
  | [] => best
  | j :: l' =>
      if Qle_bool (created_at best) (created_at j) then oldest best l'
      else oldest j l'
  end.

(** [SELECT id, file_id, model FROM jobs WHERE status='queued'
     ORDER BY created_at LIMIT 1] *)
Definition select_queued (l : list job) : option job :=
  match filter (fun j => status j = "queued") l with
  | [] => None
  | j :: rest => Some (oldest j rest)
  end.

(** * Dispatch *)

(** Environment of one dispatch: [os.environ.get("REDIS_URL")], whether
    the import of [rq] and [redis] succeeded, and whether the enqueue
    (connection included) raises. *)
Record dispatch_env := mk_dispatch_env {
  redis_url : option string;
  rq_imported : bool;
  enqueue_raises : bool
}.

(** [redis_url and Queue is not None and Redis is not None] *)
Definition queue_configured (env : dispatch_env) : bool :=
  match redis_url env with
  | Some u => negb (String.eqb u "") && rq_imported env
  | None => false
  end.

(** A row of [l] with id [x] is queued. *)
Definition queued_id (x : string) (l : list job) : Prop :=
  ∃ j, j ∈ l ∧ job_id j = x ∧ status j = "queued".

(** A dispatch environment without queue, and one with a reachable queue. *)
Definition env_default : dispatch_env := mk_dispatch_env None true false.
Definition env_redis : dispatch_env :=
  mk_dispatch_env (Some "redis://localhost:6379") true false.

(** POST /process/<model>/<file_id>. Starting a thread only records the
    pending call; the thread body runs later ([run_thread]). *)
Definition start_process (env : dispatch_env) (uuid : string) (now : Q)
    (model file_id : string) (st : state) : state * response :=
  let job_id := uuid in
  match insert_job (mk_job job_id file_id model "processing" 0 "queued" now)
                   (jobs st) with
  | None => (st, Unhandled "sqlite3.IntegrityError")
  | Some jobs' =>
      let st1 := set_jobs jobs' st in
      if queue_configured env then
        if enqueue_raises env
        then (set_threads (threads st1 ++ [(job_id, file_id, model)]) st1, NoResponse)
        else (set_rq (rq st1 ++ [(job_id, file_id, model)]) st1, NoResponse)
      else
        (set_threads (threads st1 ++ [(job_id, file_id, model)]) st1,
         Json {[ "status" := JStr "accepted";
                 "job_id" := JStr job_id;
                 "file_id" := JStr file_id ]} 202)
  end.

(** * Job execution *)

(** How [shutil.copy2] ends: it returns, or it raises, and then the
    destination may have been created already: [written] is what lies there
    afterwards, if anything was written at all. *)
Inductive copy_outcome :=
| Copied
| CopyRaised (written : option bytes).

(** Environment of one run of [background_process]: whether [get_db()]
    raises before the [try]; the step of the [try] body that raises (if
    any) with the text [str(e)]; how [shutil.copy2] ends; whether the
    step that raised did so in its [conn.commit()] and left its UPDATE in
    the open transaction; whether the UPDATE or the commit of the [except]
    clause raises, and with what; the text of the [OSError] that [mkdir]
    raises for a name beyond the limit. The steps of the body are numbered
    1 to 5 for the stage updates, 6 for the artifact, 7 for the final
    update. *)
Record work_env := mk_work_env {
  connect_error : option string;
  fault : option (nat * string);
  copy : copy_outcome;
  pending_kept : bool;
  handler_error : option string;
  name_error : string
}.

Definition faulty (env : work_env) (step : nat) : option string :=
  match fault env with
  | Some (k, e) => if (k =? step)%nat then Some e else None
  | None => None
  end.

(** The assignments of the UPDATE of stage [i]: progress [i / 5.0],
    message [f"stage {i}"]. *)
Definition stage_row (i : nat) : job → job :=
  set_progress_message (Z.of_nat i # 5)
    ("stage " +:+ PyStr.str_nat (Z.of_nat i)).

(** One pass of [for i in range(1, 6)], gone through: the UPDATE and its
    commit. *)
Definition stage_update (job_id : string) (i : nat) (st : state) : state :=
  set_jobs (update_job job_id (stage_row i) (jobs st)) st.

(** What a step that raises leaves in the open transaction: its own
    UPDATE when it was the commit that raised and the transaction stayed
    open, nothing otherwise. *)
Definition pending (env : work_env) (update : job → job) : job → job :=
  if pending_kept env then update else id.

(** The stage loop; it stops at the first step that raises, and hands
    over the exception text and the pending UPDATE. The state it returns
    is what has been committed. *)
Fixpoint run_stages (env : work_env) (job_id : string) (steps : list nat)
    (st : state) : state * option (string * (job → job)) :=
  match steps with
  | [] => (st, None)
  | i :: rest =>
      match faulty env i with
      | Some e => (st, Some (e, pending env (stage_row i)))
      | None => run_stages env job_id rest (stage_update job_id i st)
      end
  end.

(** What the copy leaves in the outputs directory [dir] of a song whose
    upload is [data]: the whole file, what a raising copy got written, or
    nothing; a destination name the file system refuses makes the copy
    raise before it writes. *)
Definition copy_to (env : work_env) (dest : string) (data : bytes)
    (dir : gmap string bytes) : gmap string bytes :=
  match refused dest with
  | Some _ => dir
  | None =>
      match copy env with
      | Copied => <[dest := data]> dir
      | CopyRaised None => dir
      | CopyRaised (Some written) => <[dest := written]> dir
      end
  end.

(** The dummy output artifact: the outputs directory is created (with the
    outputs root, should that be gone), and the original is copied to
    [instrumental<suffix>] when it exists; a failing copy is passed over.
    [mkdir] raises for a file id the file system refuses: the result is
    then the state with the exception text. For the segment ["."] the
    outputs directory is the outputs root itself (song ids are uuids: no
    song has that id, and nothing is copied there). *)
Definition make_artifact (env : work_env) (file_id : string) (st : state)
    : state + state * string :=
  if has_nul file_id then inr (st, "embedded null byte")
  else if too_long file_id then inr (set_outputs_root true st, name_error env)
  else if String.eqb file_id "." then inl (set_outputs_root true st)
  else
    let dir := default ∅ (outputs st !! file_id) in
    let dir' :=
      match find_song file_id (songs st) with
      | Some r =>
          if String.eqb (filename r) "" then dir
          else match uploads st !! filename r with
               | Some (File data) =>
                   copy_to env ("instrumental" +:+ PyStr.suffix (filename r))
                     data dir
               | _ => dir
               end
      | None => dir
      end in
    inl (set_outputs_root true (set_outputs (<[file_id := dir']> (outputs st)) st)).

(** The outcome of a call: it returns, or an exception leaves it. *)
Inductive outcome :=
| Returned
| Raised (exn : string).

(** The writes of the [except] clause, gone through. *)
Definition mark_failed (job_id e : string) (st : state) : state :=
  set_jobs (update_job job_id (set_status_message "failed" e) (jobs st)) st.

(** The [except] clause after exception [e], with the UPDATE [open] in the
    open transaction. Its own UPDATE joins that transaction and the commit
    stores both. When the clause itself raises, the connection is closed
    without a commit: nothing of either UPDATE is stored, and the
    exception leaves the call. *)
Definition handle_failure (env : work_env) (job_id e : string)
    (open : job → job) (st : state) : state * outcome :=
  match handler_error env with
  | Some e' => (st, Raised e')
  | None =>
      (mark_failed job_id e (set_jobs (update_job job_id open (jobs st)) st),
       Returned)
  end.

(** The final UPDATE and its commit, gone through. *)
Definition mark_completed (job_id : string) (st : state) : state :=
  set_jobs
    (update_job job_id (set_status_progress_message "completed" 1 "done") (jobs st))
    st.

(** The body of the [try]: what is committed when it ends, and the
    exception that ended it, if one did, with the UPDATE it left open.
    Step 6 is the SELECT of the song, step 7 the final UPDATE and its
    commit; [mkdir] raises by the file id alone. *)
Definition run_body (env : work_env) (job_id file_id : string) (st : state)
    : state * option (string * (job → job)) :=
  match run_stages env job_id [1; 2; 3; 4; 5]%nat st with
  | (st1, Some raised) => (st1, Some raised)
  | (st1, None) =>
      match faulty env 6 with
      | Some e => (st1, Some (e, id))
      | None =>
          match make_artifact env file_id st1 with
          | inr (st2, e) => (st2, Some (e, id))
          | inl st2 =>
              match faulty env 7 with
              | Some e =>
                  (st2,
                   Some (e, pending env
                              (set_status_progress_message "completed" 1 "done")))
              | None => (mark_completed job_id st2, None)
              end
          end
      end
  end.

(** [background_process(job_id, file_id, model)]: [get_db()] comes before
    the [try]; an exception of the body goes to the [except] clause. *)
Definition background_process (env : work_env) (t : task) (st : state)
    : state * outcome :=
  let '(job_id, file_id, _) := t in
  match connect_error env with
  | Some e => (st, Raised e)
  | None =>
      match run_body env job_id file_id st with
      | (st1, Some (e, open)) => handle_failure env job_id e open st1
      | (st1, None) => (st1, Returned)
      end
  end.

(** The body of the oldest started thread runs to its end. An exception
    that leaves a thread target ends that thread only. *)
Definition run_thread (env : work_env) (st : state) : state :=
  match threads st with
  | [] => st
  | t :: rest => (background_process env t (set_threads rest st)).1
  end.

(** Updates of a run keep the id of a row, and its status unless they
    set it to ['failed'] or ['completed']. *)
Definition tame (F : job → job) : Prop :=
  ∀ x, job_id (F x) = job_id x
       ∧ (status (F x) = status x ∨ status (F x) = "failed"
          ∨ status (F x) = "completed").

(** The RQ worker of [server/worker.py] takes the oldest message of the
    queue and runs it. *)
Definition run_worker (env : work_env) (st : state) : state :=
  match rq st with
  | [] => st
  | t :: rest => (background_process env t (set_rq rest st)).1
  end.

(** * Poller *)

(** The poller's write after its read:
    [UPDATE jobs SET status='processing', message='taken by poller'
     WHERE id=?] *)
Definition mark_processing (id : string) (l : list job) : list job :=
  update_job id (set_status_message "processing" "taken by poller") l.

(** The claim of one poller running alone: the read, then the write. *)
Definition claim (st : state) : state * option job :=
  match select_queued (jobs st) with
  | None => (st, None)
  | Some r => (set_jobs (mark_processing (job_id r) (jobs st)) st, Some r)
  end.

(** Environment of one pass of the poller loop: whether its own store
    access raises, and the environment of the job it may run. *)
Record poll_env := mk_poll_env {
  poll_db_error : bool;
  work : work_env
}.

(** One pass of [while True] in [job_poller]. Both [except Exception]
    clauses end the pass normally, so the pass always yields a state. *)
Definition poller_iteration (env : poll_env) (st : state) : state :=
  if poll_db_error env then st
  else
    match claim st with
    | (st1, Some r) =>
        (background_process (work env) (job_id r, file_id r, model r) st1).1
    | (st1, None) => st1
    end.

(** The loop, as long as the list of environments lasts. *)
Definition job_poller (envs : list poll_env) (st : state) : state :=
  foldl (fun s e => poller_iteration e s) st envs.

(** [n] claims in a row by one poller, with the ids it received. *)
Fixpoint claims (n : nat) (st : state) : state * list string :=
  match n with
  | O => (st, [])
  | S n' =>
      match claim st with
      | (st1, Some r) =>
          let '(st2, ids) := claims n' st1 in (st2, job_id r :: ids)
      | (st1, None) => claims n' st1
      end
  end.

(** The fourth scenario of the specification: two queued jobs, ["b"]
    older than ["a"]; the run of ["b"] raises [RuntimeError("boom")] at its
    third stage, the run of ["a"] is healthy. *)
Definition demo_queue : state :=
  set_jobs [mk_job "a" "song-1" "demucs" "queued" 0 "queued" 2;
            mk_job "b" "song-2" "demucs" "queued" 0 "queued" 1] init_state.

Definition env_boom : poll_env :=
  mk_poll_env false
    (mk_work_env None (Some (3%nat, "boom")) Copied false None "").

Definition env_healthy : poll_env :=
  mk_poll_env false (mk_work_env None None Copied false None "").

(** A pass whose run cannot open the database. *)
Definition env_no_db : poll_env :=
  mk_poll_env false
    (mk_work_env (Some "unable to open database file") None Copied false None "").

(** A pass whose run finds the database locked: the commit of the third
    stage raises and leaves its UPDATE open, and so does the write of the
    [except] clause. *)
Definition env_locked : poll_env :=
  mk_poll_env false
    (mk_work_env None (Some (3%nat, "database is locked")) Copied true
       (Some "database is locked") "").

(** ** Several pollers against one store

    Each poller is between passes or holds the row its [SELECT] returned;
    the read and the write are separate store operations (separate
    connections), so another poller may run in between. *)
Inductive poller_pc :=
| Idle
| Holding (r : job).

Record pollers := mk_pollers {
  store : list job;
  pcs : list poller_pc;       (* one program counter per poller *)
  received : list (list string) (* the job ids each poller has claimed *)
}.

(** Poller [p] performs its next store operation. *)
Definition poller_step (p : nat) (sys : pollers) : pollers :=
  match pcs sys !! p with
  | Some Idle =>
      match select_queued (store sys) with
      | Some r => mk_pollers (store sys) (<[p := Holding r]> (pcs sys)) (received sys)
      | None => sys
      end
  | Some (Holding r) =>
      mk_pollers (mark_processing (job_id r) (store sys))
                 (<[p := Idle]> (pcs sys))
                 (alter (fun ids => ids ++ [job_id r]) p (received sys))
  | None => sys
  end.

Definition run_pollers (schedule : list nat) (sys : pollers) : pollers :=
  foldl (fun s p => poller_step p s) sys schedule.

Definition start_pollers (n : nat) (l : list job) : pollers :=
  mk_pollers l (replicate n Idle) (replicate n []).

(** * Requests *)

(** The requests and internal steps that change the state, with the
    values each one draws from its environment. *)
Inductive request :=
| ReqUpload (content_length : Z) (uuid : string) (now : Q)
            (file : option (string * bytes)) (form_metadata : option json)
| ReqCreateUpload (uuid : string) (body : option json)
| ReqUploadChunk (upload_id : string) (hdr : chunk_header) (data : bytes)
| ReqCompleteUpload (uuid : string) (now : Q) (rmtree_ok : bool) (upload_id : string)
| ReqSongDetail (m : method) (file_id : string) (body : option json)
| ReqStartProcess (env : dispatch_env) (uuid : string) (now : Q)
                  (model file_id : string)
| StepThread (env : work_env)
| StepWorker (env : work_env)
| StepPoller (env : poll_env).

Definition handle (rq : request) (st : state) : state :=
  match rq with
  | ReqUpload len uuid now file fm => (upload len uuid now file fm st).1
  | ReqCreateUpload uuid body => (create_upload uuid body st).1
  | ReqUploadChunk id hdr data => (upload_chunk id hdr data st).1
  | ReqCompleteUpload uuid now ok id => (complete_upload uuid now ok id st).1
  | ReqSongDetail m id body => (song_detail m id body st).1
  | ReqStartProcess env uuid now m f => (start_process env uuid now m f st).1
  | StepThread env => run_thread env st
  | StepWorker env => run_worker env st
  | StepPoller env => poller_iteration env st
  end.

(** The state after a history of requests, from the empty store. *)
Definition run (history : list request) : state :=
  foldl (fun s r => handle r s) init_state history.



(** The library after the demo upload session has been completed. *)
Definition demo_library : state :=
  (complete_upload "f" 0%Q true "u" demo_session).1.

(** A history: one multipart upload with title and artist. *)
Definition demo_history : list request :=
  [ReqUpload 4096 "s1" 0%Q (Some ("take.mp3", [Byte.x49; Byte.x44; Byte.x33]))
     (Some (JObj {[ "title" := JStr "Blue"; "artist" := JStr "Ann" ]}))].

Definition demo_row : song :=
  mk_song "s1" (Some "Blue") (Some "Ann") "s1.mp3" None
    {[ "title" := JStr "Blue"; "artist" := JStr "Ann" ]} 0.

(** A patch that sets the lyrics and a new artist, and no title. *)
Definition demo_patch : gmap string json :=
  {[ "lyrics" := JStr "la la"; "artist" := JStr "Bo" ]}.


(** * Progress tracker

    [Backend/progress_tracker.py]. Python floats are taken as real
    numbers: what is stated of these definitions are bounds with a
    margin, and the value at half the estimate, which the float
    computation gives exactly. [time.time()] readings are arguments. A
    message is kept as its template and arguments. *)

Module Tracker.

Import Stdlib.Reals.Reals.
Local Open Scope R_scope.

Inductive stage :=
| Separation
| Transcription
| Karaoke.

Definition stage_name (s : stage) : string :=
  match s with
  | Separation => "separation"
  | Transcription => "transcription"
  | Karaoke => "karaoke"
  end.

(** The f-strings of the tracker. *)
Inductive text :=
| Initializing (s : stage)
| Predicted (s : stage) (elapsed remaining : R)
| Complete (s : stage) (elapsed : R)
| Error (error_message : string).

(** The payload of one ['processing_progress'] emission. *)
Record event := mk_event {
  ev_stage : string;
  ev_progress : R;
  ev_message : text;
  ev_estimated_time : option R;
  ev_error : option string
}.

(** [emit_progress]: the progress is clamped to [0, 100]. *)
Definition emit_progress (s : stage) (p : R) (m : text) (est : option R) : event :=
  mk_event (stage_name s) (Rmin 100 (Rmax 0 p)) m est None.

(** [emit_error] *)
Definition emit_error (s : string) (error_message : string) : event :=
  mk_event s 0 (Error error_message) None (Some error_message).

(** The static estimate of a stage from the audio duration; a duration
    that is unset or zero is falsy and selects the default. *)
Definition estimate (s : stage) (audio_duration : option R) : R :=
  match audio_duration with
  | Some d =>
      if Req_dec_T d 0 then
        match s with Separation => 180 | Transcription => 45 | Karaoke => 15 end
      else
        match s with
        | Separation => d * 1.5
        | Transcription => 20 + d * 0.5
        | Karaoke => 10 + d * 0.05
        end
  | None =>
      match s with Separation => 180 | Transcription => 45 | Karaoke => 15 end
  end.

(** [95 / (1 + 2.718 ** (-t_normalized))] with
    [t_normalized = (elapsed / estimated_time) * 12 - 6]. *)
Definition predicted (elapsed estimated_time : R) : R :=
  95 / (1 + Rpower 2.718 (- ((elapsed / estimated_time) * 12 - 6))).

(** Where a prediction thread stands: not yet run, inside the loop with
    its [start] and [last_progress], or past the [break]. *)
Inductive pc :=
| Created
| Looping (start last_progress : R)
| Exited.

Record timer := mk_timer {
  t_stage : stage;
  t_estimate : R;
  t_pc : pc
}.

(** The next step of [update_progress], the target of the thread that
    [_start_predictive_progress] starts, at clock reading [now]: the read
    of [start], or one pass of [while True]. *)
Definition update_progress_step (now : R) (t : timer) : timer * list event :=
  match t_pc t with
  | Created => (mk_timer (t_stage t) (t_estimate t) (Looping now 0), [])
  | Looping start last_progress =>
      let elapsed := now - start in
      if Rle_dec (t_estimate t) elapsed
      then (mk_timer (t_stage t) (t_estimate t) Exited, [])
      else
        let progress := predicted elapsed (t_estimate t) in
        if Rle_dec 1 (progress - last_progress)
        then
          let remaining := t_estimate t - elapsed in
          (mk_timer (t_stage t) (t_estimate t) (Looping start progress),
           [emit_progress (t_stage t) progress
              (Predicted (t_stage t) elapsed remaining) (Some remaining)])
        else (t, [])
  | Exited => (t, [])
  end.

(** A [ProgressTracker] with the threads it has started and everything
    emitted on the socket so far, oldest first. *)
Record tracker := mk_tracker {
  audio_duration : option R;
  start_times : gmap string R;
  timers : list timer;
  emitted : list event
}.

Definition new_tracker (audio_duration : option R) : tracker :=
  mk_tracker audio_duration ∅ [] [].

(** [start_separation_progress], [start_transcription_progress] and
    [start_karaoke_progress]: they differ in the stage and its estimate. *)
Definition start_stage (s : stage) (now : R) (tr : tracker) : tracker :=
  let estimated_time := estimate s (audio_duration tr) in
  mk_tracker (audio_duration tr)
    (<[stage_name s := now]> (start_times tr))
    (timers tr ++ [mk_timer s estimated_time Created])
    (emitted tr ++ [emit_progress s 0 (Initializing s) (Some estimated_time)]).

(** [complete_separation], [complete_transcription] and
    [complete_karaoke]. *)
Definition complete_stage (s : stage) (now : R) (tr : tracker) : tracker :=
  let elapsed := now - default now (start_times tr !! stage_name s) in
  mk_tracker (audio_duration tr) (start_times tr) (timers tr)
    (emitted tr ++ [emit_progress s 100 (Complete s elapsed) None]).

(** A call of [emit_error] on the tracker. *)
Definition fail_stage (s : string) (error_message : string) (tr : tracker) : tracker :=
  mk_tracker (audio_duration tr) (start_times tr) (timers tr)
    (emitted tr ++ [emit_error s error_message]).

(** Thread number [i] performs its next step. *)
Definition step_timer (i : nat) (now : R) (tr : tracker) : tracker :=
  match timers tr !! i with
  | Some t =>
      let '(t', evs) := update_progress_step now t in
      mk_tracker (audio_duration tr) (start_times tr)
        (<[i := t']> (timers tr)) (emitted tr ++ evs)
  | None => tr
  end.

(** The methods of [ProgressTracker], stage by stage. *)
Definition start_separation_progress := start_stage Separation.
Definition complete_separation := complete_stage Separation.
Definition start_transcription_progress := start_stage Transcription.
Definition complete_transcription := complete_stage Transcription.
Definition start_karaoke_progress := start_stage Karaoke.
Definition complete_karaoke := complete_stage Karaoke.

(** What happens next in the process, and the clock reading it sees. *)
Inductive action :=
| StartStage (s : stage) (now : R)
| CompleteStage (s : stage) (now : R)
| FailStage (s : string) (error_message : string)
| TimerStep (i : nat) (now : R).

Definition act (a : action) (tr : tracker) : tracker :=
  match a with
  | StartStage s now => start_stage s now tr
  | CompleteStage s now => complete_stage s now tr
  | FailStage s m => fail_stage s m tr
  | TimerStep i now => step_timer i now tr
  end.

Definition run_schedule (schedule : list action) (tr : tracker) : tracker :=
  foldl (fun t a => act a t) tr schedule.

(** An emission that comes from a prediction thread. *)
Definition is_predicted (e : event) : Prop :=
  match ev_message e with
  | Predicted _ _ _ => True
  | _ => False
  end.

(** A schedule in which the stage is completed while its prediction
    thread is still inside its loop: default estimate 180 s, the thread
    starts at 0, the stage completes at 1, the thread wakes at 90. *)
Definition stale_schedule : list action :=
  [StartStage Separation 0; TimerStep 0 0;
   CompleteStage Separation 1; TimerStep 0 90].

(** No thread of the tracker is inside its loop or about to enter it. *)
Definition all_exited (tr : tracker) : Prop :=
  Forall (fun t => t_pc t = Exited) (timers tr).

(** A schedule that starts no stage. *)
Definition starts_nothing (schedule : list action) : Prop :=
  Forall (fun a => match a with StartStage _ _ => False | _ => True end) schedule.

End Tracker.

(** * Reads: download, status, listing *)

(** What [download] hands back: the file sent as an attachment, or a
    plain response. *)
Inductive file_response :=
| SendFile (data : bytes)   (* send_file(path, as_attachment=True) *)
| Plain (r : response).

(** The first entry of an enumeration whose name starts with [key]. *)
Definition first_artifact (key : string) (entries : list (string * bytes))
    : option (string * bytes) :=
  List.find (fun e => PyStr.startswith key e.1) entries.

(** GET /download/<file_id> and GET /download/<file_id>/<artifact_key>.
    With a key, the first entry of the outputs directory whose name starts
    with the key is sent; without one, the original upload. A path that is
    a directory makes [send_file] raise. *)
Definition download (file_id : string) (artifact_key : option string)
    (st : state) : file_response :=
  let original :=
    match find_song file_id (songs st) with
    | None => Plain (Json (error_body "not found") 404)
    | Some r =>
        if String.eqb (filename r) "" then Plain (Unhandled "IsADirectoryError")
        else match uploads st !! filename r with
             | None => Plain (Json (error_body "file missing") 404)
             | Some (File data) => SendFile data
             | Some (Dir _) => Plain (Unhandled "IsADirectoryError")
             end
    end in
  match artifact_key with
  | Some key =>
      if String.eqb key "" then original
      else if outputs_root st && exists_raises file_id
      then Plain (Unhandled "OSError")
      else if String.eqb file_id "." then
        (* the outputs root itself: its entries are the directories *)
        if outputs_root st then
          if existsb (PyStr.startswith key) (map_to_list (outputs st)).*1
          then Plain (Unhandled "IsADirectoryError")
          else Plain (Json (error_body "artifact not found") 404)
        else Plain (Json (error_body "not found") 404)
      else match outputs st !! file_id with
           | None => Plain (Json (error_body "not found") 404)
           | Some dir =>
               match first_artifact key (map_to_list dir) with
               | Some (_, data) => SendFile data
               | None => Plain (Json (error_body "artifact not found") 404)
               end
           end
  | None => original
  end.

(** DELETE /cleanup/<file_id>: the outputs of the file are removed, the
    original upload is left alone. For the segment ["."] the outputs
    directory is the outputs root: everything below it goes, and the root
    with it. [name_error] is the text of the [OSError] that [exists()]
    raises for a name beyond the limit, [rmtree_error] the text of the
    exception [shutil.rmtree] raises, if it does; a failing [rmtree] is
    taken to have removed nothing. *)
Definition cleanup (name_error : string) (rmtree_error : option string)
    (file_id : string) (st : state) : state * response :=
  if outputs_root st && exists_raises file_id
  then (st, Json (error_body name_error) 500)
  else if String.eqb file_id "." then
    if outputs_root st then
      match rmtree_error with
      | Some e => (st, Json (error_body e) 500)
      | None => (set_outputs_root false (set_outputs ∅ st), Empty 204)
      end
    else (st, Empty 204)
  else
  match outputs st !! file_id with
  | Some _ =>
      match rmtree_error with
      | Some e => (st, Json (error_body e) 500)
      | None => (set_outputs (delete file_id (outputs st)) st, Empty 204)
      end
  | None => (st, Empty 204)
  end.



(** A song as [list_songs] and the GET branch of [song_detail] render it:
    the columns, with the metadata decoded, and the download url. *)
Definition song_object (r : song) : song * string :=
  (r, "/download/" +:+ song_id r).

(** GET /songs *)
Definition list_songs (st : state) : list (song * string) :=
  song_object <$> songs st.

(** The GET branch of [song_detail]: the song object, or 404. *)
Definition song_get (file_id : string) (st : state)
    : (song * string) + response :=
  match find_song file_id (songs st) with
  | None => inr (Json (error_body "not found") 404)
  | Some r => inl (song_object r)
  end.

(** * Proxy *)

(** What [requests.get(url, stream=True, timeout=10)] gives: it raises, or
    it answers with a Content-Type header (if any) and the chunks
    [iter_content] yields. *)
Inductive fetched :=
| FetchRaises (e : string)
| FetchedStream (content_type : option string) (chunks : list bytes).

(** What [proxy_audio] hands back: a streamed body with its Content-Type,
    or a plain response. *)
Inductive proxy_response :=
| Stream (content_type : string) (body : list bytes)
| ProxyPlain (r : response).

(** POST /proxy-audio. [get] stands for [requests.get] on the value of
    ["url"]; empty chunks are not yielded. *)
Definition proxy_audio (get : json → fetched) (body : option json)
    : proxy_response :=
  match json_or_empty body with
  | JObj data =>
      let url := dict_get "url" data in
      if truthy url then
        match get url with
        | FetchRaises e =>
            ProxyPlain (Json (error_body ("fetch failed: " +:+ e)) 502)
        | FetchedStream ct chunks =>
            Stream (default "application/octet-stream" ct)
                   (filter (fun chunk => chunk ≠ []) chunks)
        end
      else ProxyPlain (Json (error_body "url required") 400)
  | _ => ProxyPlain (Unhandled "AttributeError")
  end.

(** * Reading an index back *)

(** The value of a decimal digit character. *)
Definition digit_value (c : ascii) : Z := Z.of_nat (nat_of_ascii c) - 48.

(** The number a string of decimal digits writes, continuing [acc]. *)
Fixpoint digits_value (acc : Z) (s : string) : Z :=
  match s with
  | "" => acc
  | String c s' => digits_value (10 * acc + digit_value c) s'
  end.

(** The integer an optional minus sign followed by decimal digits writes,
    as [int()] reads it; leading zeros do not count. *)
Definition read_index (s : string) : Z :=
  match s with
  | String "-" s' => - digits_value 0 s'
  | _ => digits_value 0 s
  end.

(** * Pending work and histories *)

(** The job ids of the calls that wait in a thread or on the queue. *)
Definition pending_ids (st : state) : list string :=
  (fun t : task => t.1.1) <$> (threads st ++ rq st).

(** What the handlers keep about jobs: no two rows have the same id, no
    two pending calls are for the same job, every pending call is for a
    job that reads ['processing'], and no job reads anything but
    ['processing'], ['completed'] or ['failed']. *)
Definition jobs_settled (st : state) : Prop :=
  NoDup (job_id <$> jobs st)
  ∧ NoDup (pending_ids st)
  ∧ (∀ x, x ∈ pending_ids st → is_Some (find_job x (jobs st)))
  ∧ (∀ j, j ∈ jobs st → job_id j ∈ pending_ids st → status j = "processing")
  ∧ (∀ j, j ∈ jobs st →
       status j = "processing" ∨ status j = "completed" ∨ status j = "failed").

(** The rows one poller receives from [n] claims in a row. *)
Fixpoint claimed (n : nat) (st : state) : list job :=
  match n with
  | O => []
  | S n' =>
      match claim st with
      | (st1, Some r) => r :: claimed n' st1
      | (_, None) => []
      end
  end.

(** The body of a session-creating request with a title, an artist and
    the name of the file. *)
Definition demo_meta : json :=
  JObj {[ "title" := JStr "Blue"; "artist" := JStr "Ann";
          "filename" := JStr "take.flac" ]}.



(** An extension as the handlers append it to a stored file name: a dot,
    then characters that are neither dots nor slashes. *)
Definition plain_ext (ext : string) : Prop :=
  ∃ rest, ext = String "."%char rest
          ∧ PyStr.rfind "."%char rest = None
          ∧ PyStr.rfind "/"%char rest = None.

(** What the handlers keep about songs: ids are pairwise distinct, and
    the stored file name of a song is its id followed by an extension. *)
Definition songs_named (st : state) : Prop :=
  NoDup (song_id <$> songs st)
  ∧ ∀ s, s ∈ songs st → ∃ ext, filename s = song_id s +:+ ext ∧ plain_ext ext.

(** A session directory with two chunk files and no [meta.json]. *)
Definition demo_dir : session :=
  mk_session None
    {[ "chunk-000000.part" := demo_chunk0; "chunk-000001.part" := demo_chunk1 ]}.

(** The extension [upload] gives the stored file:
    [os.path.splitext(f.filename)[1] or ".bin"]. *)
Definition upload_ext (fname : string) : string :=
  if String.eqb (PyStr.splitext_ext fname) "" then ".bin"
  else PyStr.splitext_ext fname.

(** * Progress tracker: the passes of a thread *)

Module Progress.

Import Stdlib.Reals.Reals.
Import Tracker.
Local Open Scope R_scope.

(** [update_progress], the thread target, over the clock readings of its
    steps: the read of [start], then one reading for each pass of
    [while True]. *)
Fixpoint update_progress (clock : list R) (t : timer) : timer * list event :=
  match clock with
  | [] => (t, [])
  | now :: rest =>
      let '(t1, evs) := update_progress_step now t in
      let '(t2, evs') := update_progress rest t1 in
      (t2, evs ++ evs')
  end.

End Progress.

(** * Facts about strings, digits and their order *)

Section string_facts.

Lemma str_app_nil_l (s : string) : "" +:+ s = s.
Proof. reflexivity. Qed.

Lemma str_app_cons (a : ascii) (s t : string) :
  String a s +:+ t = String a (s +:+ t).
Proof. reflexivity. Qed.

Lemma str_app_assoc (s t u : string) : (s +:+ t) +:+ u = s +:+ (t +:+ u).
Proof.
  induction s as [|a s IH]; [reflexivity|].
  rewrite !str_app_cons. by rewrite IH.
Qed.

Lemma str_length_app (s t : string) :
  String.length (s +:+ t) = (String.length s + String.length t)%nat.
Proof.
  induction s as [|a s IH]; [reflexivity|].
  rewrite str_app_cons. simpl. by rewrite IH.
Qed.

Lemma ascii_compare_refl (a : ascii) : Ascii.compare a a = Eq.
Proof. unfold Ascii.compare. apply N.compare_refl. Qed.

Lemma compare_refl (s : string) : String.compare s s = Eq.
Proof.
  induction s as [|a s IH]; [reflexivity|].
  simpl. by rewrite ascii_compare_refl.
Qed.

(** A common prefix does not take part in a comparison. *)
Lemma compare_app_prefix (p s t : string) :
  String.compare (p +:+ s) (p +:+ t) = String.compare s t.
Proof.
  induction p as [|a p IH]; [reflexivity|].
  rewrite !str_app_cons. simpl. by rewrite ascii_compare_refl.
Qed.

(** Strings of equal length are compared before what follows them. *)
Lemma compare_app_same_length (x y s t : string) :
  String.length x = String.length y →
  String.compare (x +:+ s) (y +:+ t) =
    match String.compare x y with
    | Eq => String.compare s t
    | c => c
    end.
Proof.
  revert y. induction x as [|a x IH]; intros [|b y] Hlen; simplify_eq/=.
  - reflexivity.
  - rewrite ?str_app_cons; simpl.
    destruct (Ascii.compare a b); [by apply IH|done..].
Qed.

Lemma prefix_app (p s : string) : String.prefix p (p +:+ s) = true.
Proof.
  induction p as [|a p IH]; [by destruct s|].
  rewrite str_app_cons. simpl.
  destruct (ascii_dec a a); [done|congruence].
Qed.

Lemma lt_not_eq (s t : string) : String.compare s t = Lt → s ≠ t.
Proof. intros Hlt ->. by rewrite compare_refl in Hlt. Qed.

Lemma lt_le (s t : string) : String.compare s t = Lt → String.le s t.
Proof. intros Hlt. unfold String.le, String.leb. by rewrite Hlt. Qed.

End string_facts.

(** * Facts about [format_06d] and chunk names *)

Section format_facts.

Import PyStr.

Lemma length_digit (d : Z) : String.length (digit d) = 1%nat.
Proof. reflexivity. Qed.

Lemma fixed_S (k : nat) (n : Z) :
  fixed (S k) n = fixed k (n / 10) +:+ digit (n mod 10).
Proof. reflexivity. Qed.

Lemma length_fixed (k : nat) (n : Z) : String.length (fixed k n) = k.
Proof.
  revert n. induction k as [|k IH]; intros n; [reflexivity|].
  simpl. rewrite str_length_app, IH, length_digit. lia.
Qed.

Lemma zeros_snoc (k : nat) : zeros k +:+ "0" = String "0" (zeros k).
Proof.
  induction k as [|k IH]; [reflexivity|].
  simpl. rewrite str_app_cons. by rewrite IH.
Qed.

Lemma fixed_zero (k : nat) : fixed k 0 = zeros k.
Proof.
  induction k as [|k IH]; [reflexivity|].
  simpl. change (0 / 10) with 0. rewrite IH.
  change (digit (0 mod 10)) with "0". apply zeros_snoc.
Qed.

Lemma dec_digits_step (f : nat) (n : Z) :
  dec_digits (S f) n =
    if n <? 10 then digit n else dec_digits f (n / 10) +:+ digit (n mod 10).
Proof. reflexivity. Qed.

Lemma length_dec_digits_pos (f : nat) (n : Z) :
  (0 < String.length (dec_digits (S f) n))%nat.
Proof.
  rewrite dec_digits_step. destruct (n <? 10).
  - rewrite length_digit. lia.
  - rewrite str_length_app, length_digit. lia.
Qed.

(** Zero-filling the digits of a number below [10 ^ k] shows its [k] low
    digits. *)
Lemma zfill_dec_digits (k f : nat) (n : Z) :
  (0 < k)%nat → 0 ≤ n → n < 10 ^ Z.of_nat (S f) → n < 10 ^ Z.of_nat k →
  zfill k (dec_digits (S f) n) = fixed k n.
Proof.
  revert f n. induction k as [|k IH]; intros f n Hk Hn Hf Hnk; [lia|].
  rewrite dec_digits_step. destruct (Z.ltb_spec n 10) as [Hlt|Hge].
  - unfold zfill. rewrite length_digit, fixed_S.
    rewrite Z.div_small, Z.mod_small by lia. rewrite fixed_zero.
    by replace (S k - 1)%nat with k by lia.
  - destruct f as [|f].
    { change (10 ^ Z.of_nat 1) with 10 in Hf. lia. }
    destruct k as [|k].
    { change (10 ^ Z.of_nat 1) with 10 in Hnk. lia. }
    assert (n / 10 < 10 ^ Z.of_nat (S f)).
    { apply Z.div_lt_upper_bound; [lia|].
      rewrite (Nat2Z.inj_succ (S f)), Z.pow_succ_r in Hf by lia. lia. }
    assert (n / 10 < 10 ^ Z.of_nat (S k)).
    { apply Z.div_lt_upper_bound; [lia|].
      rewrite (Nat2Z.inj_succ (S k)), Z.pow_succ_r in Hnk by lia. lia. }
    rewrite fixed_S, <-(IH f (n / 10)) by (lia || apply Z.div_pos; lia).
    unfold zfill. rewrite str_length_app, length_digit, <-str_app_assoc.
    pose proof (length_dec_digits_pos f (n / 10)).
    by replace (S (S k) - (String.length (dec_digits (S f) (n / 10)) + 1))%nat
      with (S k - String.length (dec_digits (S f) (n / 10)))%nat by lia.
Qed.

Lemma str_nat_fuel (n : Z) : 0 ≤ n → n < 10 ^ Z.of_nat (S (Z.to_nat (Z.log2 n))).
Proof.
  intros Hn. destruct (decide (n = 0)) as [->|Hne]; [done|].
  pose proof (Z.log2_nonneg n).
  rewrite Nat2Z.inj_succ, Z2Nat.id by done.
  pose proof (Z.log2_spec n ltac:(lia)) as [_ Hub].
  eapply Z.lt_le_trans; [exact Hub|].
  apply Z.pow_le_mono_l. lia.
Qed.

(** Below a million the format is the six low digits. *)
Lemma format_06d_fixed (n : Z) :
  0 ≤ n < 1000000 → format_06d n = fixed 6 n.
Proof.
  intros [Hn Hlt]. unfold format_06d.
  destruct (Z.ltb_spec n 0); [lia|].
  unfold str_nat. apply zfill_dec_digits; [lia|done|by apply str_nat_fuel|].
  change (10 ^ Z.of_nat 6) with 1000000. done.
Qed.

Lemma compare_digit (a b : Z) :
  0 ≤ a < 10 → 0 ≤ b < 10 →
  String.compare (digit a) (digit b) = Z.compare a b.
Proof.
  intros Ha Hb.
  assert (a = 0 ∨ a = 1 ∨ a = 2 ∨ a = 3 ∨ a = 4 ∨ a = 5 ∨ a = 6 ∨ a = 7
          ∨ a = 8 ∨ a = 9) as Ha' by lia.
  assert (b = 0 ∨ b = 1 ∨ b = 2 ∨ b = 3 ∨ b = 4 ∨ b = 5 ∨ b = 6 ∨ b = 7
          ∨ b = 8 ∨ b = 9) as Hb' by lia.
  clear Ha Hb.
  repeat (destruct Ha' as [->|Ha']); try subst a;
    repeat (destruct Hb' as [->|Hb']); try subst b; reflexivity.
Qed.

(** On [k] digits the code-point order is the numeric order. *)
Lemma compare_fixed (k : nat) (a b : Z) :
  0 ≤ a < 10 ^ Z.of_nat k → 0 ≤ b < 10 ^ Z.of_nat k →
  String.compare (fixed k a) (fixed k b) = Z.compare a b.
Proof.
  revert a b. induction k as [|k IH]; intros a b Ha Hb.
  - change (10 ^ Z.of_nat 0) with 1 in *.
    assert (a = 0) as -> by lia. by assert (b = 0) as -> by lia.
  - rewrite Nat2Z.inj_succ, Z.pow_succ_r in Ha, Hb by lia.
    rewrite !fixed_S.
    rewrite compare_app_same_length by (by rewrite !length_fixed).
    pose proof (Z.div_mod a 10 ltac:(lia)).
    pose proof (Z.div_mod b 10 ltac:(lia)).
    pose proof (Z.mod_pos_bound a 10 ltac:(lia)).
    pose proof (Z.mod_pos_bound b 10 ltac:(lia)).
    rewrite IH, compare_digit by
      (try split; try apply Z.div_pos; try apply Z.div_lt_upper_bound; lia).
    destruct (Z.compare_spec (a / 10) (b / 10)) as [Heq|Hlt|Hgt].
    + destruct (Z.compare_spec (a mod 10) (b mod 10)); symmetry;
        [apply Z.compare_eq_iff|apply Z.compare_lt_iff|apply Z.compare_gt_iff]; lia.
    + symmetry. apply Z.compare_lt_iff. lia.
    + symmetry. apply Z.compare_gt_iff. lia.
Qed.

(** Below a million, chunk names are ordered as their indices. *)
Lemma chunk_name_lt (i j : Z) :
  0 ≤ i → i < j → j < 1000000 →
  String.compare (chunk_name i) (chunk_name j) = Lt.
Proof.
  intros Hi Hij Hj. unfold chunk_name.
  rewrite compare_app_prefix, !format_06d_fixed by lia.
  rewrite compare_app_same_length by (by rewrite !length_fixed).
  rewrite compare_fixed by (change (10 ^ Z.of_nat 6) with 1000000; lia).
  by apply Z.compare_lt_iff in Hij as ->.
Qed.

Lemma chunk_name_startswith (i : Z) :
  startswith "chunk-" (chunk_name i) = true.
Proof. apply prefix_app. Qed.

Lemma length_chunk_name_small (i : Z) :
  0 ≤ i < 1000000 → String.length (chunk_name i) = 17%nat.
Proof.
  intros Hi. unfold chunk_name.
  by rewrite !str_length_app, format_06d_fixed, length_fixed.
Qed.

(** Up to a million included, distinct indices have distinct names. *)
Lemma chunk_name_inj (i j : Z) :
  0 ≤ i ≤ 1000000 → 0 ≤ j ≤ 1000000 → chunk_name i = chunk_name j → i = j.
Proof.
  intros Hi Hj Heq.
  destruct (decide (i = 1000000)) as [->|Hi'];
    destruct (decide (j = 1000000)) as [->|Hj']; [done| | |].
  - apply (f_equal String.length) in Heq.
    rewrite (length_chunk_name_small j) in Heq by lia. done.
  - apply (f_equal String.length) in Heq.
    rewrite (length_chunk_name_small i) in Heq by lia. done.
  - destruct (Z.lt_total i j) as [Hlt|[->|Hgt]]; [|done|].
    + by apply chunk_name_lt, lt_not_eq in Hlt; [|lia..].
    + apply chunk_name_lt, lt_not_eq in Hgt; [|lia..]. done.
Qed.

Lemma has_nul_app (s t : string) : has_nul (s +:+ t) = has_nul s || has_nul t.
Proof.
  induction s as [|a s IH]; [reflexivity|].
  simpl. rewrite IH. by rewrite orb_assoc.
Qed.

Lemma has_nul_digit (d : Z) : d < 10 → has_nul (digit d) = false.
Proof.
  intros Hd.
  assert (Z.to_nat d = 0 ∨ Z.to_nat d = 1 ∨ Z.to_nat d = 2 ∨ Z.to_nat d = 3
          ∨ Z.to_nat d = 4 ∨ Z.to_nat d = 5 ∨ Z.to_nat d = 6 ∨ Z.to_nat d = 7
          ∨ Z.to_nat d = 8 ∨ Z.to_nat d = 9)%nat as Hcases by lia.
  unfold digit.
  repeat (destruct Hcases as [->|Hcases]); try rewrite Hcases; reflexivity.
Qed.

Lemma has_nul_fixed (k : nat) (n : Z) : has_nul (fixed k n) = false.
Proof.
  revert n. induction k as [|k IH]; intros n; [reflexivity|].
  rewrite fixed_S, has_nul_app, IH, has_nul_digit; [done|].
  pose proof (Z.mod_pos_bound n 10). lia.
Qed.

(** The file system takes the chunk names of the indices up to a
    million. *)
Lemma chunk_name_storable (i : Z) :
  0 ≤ i ≤ 1000000 → refused (chunk_name i) = None.
Proof.
  intros Hi. destruct (decide (i = 1000000)) as [->|Hne]; [reflexivity|].
  unfold refused, too_long.
  rewrite length_chunk_name_small by lia.
  unfold chunk_name. rewrite !has_nul_app, format_06d_fixed, has_nul_fixed by lia.
  reflexivity.
Qed.

Lemma refused_None (name : string) :
  refused name = None → has_nul name = false ∧ too_long name = false.
Proof.
  unfold refused. destruct (has_nul name); [done|]. by destruct (too_long name).
Qed.

Lemma refused_exists (name : string) :
  refused name = None → exists_raises name = false.
Proof.
  unfold refused, exists_raises.
  destruct (has_nul name); [done|]. by destruct (too_long name).
Qed.

End format_facts.

(** * Facts about upload sessions *)

Section upload_facts.

Implicit Types (st : state) (d : session) (calls : list (Z * bytes)).

Lemma set_uploads_id st d id :
  uploads st !! id = Some (Dir d) →
  set_uploads (<[id := Dir (mk_session (meta d) (files d))]> (uploads st)) st = st.
Proof.
  intros Hd. destruct st, d. unfold set_uploads. simpl in *.
  by rewrite insert_id.
Qed.

Lemma upload_chunks_cons id (c : Z * bytes) calls st :
  upload_chunks id (c :: calls) st =
    upload_chunks id calls (upload_chunk id (IndexHeader c.1) c.2 st).1.
Proof. reflexivity. Qed.

(** A chunk request against a session directory, under an index whose
    chunk name the file system takes. *)
Lemma upload_chunk_dir id idx data st d :
  String.eqb id "." = false → exists_raises id = false →
  refused (chunk_name idx) = None →
  uploads st !! id = Some (Dir d) →
  upload_chunk id (IndexHeader idx) data st
  = (set_uploads
       (<[id := Dir (mk_session (meta d) (<[chunk_name idx := data]> (files d)))]>
          (uploads st)) st,
     Empty 204).
Proof.
  intros Hdot Hlong Hname Hd. unfold upload_chunk, upload_dir.
  by rewrite Hlong, andb_false_r, Hdot, Hd, Hname.
Qed.

(** Chunk requests against an existing session only rewrite its files. *)
Lemma upload_chunks_dir id calls st d :
  String.eqb id "." = false → exists_raises id = false →
  Forall (fun c => refused (chunk_name c.1) = None) calls →
  uploads st !! id = Some (Dir d) →
  upload_chunks id calls st =
    set_uploads
      (<[id := Dir (mk_session (meta d) (write_all calls (files d)))]> (uploads st))
      st.
Proof.
  intros Hdot Hlong Hnames. revert st d.
  induction Hnames as [|[i b] calls Hname _ IH]; intros st d Hd.
  - simpl. by rewrite set_uploads_id.
  - rewrite upload_chunks_cons. cbn [fst snd] in *.
    rewrite (upload_chunk_dir id i b st d) by done. cbn [fst].
    erewrite IH; [|by apply lookup_insert_eq].
    unfold set_uploads. simpl. by rewrite insert_insert_eq.
Qed.

Lemma write_all_union calls (m : gmap string bytes) :
  write_all calls m = list_to_map (reverse (written calls)) ∪ m.
Proof.
  revert m. induction calls as [|[i b] calls IH]; intros m.
  - simpl. by rewrite (left_id_L ∅ (∪)).
  - change (write_all ((i, b) :: calls) m)
      with (write_all calls (<[chunk_name i := b]> m)).
    change (written ((i, b) :: calls)) with ((chunk_name i, b) :: written calls).
    rewrite IH, reverse_cons, list_to_map_app, <-(assoc_L (∪)). f_equal.
    simpl. by rewrite insert_empty, <-insert_union_singleton_l.
Qed.

(** With pairwise distinct names the order of the requests is immaterial. *)
Lemma write_all_empty calls :
  NoDup (written calls).*1 →
  write_all calls ∅ = list_to_map (written calls).
Proof.
  intros Hnd. rewrite write_all_union, (right_id_L ∅ (∪)).
  apply list_to_map_proper.
  - by rewrite fmap_reverse, reverse_Permutation.
  - by rewrite reverse_Permutation.
Qed.

Lemma iterdir_chunks d (kvs : list (string * bytes)) :
  NoDup kvs.*1 →
  Forall (fun n => PyStr.startswith "chunk-" n = true) kvs.*1 →
  files d = list_to_map kvs →
  filter (fun p => PyStr.startswith "chunk-" p) (iterdir d) ≡ₚ kvs.*1.
Proof.
  intros Hnd Hall Hf. unfold iterdir. rewrite filter_app.
  assert (filter (fun p : string => PyStr.startswith "chunk-" p)
            match meta d with Some _ => ["meta.json"] | None => [] end = []) as ->.
  { by destruct (meta d). }
  rewrite Hf. simpl. rewrite map_to_list_to_map by done.
  clear Hnd Hf. induction Hall as [|n l Hn _ IH]; [done|].
  rewrite filter_cons_True by (by rewrite Hn). by rewrite IH.
Qed.

(** [sorted] returns the one ascending arrangement of its argument. *)
Lemma sorted_unique (l l' : list string) :
  l ≡ₚ l' → Sorted String.le l' → sorted l = l'.
Proof.
  intros Hp Hs. unfold sorted.
  apply (Sorted_unique String.le); [apply Sorted_merge_sort, _|done|].
  by rewrite merge_sort_Permutation.
Qed.

(** The order in which the directory is enumerated does not show in the
    sorted parts. *)
Lemma parts_of_any_enumeration d (listing : list string) :
  listing ≡ₚ iterdir d →
  sorted (filter (fun p => PyStr.startswith "chunk-" p) listing) = parts_of d.
Proof.
  intros Hp. apply sorted_unique.
  - unfold parts_of, sorted. by rewrite merge_sort_Permutation, Hp.
  - apply Sorted_merge_sort, _.
Qed.

Lemma sorted_Permutation (l : list string) : sorted l ≡ₚ l.
Proof. apply merge_sort_Permutation. Qed.

Lemma sorted_StronglySorted (l : list string) : StronglySorted String.le (sorted l).
Proof. apply StronglySorted_merge_sort; apply _. Qed.

(** The names of consecutive indices below a million are ascending. *)
Lemma chunk_names_sorted (len : nat) (m : Z) :
  0 ≤ m → m + Z.of_nat len ≤ 1000000 →
  Sorted String.le (chunk_name <$> seqZ m (Z.of_nat len)).
Proof.
  revert m. induction len as [|len IH]; intros m Hm Hlen.
  - rewrite seqZ_nil by lia. constructor.
  - rewrite seqZ_cons by lia.
    replace (Z.pred (Z.of_nat (S len))) with (Z.of_nat len) by lia.
    rewrite fmap_cons. constructor; [apply IH; lia|].
    destruct len as [|len]; [rewrite seqZ_nil by lia; constructor|].
    rewrite seqZ_cons by lia. rewrite fmap_cons. constructor.
    apply lt_le, chunk_name_lt; lia.
Qed.

Lemma written_fst calls : (written calls).*1 = chunk_name <$> calls.*1.
Proof. unfold written. rewrite <-!list_fmap_compose. done. Qed.

Lemma read_file_written d calls (i : Z) (b : bytes) :
  NoDup (written calls).*1 →
  files d = list_to_map (written calls) →
  (i, b) ∈ calls →
  read_file d (chunk_name i) = b.
Proof.
  intros Hnd Hf Hin. unfold read_file. rewrite Hf.
  erewrite elem_of_list_to_map_1; [done..|].
  unfold written. apply list_elem_of_fmap. by exists (i, b).
Qed.

End upload_facts.

(** * Completing an upload session *)

Section complete_facts.

Implicit Types (st : state) (d : session).

Lemma find_song_snoc id (s : song) (l : list song) :
  find_song id (l ++ [s]) =
    match find_song id l with
    | Some x => Some x
    | None => if String.eqb (song_id s) id then Some s else None
    end.
Proof.
  unfold find_song. induction l as [|x l IH]; simpl; [done|].
  by destruct (String.eqb (song_id x) id).
Qed.

(** The success path of [complete_upload], for a fresh [uuid]. *)
Lemma complete_upload_created uuid now ok id st d :
  String.eqb id "." = false → exists_raises id = false →
  uploads st !! id = Some (Dir d) →
  parts_of d ≠ [] →
  refused (uuid +:+ infer_ext d) = None →
  uploads st !! (uuid +:+ infer_ext d) = None →
  find_song uuid (songs st) = None →
  ∃ st',
    complete_upload uuid now ok id st =
      (st', Json {[ "file_id" := JStr uuid;
                    "url" := JStr ("/download/" +:+ uuid) ]} 201)
    ∧ uploads st' !! (uuid +:+ infer_ext d) = Some (File (assemble d (parts_of d)))
    ∧ find_song uuid (songs st') =
        Some (mk_song uuid None None (uuid +:+ infer_ext d) None ∅ now)
    ∧ (ok = true → uploads st' !! id = None).
Proof.
  intros Hdot Hlong Hd Hparts Hname Hfree Hfresh.
  assert (uuid +:+ infer_ext d ≠ id) as Hne by (intros <-; congruence).
  unfold complete_upload, upload_dir, remove_upload_dir.
  rewrite Hlong, andb_false_r, Hdot, Hd.
  destruct (parts_of d) as [|p ps] eqn:Hp; [done|].
  cbv zeta. rewrite Hname, Hfree. unfold insert_song. simpl. rewrite Hfresh.
  eexists. split; [reflexivity|]. split; [|split].
  - destruct ok; simpl.
    + by rewrite lookup_delete_ne, lookup_insert_eq.
    + by rewrite lookup_insert_eq.
  - destruct ok; simpl; rewrite find_song_snoc, Hfresh; simpl;
      by rewrite String.eqb_refl.
  - intros ->. simpl. by rewrite lookup_delete_eq.
Qed.

End complete_facts.

(** * Assembly order *)

Section assembly.

Implicit Types (st : state) (d : session) (calls : list (Z * bytes)).

Lemma in_order_fst (chunks : list bytes) :
  (in_order chunks).*1 = seqZ 0 (Z.of_nat (length chunks)).
Proof.
  unfold in_order. apply fst_zip. rewrite length_seqZ. lia.
Qed.

Lemma in_order_lookup (chunks : list bytes) (k : nat) (c : bytes) :
  chunks !! k = Some c → in_order chunks !! k = Some (Z.of_nat k, c).
Proof.
  intros Hc. unfold in_order. rewrite lookup_zip_with, Hc.
  apply lookup_lt_Some in Hc as Hlt.
  rewrite lookup_seqZ_lt by lia. done.
Qed.

Lemma elem_of_in_order (chunks : list bytes) (i : Z) (c : bytes) :
  (i, c) ∈ in_order chunks ↔ 0 ≤ i ∧ chunks !! Z.to_nat i = Some c.
Proof.
  split.
  - intros [k Hk]%list_elem_of_lookup.
    unfold in_order in Hk. rewrite lookup_zip_with in Hk.
    destruct (seqZ 0 (Z.of_nat (length chunks)) !! k) as [j|] eqn:Hj; [|done].
    destruct (chunks !! k) as [c'|] eqn:Hc; simplify_eq/=.
    apply lookup_seqZ in Hj as [-> _].
    split; [lia|]. by rewrite Z.add_0_l, Nat2Z.id.
  - intros [Hi Hc]. apply list_elem_of_lookup. exists (Z.to_nat i).
    rewrite (in_order_lookup _ _ _ Hc). by rewrite Z2Nat.id.
Qed.

(** The state of a session that started without chunk files, after chunk
    requests with pairwise distinct names. *)
Lemma upload_chunks_fresh id calls st d :
  String.eqb id "." = false → exists_raises id = false →
  Forall (fun c => refused (chunk_name c.1) = None) calls →
  uploads st !! id = Some (Dir d) → files d = ∅ →
  NoDup (written calls).*1 →
  upload_chunks id calls st =
    set_uploads
      (<[id := Dir (mk_session (meta d) (list_to_map (written calls)))]> (uploads st))
      st.
Proof.
  intros Hdot Hlong Hnames Hd Hf Hnd.
  rewrite (upload_chunks_dir id calls st d) by done. rewrite Hf.
  by rewrite write_all_empty.
Qed.

Lemma parts_of_written d calls :
  NoDup (written calls).*1 →
  files d = list_to_map (written calls) →
  parts_of d ≡ₚ (written calls).*1.
Proof.
  intros Hnd Hf. unfold parts_of. rewrite sorted_Permutation.
  apply iterdir_chunks; [done| |done].
  rewrite written_fst. apply Forall_fmap, Forall_true.
  intros i. apply chunk_name_startswith.
Qed.

(** Names of a permutation of the indices [0 .. n-1], [n] at most
    1000001, are pairwise distinct. *)
Lemma written_NoDup calls (n : Z) :
  n ≤ 1000001 → calls.*1 ≡ₚ seqZ 0 n → NoDup (written calls).*1.
Proof.
  intros Hn Hp. rewrite written_fst, Hp.
  apply NoDup_fmap_2_strong; [|apply NoDup_seqZ].
  intros i j [ki [-> ?]%lookup_seqZ]%list_elem_of_lookup
             [kj [-> ?]%lookup_seqZ]%list_elem_of_lookup.
  apply chunk_name_inj; lia.
Qed.

(** The file system takes the chunk names of a permutation of the indices
    [0 .. n-1], [n] at most 1000001. *)
Lemma calls_storable calls (n : Z) :
  n ≤ 1000001 → calls.*1 ≡ₚ seqZ 0 n →
  Forall (fun c => refused (chunk_name c.1) = None) calls.
Proof.
  intros Hn Hp. apply Forall_forall. intros c Hc.
  apply chunk_name_storable.
  assert (c.1 ∈ seqZ 0 n) as Hin.
  { rewrite <-Hp. apply list_elem_of_fmap. by exists c. }
  apply elem_of_seqZ in Hin. lia.
Qed.

(** Reading the chunk files by ascending index gives back the chunks. *)
Lemma read_in_index_order d calls (chunks : list bytes) :
  calls ≡ₚ in_order chunks →
  NoDup (written calls).*1 →
  files d = list_to_map (written calls) →
  read_file d <$> (chunk_name <$> seqZ 0 (Z.of_nat (length chunks))) = chunks.
Proof.
  intros Hp Hnd Hf. apply list_eq. intros k.
  rewrite !list_lookup_fmap.
  destruct (chunks !! k) as [c|] eqn:Hc.
  - apply lookup_lt_Some in Hc as Hlt.
    rewrite lookup_seqZ_lt by lia. simpl. f_equal.
    apply (read_file_written d calls); [done..|].
    rewrite Hp. apply elem_of_in_order.
    rewrite Z.add_0_l, Nat2Z.id. split; [lia|done].
  - apply lookup_ge_None in Hc. by rewrite lookup_seqZ_ge by lia.
Qed.

(** Up to a million chunks, sent once each in any order to a session
    without chunk files: completion answers 201 and the final file is the
    chunks in index order, when the file system takes the session id and
    the name of the final file. *)
Theorem complete_upload_index_order
    (chunks : list bytes) calls uuid now ok id st d :
  0 < Z.of_nat (length chunks) ≤ 1000000 →
  calls ≡ₚ in_order chunks →
  id ≠ "." → refused id = None →
  uploads st !! id = Some (Dir d) → files d = ∅ →
  refused (uuid +:+ infer_ext d) = None →
  uploads st !! (uuid +:+ infer_ext d) = None →
  find_song uuid (songs st) = None →
  let r := complete_upload uuid now ok id (upload_chunks id calls st) in
  http_status r.2 = 201
  ∧ uploads r.1 !! (uuid +:+ infer_ext d) = Some (File (concat chunks)).
Proof.
  intros Hlen Hp Hdot%String.eqb_neq Hlong%refused_exists Hd Hf Hname Hfree Hfresh r.
  subst r.
  assert (uuid +:+ infer_ext d ≠ id) as Hne by (intros <-; congruence).
  assert (calls.*1 ≡ₚ seqZ 0 (Z.of_nat (length chunks))) as Hidx.
  { by rewrite Hp, in_order_fst. }
  assert (NoDup (written calls).*1) as Hnd.
  { apply (written_NoDup _ (Z.of_nat (length chunks))); [lia|done]. }
  assert (Forall (fun c => refused (chunk_name c.1) = None) calls) as Hnames.
  { apply (calls_storable _ (Z.of_nat (length chunks))); [lia|done]. }
  rewrite (upload_chunks_fresh id calls st d) by done.
  set (d' := mk_session (meta d) (list_to_map (written calls))).
  set (st' := set_uploads _ st).
  assert (parts_of d' = chunk_name <$> seqZ 0 (Z.of_nat (length chunks))) as Hparts.
  { apply sorted_unique; [|apply chunk_names_sorted; lia].
    unfold parts_of in *.
    rewrite <-(sorted_Permutation (filter _ _)).
    rewrite (parts_of_written d' calls Hnd eq_refl).
    by rewrite written_fst, Hidx. }
  destruct (complete_upload_created uuid now ok id st' d')
    as (st'' & -> & Hfile & _).
  - done.
  - done.
  - apply lookup_insert_eq.
  - rewrite Hparts. destruct chunks; [simpl in Hlen; lia|].
    rewrite seqZ_cons by (simpl; lia). done.
  - done.
  - subst st'. simpl. by rewrite lookup_insert_ne.
  - done.
  - split; [done|]. simpl. change (infer_ext d') with (infer_ext d) in Hfile.
    rewrite Hfile, Hparts. unfold assemble.
    by rewrite (read_in_index_order d' calls chunks Hp Hnd eq_refl).
Qed.

End assembly.

(** * Past a million chunks *)

Section overflow.

Implicit Types (st : state) (d : session) (calls : list (Z * bytes)).

Lemma concat_none (read : string → bytes) (L : list string) :
  (∀ x, x ∈ L → read x = []) → concat (read <$> L) = [].
Proof.
  induction L as [|y L IH]; intros Hempty; [done|].
  rewrite fmap_cons. simpl. rewrite (Hempty y) by apply list_elem_of_here.
  apply IH. intros z Hz. by apply Hempty, list_elem_of_further.
Qed.

Lemma concat_one (read : string → bytes) (L : list string) (b : string) :
  NoDup L → b ∈ L → (∀ x, x ∈ L → x ≠ b → read x = []) →
  concat (read <$> L) = read b.
Proof.
  induction 1 as [|x L Hx Hnd IH]; intros Hb Hempty.
  - by apply elem_of_nil in Hb.
  - rewrite fmap_cons. simpl. apply elem_of_cons in Hb as [<-|Hb].
    + rewrite concat_none, app_nil_r; [done|].
      intros z Hz. apply Hempty; [by apply list_elem_of_further|].
      by intros ->.
    + rewrite (Hempty x); [|apply list_elem_of_here|by intros ->]. simpl.
      apply IH; [done|].
      intros z Hz. by apply Hempty, list_elem_of_further.
Qed.

(** Along an ascending list of names, two non-empty files come out in the
    order of their names. *)
Lemma concat_two (read : string → bytes) (L : list string) (a b : string) :
  NoDup L → StronglySorted String.le L → a ∈ L → b ∈ L →
  String.compare a b = Lt →
  (∀ x, x ∈ L → x ≠ a → x ≠ b → read x = []) →
  concat (read <$> L) = read a ++ read b.
Proof.
  intros Hnd Hs Ha Hb Hlt Hempty.
  pose proof (lt_not_eq _ _ Hlt) as Hne.
  induction Hs as [|x L Hs IH Hall]; [by apply elem_of_nil in Ha|].
  apply NoDup_cons in Hnd as [Hx Hnd].
  rewrite fmap_cons. simpl.
  apply elem_of_cons in Ha as [->|Ha]; apply elem_of_cons in Hb as [->|Hb].
  - done.
  - f_equal. apply concat_one; [done..|].
    intros z Hz Hzb. apply Hempty; [by apply list_elem_of_further| |done].
    by intros ->.
  - exfalso. rewrite Forall_forall in Hall. specialize (Hall a Ha).
    apply Hne. apply (anti_symm String.le); [by apply lt_le|done].
  - rewrite (Hempty x); [|apply list_elem_of_here|by intros ->..]. simpl.
    apply IH; [done..|].
    intros z Hz. by apply Hempty, list_elem_of_further.
Qed.

Lemma length_overflow_chunks : Z.of_nat (length overflow_chunks) = 1000001.
Proof.
  unfold overflow_chunks. rewrite length_app, length_replicate.
  change (length [[Byte.x01]; [Byte.x02]]) with 2%nat. lia.
Qed.

Lemma overflow_chunks_lookup (i : Z) (c : bytes) :
  0 ≤ i → overflow_chunks !! Z.to_nat i = Some c →
  (i < 999999 ∧ c = []) ∨ (i = 999999 ∧ c = [Byte.x01])
  ∨ (i = 1000000 ∧ c = [Byte.x02]).
Proof.
  intros Hi. unfold overflow_chunks.
  destruct (decide (i < 999999)) as [Hlt|Hge].
  - rewrite lookup_app_l by (rewrite length_replicate; lia).
    intros [-> _]%lookup_replicate. by left.
  - rewrite lookup_app_r by (rewrite length_replicate; lia).
    rewrite length_replicate.
    destruct (decide (i = 999999)) as [->|Hne].
    + replace (Z.to_nat 999999 - Z.to_nat 999999)%nat with 0%nat by lia.
      intros [= <-]. right. by left.
    + destruct (decide (i = 1000000)) as [->|Hne'].
      * replace (Z.to_nat 1000000 - Z.to_nat 999999)%nat with 1%nat by lia.
        intros [= <-]. right. by right.
      * replace (Z.to_nat i - Z.to_nat 999999)%nat
          with (S (S (Z.to_nat i - Z.to_nat 1000001)))%nat by lia.
        done.
Qed.

Lemma overflow_chunks_999999 :
  overflow_chunks !! Z.to_nat 999999 = Some [Byte.x01].
Proof.
  unfold overflow_chunks.
  rewrite lookup_app_r by (rewrite length_replicate; lia).
  rewrite length_replicate.
  by replace (Z.to_nat 999999 - Z.to_nat 999999)%nat with 0%nat by lia.
Qed.

Lemma overflow_chunks_1000000 :
  overflow_chunks !! Z.to_nat 1000000 = Some [Byte.x02].
Proof.
  unfold overflow_chunks.
  rewrite lookup_app_r by (rewrite length_replicate; lia).
  rewrite length_replicate.
  by replace (Z.to_nat 1000000 - Z.to_nat 999999)%nat with 1%nat by lia.
Qed.

Lemma concat_overflow_chunks : concat overflow_chunks = [Byte.x01; Byte.x02].
Proof.
  unfold overflow_chunks. rewrite concat_app.
  assert (∀ n, concat (replicate n ([] : bytes)) = []) as ->; [|done].
  induction n; [done|]. simpl. done.
Qed.

Lemma chunk_name_million_first :
  String.compare (chunk_name 1000000) (chunk_name 999999) = Lt.
Proof. vm_compute. reflexivity. Qed.

(** The bytes [complete_upload] assembles from the overflow upload,
    whatever the order of the chunk requests. *)
Lemma assemble_overflow d calls :
  calls ≡ₚ in_order overflow_chunks →
  files d = list_to_map (written calls) →
  assemble d (parts_of d) = [Byte.x02; Byte.x01].
Proof.
  intros Hp Hf.
  assert (calls.*1 ≡ₚ seqZ 0 1000001) as Hidx.
  { rewrite Hp, in_order_fst, length_overflow_chunks. reflexivity. }
  assert (NoDup (written calls).*1) as Hnd.
  { apply (written_NoDup _ 1000001); [lia|exact Hidx]. }
  pose proof (parts_of_written d calls Hnd Hf) as Hparts.
  assert (∀ i c, (i, c) ∈ calls → read_file d (chunk_name i) = c) as Hread.
  { intros i c Hic. apply (read_file_written d calls); assumption. }
  assert (∀ i c, 0 ≤ i → overflow_chunks !! Z.to_nat i = Some c → (i, c) ∈ calls)
    as Hin.
  { intros i c Hi Hc. rewrite Hp. apply elem_of_in_order. split; assumption. }
  assert (∀ i, 0 ≤ i < 1000001 → chunk_name i ∈ parts_of d) as Hmem.
  { intros i Hi. rewrite Hparts, written_fst. apply list_elem_of_fmap.
    exists i. split; [reflexivity|]. rewrite Hidx. apply elem_of_seqZ. lia. }
  unfold assemble.
  rewrite (concat_two (read_file d) (parts_of d)
             (chunk_name 1000000) (chunk_name 999999)).
  - rewrite (Hread 1000000 [Byte.x02]), (Hread 999999 [Byte.x01]).
    + reflexivity.
    + apply Hin; [lia|apply overflow_chunks_999999].
    + apply Hin; [lia|apply overflow_chunks_1000000].
  - rewrite Hparts. exact Hnd.
  - apply sorted_StronglySorted.
  - apply Hmem. lia.
  - apply Hmem. lia.
  - apply chunk_name_million_first.
  - intros x Hx Hxa Hxb. rewrite Hparts, written_fst in Hx.
    apply list_elem_of_fmap in Hx as (i & -> & Hi).
    apply list_elem_of_fmap in Hi as ([i' c] & -> & Hic).
    change ((i', c).1) with i' in *.
    rewrite (Hread _ _ Hic).
    rewrite Hp in Hic. apply elem_of_in_order in Hic as [Hi Hc].
    apply overflow_chunks_lookup in Hc; [|assumption].
    destruct Hc as [[_ ->]|[[-> _]|[-> _]]]; [reflexivity|exfalso..].
    + apply Hxb. reflexivity.
    + apply Hxa. reflexivity.
Qed.

(** The overflow upload, its requests in any order, completes with the
    last two chunks swapped. *)
Lemma complete_upload_overflow calls :
  calls ≡ₚ in_order overflow_chunks →
  let r :=
    complete_upload "f" 0%Q true "u"
      (upload_chunks "u" calls (create_upload "u" None init_state).1) in
  http_status r.2 = 201
  ∧ uploads r.1 !! "f.bin" = Some (File [Byte.x02; Byte.x01]).
Proof.
  intros Hp r. subst r.
  set (st0 := (create_upload "u" None init_state).1).
  assert (uploads st0 !! "u" = Some (Dir (mk_session (Some (JObj ∅)) ∅))) as Hd
    by reflexivity.
  assert (calls.*1 ≡ₚ seqZ 0 1000001) as Hidx.
  { rewrite Hp, in_order_fst, length_overflow_chunks. reflexivity. }
  assert (NoDup (written calls).*1) as Hnd.
  { apply (written_NoDup _ 1000001); [lia|exact Hidx]. }
  assert (Forall (fun c => refused (chunk_name c.1) = None) calls) as Hnames.
  { apply (calls_storable _ 1000001); [lia|exact Hidx]. }
  rewrite (upload_chunks_fresh "u" calls st0 _ eq_refl eq_refl Hnames Hd eq_refl Hnd).
  cbn [meta].
  set (d' := mk_session (Some (JObj ∅)) (list_to_map (written calls))).
  pose proof (assemble_overflow d' calls Hp eq_refl) as Hbytes.
  destruct (complete_upload_created "f" 0%Q true "u"
              (set_uploads (<["u" := Dir d']> (uploads st0)) st0) d')
    as (st' & -> & Hfile & _).
  - reflexivity.
  - reflexivity.
  - apply lookup_insert_eq.
  - intros Hnil. rewrite Hnil in Hbytes. discriminate Hbytes.
  - reflexivity.
  - change (infer_ext d') with ".bin". unfold set_uploads. cbn [uploads].
    rewrite lookup_insert_ne by discriminate. reflexivity.
  - unfold set_uploads. cbn [songs]. reflexivity.
  - split; [reflexivity|]. rewrite Hbytes in Hfile.
    change (infer_ext d') with ".bin" in Hfile. exact Hfile.
Qed.

(** C1 (code defect). With 1000001 chunks, each index sent once, the
    final file is not the chunks in index order: index 1000000 formats to
    seven digits, its name sorts before that of index 999999, and the last
    two chunks come out swapped. *)
Theorem complete_upload_misorders_past_a_million :
  concat overflow_chunks = [Byte.x01; Byte.x02]
  ∧ http_status (complete_upload "f" 0%Q true "u" overflow_session).2 = 201
  ∧ uploads (complete_upload "f" 0%Q true "u" overflow_session).1 !! "f.bin"
    = Some (File [Byte.x02; Byte.x01]).
Proof.
  split; [apply concat_overflow_chunks|].
  apply (complete_upload_overflow (in_order overflow_chunks)).
  apply Permutation_refl.
Qed.

End overflow.

(** * Errors of completion *)

Section completion_errors.

Implicit Types (st : state) (d : session).

Lemma filter_none {A} (P : A → Prop) `{∀ x, Decision (P x)} (l : list A) :
  Forall (fun x => ¬ P x) l → filter P l = [].
Proof.
  induction 1 as [|x l Hx _ IH]; [done|].
  by rewrite filter_cons_False.
Qed.

Lemma parts_of_no_chunks d : no_chunks d → parts_of d = [].
Proof.
  intros Hno. unfold parts_of, iterdir. rewrite filter_app.
  assert (filter (fun p : string => PyStr.startswith "chunk-" p)
            match meta d with Some _ => ["meta.json"] | None => [] end = []) as ->.
  { by destruct (meta d). }
  assert (filter (fun p : string => PyStr.startswith "chunk-" p)
            (map_to_list (files d)).*1 = []) as ->; [|done].
  apply filter_none, Forall_forall. intros name Hin.
  apply list_elem_of_fmap in Hin as ([n b] & -> & Hnb).
  apply elem_of_map_to_list in Hnb. simpl.
  rewrite (Hno n) by (by exists b). intros Hfalse. exact Hfalse.
Qed.

Lemma complete_upload_not_found uuid now ok id st :
  exists_raises id = false →
  upload_dir st id = None →
  complete_upload uuid now ok id st =
    (st, Json (error_body "upload not found") 404).
Proof.
  intros Hlong Hnone. unfold complete_upload.
  by rewrite Hlong, andb_false_r, Hnone.
Qed.

(** A completion that answers 201 with [rmtree] succeeding leaves nothing
    under the session id. *)
Lemma complete_upload_consumes uuid now id st :
  http_status (complete_upload uuid now true id st).2 = 201 →
  upload_dir (complete_upload uuid now true id st).1 id = None.
Proof.
  unfold complete_upload.
  destruct (uploads_root st && exists_raises id); simpl; [done|].
  destruct (upload_dir st id) as [[data|d]|]; simpl; [done| |done].
  destruct (parts_of d); simpl; [done|].
  destruct (refused (uuid +:+ infer_ext d)); simpl; [done|].
  destruct (uploads st !! (uuid +:+ infer_ext d)) as [[data|d']|]; simpl;
    try done;
    (destruct (insert_song _ _); simpl; [|done];
     intros _; unfold upload_dir, remove_upload_dir;
     destruct (String.eqb id "."); simpl; [done|apply lookup_delete_eq]).
Qed.

(** An upload id that names a stored file is no session, and its
    completion is answered with 500, not with 404: [exists()] holds for
    the file, and [iterdir()] raises on it. *)
Lemma complete_upload_on_stored_file :
  uploads demo_library !! "f.wav"
  = Some (File (demo_chunk0 ++ demo_chunk1 ++ demo_chunk2))
  ∧ complete_upload "g" 1%Q true "f.wav" demo_library
    = (demo_library, Unhandled "NotADirectoryError")
  ∧ http_status (complete_upload "g" 1%Q true "f.wav" demo_library).2 ≠ 404.
Proof. vm_compute. repeat split. discriminate. Qed.

(** C7 (amended). For an upload id other than [".."] and within the
    length the file system takes: completion answers 404 ("upload not
    found") when nothing lies under the id in the upload root, in
    particular every completion that follows a successful one whose
    scratch directory was removed; completion of an existing session
    directory without chunk files answers 400 ("no chunks found"), and
    so does the id ["."], the upload root itself, when no chunk file lies
    there. In each of these cases the state is returned unchanged: no song
    is registered and no final file is written. *)
Theorem complete_upload_errors uuid now ok id st :
  id ≠ ".." → exists_raises id = false →
  (upload_dir st id = None →
   complete_upload uuid now ok id st =
     (st, Json (error_body "upload not found") 404))
  ∧ (∀ d, upload_dir st id = Some (Dir d) → no_chunks d →
     complete_upload uuid now ok id st =
       (st, Json (error_body "no chunks found") 400))
  ∧ (∀ uuid0 now0 st0,
       st = (complete_upload uuid0 now0 true id st0).1 →
       http_status (complete_upload uuid0 now0 true id st0).2 = 201 →
       complete_upload uuid now ok id st =
         (st, Json (error_body "upload not found") 404)).
Proof.
  intros _ Hlong. split; [|split].
  - by apply complete_upload_not_found.
  - intros d Hd Hno. unfold complete_upload.
    by rewrite Hlong, andb_false_r, Hd, (parts_of_no_chunks d Hno).
  - intros uuid0 now0 st0 -> Hok.
    apply complete_upload_not_found; [done|]. by apply complete_upload_consumes.
Qed.

(** The scenario of the specification: the file is the chunks in index
    order, not in the order they were sent. *)
Example demo_complete :
  let r := complete_upload "f" 0%Q true "u" demo_session in
  r.2 = Json {[ "file_id" := JStr "f"; "url" := JStr "/download/f" ]} 201
  ∧ uploads r.1 !! "f.wav"
    = Some (File (demo_chunk0 ++ demo_chunk1 ++ demo_chunk2))
  ∧ uploads r.1 !! "u" = None
  ∧ find_song "f" (songs r.1) = Some (mk_song "f" None None "f.wav" None ∅ 0%Q).
Proof. vm_compute. repeat split. Qed.

Lemma complete_upload_errors_witness :
  complete_upload "g" 1%Q true "u"
    (complete_upload "f" 0%Q true "u" demo_session).1
  = ((complete_upload "f" 0%Q true "u" demo_session).1,
     Json (error_body "upload not found") 404)
  ∧ complete_upload "f" 0%Q true "u" demo_created
    = (demo_created, Json (error_body "no chunks found") 400)
  ∧ complete_upload "f" 0%Q true "." init_state
    = (init_state, Json (error_body "no chunks found") 400).
Proof.
  split; [|split].
  - apply (proj2 (proj2 (complete_upload_errors "g" 1%Q true "u" _
                           ltac:(discriminate) eq_refl))
             "f" 0%Q demo_session eq_refl).
    vm_compute. reflexivity.
  - apply (proj1 (proj2 (complete_upload_errors "f" 0%Q true "u" demo_created
                           ltac:(discriminate) eq_refl))
             (mk_session (Some (JObj {[ "filename" := JStr "chunked.wav" ]})) ∅)).
    + reflexivity.
    + intros name [b Hb]. cbn [files] in Hb. by rewrite lookup_empty in Hb.
  - apply (proj1 (proj2 (complete_upload_errors "f" 0%Q true "." init_state
                           ltac:(discriminate) eq_refl))
             (root_session init_state)).
    + reflexivity.
    + intros name [b Hb]. vm_compute in Hb. discriminate Hb.
Defined.

End completion_errors.

(** * Facts about the jobs table *)

Section job_facts.

Implicit Types (st : state) (l : list job) (j r : job).

Lemma find_job_snoc id j l :
  find_job id (l ++ [j]) =
    match find_job id l with
    | Some x => Some x
    | None => if String.eqb (job_id j) id then Some j else None
    end.
Proof.
  unfold find_job. induction l as [|x l IH]; simpl; [done|].
  by destruct (String.eqb (job_id x) id).
Qed.

Lemma find_job_None id l : find_job id l = None → ∀ j, j ∈ l → job_id j ≠ id.
Proof.
  unfold find_job. intros Hnone j Hj Heq.
  apply list_elem_of_In in Hj.
  apply (List.find_none _ _ Hnone) in Hj.
  apply String.eqb_neq in Hj. done.
Qed.

Lemma find_job_elem_of id l j : j ∈ l → job_id j = id → is_Some (find_job id l).
Proof.
  intros Hj Hid. destruct (find_job id l) eqn:Hf; [by eexists|].
  by destruct (find_job_None _ _ Hf j Hj).
Qed.

(** An update keyed by [id] acts on the row that a lookup of [id] finds,
    and on no row of another id. *)
Lemma find_job_update id (f : job → job) l :
  (∀ j, job_id (f j) = job_id j) →
  find_job id (update_job id f l) = f <$> find_job id l.
Proof.
  intros Hf. unfold find_job, update_job.
  induction l as [|x l IH]; simpl; [done|].
  destruct (String.eqb (job_id x) id) eqn:Hx.
  - by rewrite Hf, Hx.
  - by rewrite Hx.
Qed.

Lemma find_job_update_ne id id' (f : job → job) l :
  id ≠ id' → (∀ j, job_id (f j) = job_id j) →
  find_job id' (update_job id f l) = find_job id' l.
Proof.
  intros Hne Hf. unfold find_job, update_job.
  induction l as [|x l IH]; simpl; [done|].
  destruct (String.eqb (job_id x) id) eqn:Hx.
  - rewrite Hf. apply String.eqb_eq in Hx.
    assert (String.eqb (job_id x) id' = false) as ->; [|done].
    apply String.eqb_neq. congruence.
  - by destruct (String.eqb (job_id x) id').
Qed.

Lemma update_job_compose id (f g : job → job) l :
  (∀ j, job_id (g j) = job_id j) →
  update_job id f (update_job id g l) = update_job id (f ∘ g) l.
Proof.
  intros Hg. unfold update_job. rewrite <-list_fmap_compose.
  apply list_fmap_ext. intros _ j _. simpl.
  destruct (String.eqb (job_id j) id) eqn:Hj.
  - by rewrite Hg, Hj.
  - by rewrite Hj.
Qed.

(** A queued row of the table after an update that leaves no updated row
    queued is an untouched row of the table before. *)
Lemma queued_after_update id (f : job → job) l j :
  (∀ x, status (f x) ≠ "queued") →
  j ∈ update_job id f l → status j = "queued" →
  j ∈ l ∧ job_id j ≠ id.
Proof.
  intros Hf Hj Hq. unfold update_job in Hj.
  apply list_elem_of_fmap in Hj as (x & -> & Hx).
  destruct (String.eqb (job_id x) id) eqn:Hid.
  - by destruct (Hf x).
  - split; [done|]. by apply String.eqb_neq.
Qed.

Lemma oldest_spec (best : job) l :
  oldest best l ∈ best :: l
  ∧ ∀ j, j ∈ best :: l → (created_at (oldest best l) <= created_at j)%Q.
Proof.
  revert best. induction l as [|x l IH]; intros best.
  - simpl. split; [apply list_elem_of_here|].
    intros j ->%list_elem_of_singleton. apply Qle_refl.
  - simpl. destruct (Qle_bool (created_at best) (created_at x)) eqn:Hle.
    + apply Qle_bool_iff in Hle. destruct (IH best) as [Hin Hmin]. split.
      * apply elem_of_cons in Hin as [->|Hin];
          [apply list_elem_of_here|by do 2 apply list_elem_of_further].
      * intros j Hj. apply elem_of_cons in Hj as [->|Hj].
        { apply Hmin, list_elem_of_here. }
        apply elem_of_cons in Hj as [->|Hj].
        { eapply Qle_trans; [apply Hmin, list_elem_of_here|done]. }
        by apply Hmin, list_elem_of_further.
    + assert (created_at x <= created_at best)%Q as Hxb.
      { apply Qlt_le_weak, Qnot_le_lt. intros Hle'.
        apply Qle_bool_iff in Hle'. congruence. }
      destruct (IH x) as [Hin Hmin]. split.
      * by apply list_elem_of_further.
      * intros j Hj. apply elem_of_cons in Hj as [->|Hj].
        { eapply Qle_trans; [apply Hmin, list_elem_of_here|done]. }
        by apply Hmin.
Qed.

(** The poller's read returns a queued row, and no queued row is older. *)
Lemma select_queued_spec l r :
  select_queued l = Some r →
  r ∈ l ∧ status r = "queued"
  ∧ ∀ j, j ∈ l → status j = "queued" → (created_at r <= created_at j)%Q.
Proof.
  unfold select_queued.
  destruct (filter (fun j => status j = "queued") l) as [|x rest] eqn:Hf; [done|].
  intros [= <-]. destruct (oldest_spec x rest) as [Hin Hmin].
  rewrite <-Hf in Hin, Hmin.
  apply list_elem_of_filter in Hin as [Hq Hin]. split; [done|]. split; [done|].
  intros j Hj Hjq. apply Hmin. by apply list_elem_of_filter.
Qed.

Lemma select_queued_None l j :
  select_queued l = None → j ∈ l → status j ≠ "queued".
Proof.
  unfold select_queued.
  destruct (filter (fun j => status j = "queued") l) as [|x rest] eqn:Hf; [|done].
  intros _ Hj Hq.
  assert (j ∈ filter (fun j => status j = "queued") l) as Hin
    by by apply list_elem_of_filter.
  rewrite Hf in Hin. by apply elem_of_nil in Hin.
Qed.

End job_facts.

(** * Dispatch *)

Section dispatch_facts.

Implicit Types (st : state) (env : dispatch_env).

(** Without a configured queue the dispatch answers 202 with the job id
    and the file id, and only starts a thread. *)
Lemma start_process_default env uuid now model file_id st :
  queue_configured env = false →
  find_job uuid (jobs st) = None →
  (start_process env uuid now model file_id st).2
    = Json {[ "status" := JStr "accepted";
              "job_id" := JStr uuid;
              "file_id" := JStr file_id ]} 202
  ∧ threads (start_process env uuid now model file_id st).1
    = threads st ++ [(uuid, file_id, model)].
Proof.
  intros Hq Hfresh. unfold start_process, insert_job. simpl.
  by rewrite Hfresh, Hq.
Qed.

(** C2 (code defect). With a queue configured the view function reaches
    its end without a [return]: whether the enqueue succeeds or raises,
    the job is created and handed over, but the response is [None] and the
    client gets 500, not 202 with the job id. *)
Theorem start_process_queue_no_response env uuid now model file_id st :
  queue_configured env = true →
  find_job uuid (jobs st) = None →
  (start_process env uuid now model file_id st).2 = NoResponse
  ∧ http_status (start_process env uuid now model file_id st).2 = 500
  ∧ is_Some (find_job uuid (jobs (start_process env uuid now model file_id st).1)).
Proof.
  intros Hq Hfresh. unfold start_process, insert_job. simpl.
  rewrite Hfresh, Hq.
  destruct (enqueue_raises env); simpl;
    (split; [done|split; [done|]]);
    rewrite find_job_snoc, Hfresh; simpl; rewrite String.eqb_refl; by eexists.
Qed.

Lemma start_process_queue_no_response_witness :
  (start_process env_redis "j1" 0%Q "demucs" "song-42" init_state).2 = NoResponse
  ∧ http_status (start_process env_redis "j1" 0%Q "demucs" "song-42" init_state).2
    = 500
  ∧ is_Some (find_job "j1"
       (jobs (start_process env_redis "j1" 0%Q "demucs" "song-42" init_state).1)).
Proof.
  apply (start_process_queue_no_response env_redis "j1" 0%Q "demucs" "song-42"
           init_state); reflexivity.
Defined.

(** The row a dispatch inserts. *)
Lemma start_process_row env uuid now model file_id st :
  find_job uuid (jobs st) = None →
  jobs (start_process env uuid now model file_id st).1
    = jobs st ++ [mk_job uuid file_id model "processing" 0 "queued" now].
Proof.
  intros Hfresh. unfold start_process, insert_job. simpl. rewrite Hfresh.
  by destruct (queue_configured env), (enqueue_raises env).
Qed.

(** C3, as stated, fails: right after a dispatch the job reads as
    ['processing'], not ['queued']. *)
Lemma start_process_not_queued :
  ∃ j, find_job "j1"
         (jobs (start_process env_default "j1" 0%Q "demucs" "song-42" init_state).1)
       = Some j
     ∧ status j = "processing" ∧ status j ≠ "queued".
Proof. eexists. split; [reflexivity|]. split; [reflexivity|discriminate]. Qed.

(** C3, amended. Every job a dispatch creates is inserted with status
    ['processing'], progress 0 and message ['queued']; reading the job
    right after the insertion returns that row, and the poller's read,
    which selects status ['queued'], does not return it. *)
Theorem start_process_inserts_processing env uuid now model file_id st :
  find_job uuid (jobs st) = None →
  find_job uuid (jobs (start_process env uuid now model file_id st).1)
    = Some (mk_job uuid file_id model "processing" 0 "queued" now)
  ∧ ∀ r, select_queued (jobs (start_process env uuid now model file_id st).1)
         = Some r → job_id r ≠ uuid.
Proof.
  intros Hfresh. rewrite (start_process_row _ _ _ _ _ _ Hfresh). split.
  - rewrite find_job_snoc, Hfresh. simpl. by rewrite String.eqb_refl.
  - intros r (Hin & Hq & _)%select_queued_spec Hid.
    apply elem_of_app in Hin as [Hin|Hin].
    + by destruct (find_job_None _ _ Hfresh r Hin).
    + apply list_elem_of_singleton in Hin as ->. done.
Qed.

Lemma start_process_inserts_processing_witness :
  find_job "j1"
    (jobs (start_process env_default "j1" 0%Q "demucs" "song-42" init_state).1)
    = Some (mk_job "j1" "song-42" "demucs" "processing" 0 "queued" 0)
  ∧ ∀ r, select_queued
           (jobs (start_process env_default "j1" 0%Q "demucs" "song-42"
                    init_state).1)
         = Some r → job_id r ≠ "j1".
Proof.
  apply (start_process_inserts_processing env_default "j1" 0%Q "demucs"
           "song-42" init_state).
  reflexivity.
Defined.

End dispatch_facts.

(** * The poller: claims *)

Section claim_facts.

Implicit Types (st : state) (l : list job) (j r : job).

Lemma mark_processing_not_queued x :
  status (set_status_message "processing" "taken by poller" x) ≠ "queued".
Proof. done. Qed.

(** The ids one poller receives in a row are pairwise distinct, and each
    was the id of a queued row at the start. *)
Lemma claims_spec n st :
  NoDup (claims n st).2 ∧ ∀ x, x ∈ (claims n st).2 → queued_id x (jobs st).
Proof.
  revert st. induction n as [|n IH]; intros st.
  - simpl. split; [constructor|]. intros x Hx. by apply elem_of_nil in Hx.
  - simpl. unfold claim.
    destruct (select_queued (jobs st)) as [r|] eqn:Hsel; [|apply IH].
    set (st1 := set_jobs (mark_processing (job_id r) (jobs st)) st).
    destruct (IH st1) as [Hnd Hq].
    destruct (claims n st1) as [st2 ids]. simpl in *.
    apply select_queued_spec in Hsel as (Hin & Hrq & _).
    assert (∀ x, queued_id x (jobs st1) → queued_id x (jobs st) ∧ x ≠ job_id r)
      as Hback.
    { intros x (j & Hj & <- & Hjq).
      apply (queued_after_update _ _ _ _ mark_processing_not_queued) in Hj
        as [Hj Hne]; [|done].
      split; [by exists j|done]. }
    split.
    + constructor; [|done]. intros Hr. by destruct (Hback _ (Hq _ Hr)).
    + intros x [->|Hx]%elem_of_cons; [by exists r|].
      by destruct (Hback _ (Hq _ Hx)).
Qed.

(** C4, as stated, fails: two pollers that both read before either
    writes receive the same job. *)
Lemma two_pollers_claim_same_job :
  received
    (run_pollers [0; 1; 0; 1]%nat
       (start_pollers 2 [mk_job "j1" "song-42" "demucs" "queued" 0 "queued" 0]))
  = [["j1"]; ["j1"]].
Proof. reflexivity. Qed.

(** C4, amended. The claim step is a read followed by a separate write:
    the read returns the oldest queued job, the write marks the rows of
    that id ['processing']. Claims made one after the other, as by the
    single poller thread the module starts, never return the same job id
    twice. *)
Theorem claim_by_one_poller n st :
  (∀ st' r, claim st = (st', Some r) →
     r ∈ jobs st ∧ status r = "queued"
     ∧ (∀ j, j ∈ jobs st → status j = "queued" →
          (created_at r <= created_at j)%Q)
     ∧ jobs st' = mark_processing (job_id r) (jobs st))
  ∧ NoDup (claims n st).2.
Proof.
  split; [|apply claims_spec].
  intros st' r. unfold claim.
  destruct (select_queued (jobs st)) as [r'|] eqn:Hsel; [|done].
  intros [= <- <-]. apply select_queued_spec in Hsel as (? & ? & ?). done.
Qed.

Lemma claim_by_one_poller_witness :
  (mk_job "b" "song-2" "demucs" "queued" 0 "queued" 1 ∈ jobs demo_queue
   ∧ "queued" = "queued"
   ∧ (∀ j, j ∈ jobs demo_queue → status j = "queued" → (1 <= created_at j)%Q)
   ∧ jobs (claim demo_queue).1 = mark_processing "b" (jobs demo_queue))
  ∧ NoDup (claims 2 demo_queue).2.
Proof.
  destruct (claim_by_one_poller 2 demo_queue) as [Hclaim Hdistinct].
  split; [|exact Hdistinct].
  exact (Hclaim _ _ eq_refl).
Defined.

End claim_facts.

(** * The poller: failures *)

Section failure_facts.

Implicit Types (st : state) (l : list job) (j r : job) (env : work_env).

Lemma tame_id : tame id.
Proof. intros x. split; [done|by left]. Qed.

Lemma tame_compose F G : tame F → tame G → tame (F ∘ G).
Proof.
  intros HF HG x. destruct (HF (G x)) as [Hid Hs], (HG x) as [Hid' Hs'].
  simpl. split; [congruence|].
  destruct Hs as [->|Hs]; [done|]. by right.
Qed.

Lemma tame_progress p m : tame (set_progress_message p m).
Proof. intros x. split; [done|by left]. Qed.

Lemma tame_failed e : tame (set_status_message "failed" e).
Proof. intros x. split; [done|]. right. by left. Qed.

Lemma tame_completed : tame (set_status_progress_message "completed" 1 "done").
Proof. intros x. split; [done|]. right. by right. Qed.

Lemma tame_pending env F : tame F → tame (pending env F).
Proof.
  intros HF. unfold pending. destruct (pending_kept env); [done|apply tame_id].
Qed.

Lemma update_job_id jid l : update_job jid id l = l.
Proof.
  unfold update_job. rewrite <-(list_fmap_id l) at 2.
  apply list_fmap_ext. intros _ x _. by destruct (String.eqb (job_id x) jid).
Qed.

Lemma set_jobs_jobs st : set_jobs (jobs st) st = st.
Proof. by destruct st. Qed.

(** The stage loop only rewrites rows of the job's id, and so does the
    UPDATE a raising stage leaves open. *)
Lemma run_stages_jobs env jid steps st :
  ∃ F, tame F
       ∧ jobs (run_stages env jid steps st).1 = update_job jid F (jobs st)
       ∧ ∀ e open, (run_stages env jid steps st).2 = Some (e, open) → tame open.
Proof.
  revert st. induction steps as [|i steps IH]; intros st.
  - exists id. split; [apply tame_id|]. simpl. by rewrite update_job_id.
  - simpl. destruct (faulty env i) as [e'|].
    + exists id. split; [apply tame_id|]. simpl. rewrite update_job_id.
      split; [done|]. intros e open [= _ <-].
      apply tame_pending, tame_progress.
    + destruct (IH (stage_update jid i st)) as (F & HF & -> & Hopen).
      eexists. split; [apply (tame_compose F), (tame_progress (Z.of_nat i # 5)
                         ("stage " +:+ PyStr.str_nat (Z.of_nat i))); exact HF|].
      split; [|exact Hopen].
      unfold stage_update, stage_row. simpl.
      rewrite update_job_compose; [done|]. intros x. apply tame_progress.
Qed.

(** The artifact step leaves the tables, the uploads and the threads
    alone. *)
Lemma make_artifact_frame env fid st :
  ∃ st2, (make_artifact env fid st = inl st2
          ∨ ∃ e, make_artifact env fid st = inr (st2, e))
         ∧ jobs st2 = jobs st ∧ songs st2 = songs st
         ∧ uploads st2 = uploads st ∧ uploads_root st2 = uploads_root st
         ∧ threads st2 = threads st ∧ rq st2 = rq st.
Proof.
  unfold make_artifact.
  destruct (has_nul fid); [exists st; by eauto 10|].
  destruct (too_long fid); [eexists; split; [right; by eexists|done]|].
  destruct (String.eqb fid "."); eexists; (split; [by left|done]).
Qed.

(** The artifact step goes through for a file id the file system
    takes. *)
Lemma make_artifact_storable env fid st :
  refused fid = None → ∃ st2, make_artifact env fid st = inl st2.
Proof.
  unfold refused, make_artifact.
  destruct (has_nul fid); [done|]. destruct (too_long fid); [done|].
  intros _. destruct (String.eqb fid "."); by eexists.
Qed.

(** The body of a run only rewrites rows of its job's id. *)
Lemma run_body_jobs env jid fid st :
  ∃ F, tame F
       ∧ jobs (run_body env jid fid st).1 = update_job jid F (jobs st)
       ∧ ∀ e open, (run_body env jid fid st).2 = Some (e, open) → tame open.
Proof.
  unfold run_body.
  destruct (run_stages_jobs env jid [1; 2; 3; 4; 5]%nat st)
    as (F & HF & Hjobs & Hopen).
  destruct (run_stages env jid [1; 2; 3; 4; 5]%nat st) as [st1 [[e0 open0]|]];
    simpl in Hjobs.
  { exists F. split; [done|]. split; [done|]. exact Hopen. }
  destruct (faulty env 6) as [e6|].
  { exists F. split; [done|]. split; [done|].
    intros e open [= _ <-]. apply tame_id. }
  destruct (make_artifact_frame env fid st1)
    as (st2 & [->|[e ->]] & Hj2 & _).
  - destruct (faulty env 7) as [e7|].
    + exists F. split; [done|]. split; [simpl; congruence|].
      intros e open [= _ <-]. apply tame_pending, tame_completed.
    + exists (set_status_progress_message "completed" 1 "done" ∘ F).
      split; [by apply tame_compose; [apply tame_completed|]|].
      split; [|done]. unfold mark_completed. simpl. rewrite Hj2, Hjobs.
      apply update_job_compose. intros x. apply HF.
  - exists F. split; [done|]. split; [simpl; congruence|].
    intros e' open [= _ <-]. apply tame_id.
Qed.

(** The stage loop leaves the status of the job as it is. *)
Lemma run_stages_status env jid steps st j :
  find_job jid (jobs st) = Some j →
  ∃ j', find_job jid (jobs (run_stages env jid steps st).1) = Some j'
        ∧ status j' = status j.
Proof.
  revert st j. induction steps as [|i steps IH]; intros st j Hj.
  - by exists j.
  - simpl. destruct (faulty env i); [by exists j|].
    destruct (IH (stage_update jid i st) (stage_row i j)) as (j' & Hj' & Hs').
    + unfold stage_update. simpl. by rewrite find_job_update, Hj.
    + by exists j'.
Qed.

(** A body that raises has committed no change of the job's status. *)
Lemma run_body_raised_status env jid fid st j e open :
  find_job jid (jobs st) = Some j →
  (run_body env jid fid st).2 = Some (e, open) →
  ∃ j', find_job jid (jobs (run_body env jid fid st).1) = Some j'
        ∧ status j' = status j.
Proof.
  intros Hj. unfold run_body.
  destruct (run_stages_status env jid [1; 2; 3; 4; 5]%nat st j Hj)
    as (j' & Hj' & Hs').
  destruct (run_stages env jid [1; 2; 3; 4; 5]%nat st) as [st1 [[e0 open0]|]];
    simpl in Hj'.
  { intros _. by exists j'. }
  destruct (faulty env 6); [intros _; by exists j'|].
  destruct (make_artifact_frame env fid st1)
    as (st2 & [->|[e' ->]] & Hj2 & _).
  - destruct (faulty env 7); [|done].
    intros _. exists j'. simpl. by rewrite Hj2.
  - intros _. exists j'. simpl. by rewrite Hj2.
Qed.

(** A run only rewrites rows of its job's id, and leaves none queued that
    was not. *)
Lemma background_process_jobs env jid fid m st :
  ∃ F, tame F
       ∧ jobs (background_process env (jid, fid, m) st).1
         = update_job jid F (jobs st).
Proof.
  unfold background_process.
  destruct (connect_error env).
  { exists id. split; [apply tame_id|]. simpl. by rewrite update_job_id. }
  destruct (run_body_jobs env jid fid st) as (F & HF & Hjobs & Hopen).
  destruct (run_body env jid fid st) as [st1 [[e open]|]]; simpl in Hjobs.
  - unfold handle_failure. destruct (handler_error env).
    + by exists F.
    + pose proof (Hopen e open eq_refl) as Ho.
      exists (set_status_message "failed" e ∘ (open ∘ F)).
      split; [apply tame_compose; [apply tame_failed|by apply tame_compose]|].
      unfold mark_failed. simpl. rewrite Hjobs.
      rewrite (update_job_compose jid open F) by (intros x; apply HF).
      apply update_job_compose. intros x. simpl.
      destruct (Ho (F x)) as [-> _]. apply HF.
  - by exists F.
Qed.

(** A run lets no exception out once it holds its connection, when the
    write of the [except] clause goes through. *)
Lemma background_process_returns env t st :
  connect_error env = None → handler_error env = None →
  (background_process env t st).2 = Returned.
Proof.
  intros Hc Hh. destruct t as [[jid fid] m]. unfold background_process.
  rewrite Hc.
  destruct (run_body env jid fid st) as [st1 [[e open]|]]; [|done].
  unfold handle_failure. by rewrite Hh.
Qed.

(** An exception leaves a run before anything is committed: [get_db()]
    raised, or the [except] clause did and the connection was closed on an
    open transaction; the stage updates committed before stay. *)
Lemma background_process_raised env jid fid m st e :
  (background_process env (jid, fid, m) st).2 = Raised e →
  (connect_error env = Some e
   ∧ (background_process env (jid, fid, m) st).1 = st)
  ∨ (connect_error env = None ∧ handler_error env = Some e
     ∧ is_Some (run_body env jid fid st).2
     ∧ (background_process env (jid, fid, m) st).1 = (run_body env jid fid st).1).
Proof.
  unfold background_process.
  destruct (connect_error env) as [e0|]; [intros [= ->]; by left|].
  destruct (run_body env jid fid st) as [st1 [[e1 open]|]]; [|done].
  unfold handle_failure. destruct (handler_error env) as [e2|]; [|done].
  intros [= ->]. right. by eauto.
Qed.

(** A run whose body raises [e], and whose [except] clause writes, leaves
    the job ['failed'] with message [e]. *)
Lemma background_process_failed env jid fid m st e open j :
  connect_error env = None → handler_error env = None →
  (run_body env jid fid st).2 = Some (e, open) →
  find_job jid (jobs st) = Some j →
  ∃ j', find_job jid (jobs (background_process env (jid, fid, m) st).1) = Some j'
        ∧ status j' = "failed" ∧ message j' = e.
Proof.
  intros Hc Hh Hbody Hj. unfold background_process. rewrite Hc.
  destruct (run_body_jobs env jid fid st) as (F & HF & Hjobs & Hopen).
  destruct (run_body env jid fid st) as [st1 [[e1 open1]|]]; simpl in *; [|done].
  injection Hbody as -> ->.
  pose proof (Hopen e open eq_refl) as Ho.
  unfold handle_failure, mark_failed. rewrite Hh. simpl.
  rewrite Hjobs, !find_job_update, Hj
    by (done || (intros x; apply HF) || (intros x; apply Ho)).
  simpl. by eexists.
Qed.

(** The step that raises, in terms of the body. *)
Lemma run_body_fault env jid fid st k e :
  fault env = Some (k, e) →
  (1 ≤ k ≤ 6)%nat ∨ (k = 7%nat ∧ refused fid = None) →
  ∃ open, (run_body env jid fid st).2 = Some (e, open).
Proof.
  intros Hf Hk.
  assert (∀ i, faulty env i = if (k =? i)%nat then Some e else None) as Hfaulty.
  { intros i. unfold faulty. by rewrite Hf. }
  unfold run_body. simpl. rewrite !Hfaulty.
  destruct Hk as [Hk|[-> Hname]].
  - destruct k as [|[|[|[|[|[|[|k]]]]]]]; simpl; try lia; by eexists.
  - simpl.
    destruct (make_artifact_storable env fid
                (stage_update jid 5 (stage_update jid 4 (stage_update jid 3
                   (stage_update jid 2 (stage_update jid 1 st))))) Hname)
      as [st2 ->].
    by eexists.
Qed.

(** A healthy run, for a file id the file system takes, leaves the job
    ['completed'] with progress 1 and message ['done']. *)
Lemma background_process_completed env jid fid m st j :
  connect_error env = None → fault env = None → refused fid = None →
  find_job jid (jobs st) = Some j →
  (background_process env (jid, fid, m) st).2 = Returned
  ∧ ∃ j', find_job jid (jobs (background_process env (jid, fid, m) st).1) = Some j'
        ∧ status j' = "completed" ∧ progress j' = 1%Q ∧ message j' = "done".
Proof.
  intros Hc Hf Hname Hj. unfold background_process. rewrite Hc.
  assert (∀ i, faulty env i = None) as Hfaulty.
  { intros i. unfold faulty. by rewrite Hf. }
  unfold run_body.
  destruct (run_stages_jobs env jid [1; 2; 3; 4; 5]%nat st)
    as (F & HF & Hjobs & _).
  destruct (run_stages env jid [1; 2; 3; 4; 5]%nat st) as [st1 [[e' open']|]] eqn:Hrun;
    simpl in Hjobs.
  - revert Hrun. simpl. by rewrite !Hfaulty.
  - rewrite !Hfaulty.
    destruct (make_artifact_frame env fid st1) as (st2 & Hres & Hj2 & _).
    destruct (make_artifact_storable env fid st1 Hname) as [st2' Hinl].
    destruct Hres as [Hres|[e Hres]]; [|congruence].
    rewrite Hres. split; [done|]. unfold mark_completed. simpl.
    rewrite Hj2, Hjobs, !find_job_update, Hj by (done || intros x; apply HF).
    simpl. by eexists.
Qed.

Lemma run_stages_frame env jid steps st :
  ∃ js, (run_stages env jid steps st).1 = set_jobs js st.
Proof.
  revert st. induction steps as [|i steps IH]; intros st; simpl.
  - exists (jobs st). by rewrite set_jobs_jobs.
  - destruct (faulty env i).
    + exists (jobs st). by rewrite set_jobs_jobs.
    + destruct (IH (stage_update jid i st)) as [js ->]. by exists js.
Qed.

Lemma run_stages_healthy env jid steps st :
  fault env = None → (run_stages env jid steps st).2 = None.
Proof.
  intros Hf. revert st. induction steps as [|i steps IH]; intros st; [done|].
  simpl. unfold faulty. rewrite Hf. apply IH.
Qed.

(** The body of a run writes the jobs table and the outputs of its file
    id, nothing else. *)
Lemma run_body_frame env jid fid st :
  uploads (run_body env jid fid st).1 = uploads st
  ∧ uploads_root (run_body env jid fid st).1 = uploads_root st
  ∧ songs (run_body env jid fid st).1 = songs st
  ∧ threads (run_body env jid fid st).1 = threads st
  ∧ rq (run_body env jid fid st).1 = rq st
  ∧ ∀ f, f ≠ fid → outputs (run_body env jid fid st).1 !! f = outputs st !! f.
Proof.
  unfold run_body.
  destruct (run_stages_frame env jid [1; 2; 3; 4; 5]%nat st) as [js Hjs].
  destruct (run_stages env jid [1; 2; 3; 4; 5]%nat st) as [st1 [[e open]|]];
    simpl in Hjs; subst st1; [done|].
  destruct (faulty env 6); [done|].
  unfold make_artifact.
  destruct (has_nul fid); [done|]. destruct (too_long fid); [done|].
  destruct (String.eqb fid "."); destruct (faulty env 7); simpl;
    (repeat split; try done); intros f Hf; by rewrite lookup_insert_ne.
Qed.

Lemma background_process_frame env jid fid m st :
  uploads (background_process env (jid, fid, m) st).1 = uploads st
  ∧ songs (background_process env (jid, fid, m) st).1 = songs st
  ∧ threads (background_process env (jid, fid, m) st).1 = threads st
  ∧ rq (background_process env (jid, fid, m) st).1 = rq st
  ∧ ∀ f, f ≠ fid →
      outputs (background_process env (jid, fid, m) st).1 !! f = outputs st !! f.
Proof.
  unfold background_process. destruct (connect_error env); [done|].
  destruct (run_body_frame env jid fid st) as (Hu & _ & Hs & Ht & Hr & Ho).
  destruct (run_body env jid fid st) as [st1 [[e open]|]]; simpl in *; [|done].
  unfold handle_failure. by destruct (handler_error env).
Qed.

End failure_facts.

(** * The poller: one pass after the other *)

Section poller_facts.

Implicit Types (st : state) (l : list job) (j r : job) (env : poll_env).

Lemma poller_iteration_run env st r :
  poll_db_error env = false → select_queued (jobs st) = Some r →
  poller_iteration env st
  = (background_process (work env) (job_id r, file_id r, model r)
       (set_jobs (mark_processing (job_id r) (jobs st)) st)).1.
Proof.
  intros Hdb Hsel. unfold poller_iteration, claim. by rewrite Hdb, Hsel.
Qed.

(** A pass that runs job [r] rewrites the rows of [r]'s id only, and
    leaves none of them queued. *)
Lemma poller_iteration_jobs env st r :
  poll_db_error env = false → select_queued (jobs st) = Some r →
  ∃ G, (∀ x, job_id (G x) = job_id x) ∧ (∀ x, status (G x) ≠ "queued")
       ∧ jobs (poller_iteration env st) = update_job (job_id r) G (jobs st).
Proof.
  intros Hdb Hsel. rewrite (poller_iteration_run _ _ _ Hdb Hsel).
  destruct (background_process_jobs (work env) (job_id r) (file_id r) (model r)
              (set_jobs (mark_processing (job_id r) (jobs st)) st))
    as (F & HF & ->).
  exists (F ∘ set_status_message "processing" "taken by poller").
  split; [|split].
  - intros x. simpl. by destruct (HF (set_status_message "processing"
                                        "taken by poller" x)) as [-> _].
  - intros x. simpl.
    destruct (HF (set_status_message "processing" "taken by poller" x))
      as [_ [->|[->| ->]]]; done.
  - simpl. unfold mark_processing. by rewrite update_job_compose.
Qed.

Lemma find_job_marked st r :
  r ∈ jobs st →
  is_Some (find_job (job_id r)
             (jobs (set_jobs (mark_processing (job_id r) (jobs st)) st))).
Proof.
  intros Hin. simpl. unfold mark_processing.
  rewrite find_job_update by done.
  destruct (find_job_elem_of (job_id r) (jobs st) r Hin eq_refl) as [j ->].
  by eexists.
Qed.

(** The status of the claimed job after a run that an exception left:
    what the poller wrote. *)
Lemma raised_run_keeps_processing (wenv : work_env) st r e :
  r ∈ jobs st →
  (background_process wenv (job_id r, file_id r, model r)
     (set_jobs (mark_processing (job_id r) (jobs st)) st)).2 = Raised e →
  ∃ j', find_job (job_id r)
          (jobs (background_process wenv (job_id r, file_id r, model r)
                   (set_jobs (mark_processing (job_id r) (jobs st)) st)).1)
        = Some j'
        ∧ status j' = "processing".
Proof.
  intros Hin Hraised.
  destruct (find_job_marked st r Hin) as [j Hj].
  assert (status j = "processing") as Hs.
  { simpl in Hj. unfold mark_processing in Hj.
    rewrite find_job_update in Hj by done.
    destruct (find_job (job_id r) (jobs st)); simplify_eq/=. done. }
  apply background_process_raised in Hraised
    as [[_ ->]|(_ & _ & [[e1 open] Hbody] & ->)].
  - by exists j.
  - destruct (run_body_raised_status wenv (job_id r) (file_id r) _ j e1 open
                Hj Hbody) as (j' & Hj' & Hs').
    exists j'. split; [done|congruence].
Qed.

(** When [get_db()] raises at the start of the run of a claimed job, the
    job is not marked ['failed']: the exception leaves the run before the
    [try], the poller passes over it, and the job keeps the status and the
    message the poller gave it. *)
Lemma poller_loses_job_without_db :
  (background_process (work env_no_db) ("b", "song-2", "demucs")
     (claim demo_queue).1).2 = Raised "unable to open database file"
  ∧ find_job "b" (jobs (poller_iteration env_no_db demo_queue))
    = Some (mk_job "b" "song-2" "demucs" "processing" 0 "taken by poller" 1)
  ∧ find_job "b" (jobs (job_poller [env_no_db; env_healthy] demo_queue))
    = Some (mk_job "b" "song-2" "demucs" "processing" 0 "taken by poller" 1).
Proof. vm_compute. repeat split. Qed.

(** C8 (amended). A pass claims job [r] and runs it. When the body of the
    run raises [e] and the [except] clause writes, the job ends
    ['failed'] with [e] as its message and the run returns normally. When
    an exception leaves the run ([get_db()] raised before the [try], or
    the write of the [except] clause raised), the job stays
    ['processing']. In every case the pass ends with a state, and the
    next pass takes the next queued job, which was queued before and is
    another job, runs it to ['completed'] (its file id being a name the
    file system takes), and leaves the first job as it was. *)
Theorem poller_contains_failure env env2 st r :
  poll_db_error env = false → select_queued (jobs st) = Some r →
  poll_db_error env2 = false → connect_error (work env2) = None →
  fault (work env2) = None →
  (∀ e open,
     connect_error (work env) = None → handler_error (work env) = None →
     (run_body (work env) (job_id r) (file_id r) (claim st).1).2 = Some (e, open) →
     (∃ j', find_job (job_id r) (jobs (poller_iteration env st)) = Some j'
            ∧ status j' = "failed" ∧ message j' = e)
     ∧ (background_process (work env) (job_id r, file_id r, model r)
          (claim st).1).2 = Returned)
  ∧ (∀ e,
       (background_process (work env) (job_id r, file_id r, model r)
          (claim st).1).2 = Raised e →
       ∃ j', find_job (job_id r) (jobs (poller_iteration env st)) = Some j'
             ∧ status j' = "processing")
  ∧ ∀ r2, select_queued (jobs (poller_iteration env st)) = Some r2 →
      refused (file_id r2) = None →
      r2 ∈ jobs st ∧ job_id r2 ≠ job_id r
      ∧ (∃ j2, find_job (job_id r2) (jobs (job_poller [env; env2] st)) = Some j2
               ∧ status j2 = "completed" ∧ progress j2 = 1%Q
               ∧ message j2 = "done")
      ∧ find_job (job_id r) (jobs (job_poller [env; env2] st))
        = find_job (job_id r) (jobs (poller_iteration env st)).
Proof.
  intros Hdb Hsel Hdb2 Hc2 Hf2.
  pose proof (select_queued_spec _ _ Hsel) as (Hin & _ & _).
  assert ((claim st).1 = set_jobs (mark_processing (job_id r) (jobs st)) st)
    as Hclaim by (unfold claim; by rewrite Hsel).
  rewrite Hclaim. split; [|split].
  - intros e open Hc Hh Hbody.
    split; [|by apply background_process_returns].
    rewrite (poller_iteration_run _ _ _ Hdb Hsel).
    destruct (find_job_marked st r Hin) as [j Hj].
    by apply (background_process_failed _ _ _ _ _ e open j).
  - intros e Hraised. rewrite (poller_iteration_run _ _ _ Hdb Hsel).
    by apply (raised_run_keeps_processing _ _ _ e).
  - intros r2 Hsel2 Hname2.
    pose proof (select_queued_spec _ _ Hsel2) as (Hin2 & Hq2 & _).
    destruct (poller_iteration_jobs env st r Hdb Hsel) as (G & HGid & HGq & HG).
    rewrite HG in Hin2.
    apply (queued_after_update _ _ _ _ HGq) in Hin2 as [Hin2 Hne]; [|done].
    split; [done|]. split; [done|].
    change (job_poller [env; env2] st)
      with (poller_iteration env2 (poller_iteration env st)).
    set (st1 := poller_iteration env st) in *. split.
    + rewrite (poller_iteration_run _ _ _ Hdb2 Hsel2).
      apply select_queued_spec in Hsel2 as (Hin2' & _ & _).
      destruct (find_job_marked st1 r2 Hin2') as [j Hj].
      by apply (background_process_completed _ _ _ _ _ j).
    + destruct (poller_iteration_jobs env2 st1 r2 Hdb2 Hsel2)
        as (G2 & HG2id & _ & ->).
      by rewrite find_job_update_ne.
Qed.

(** The scenario of the specification: ["b"] fails with ["boom"], the
    loop goes on and completes ["a"]. *)
Lemma poller_contains_failure_witness :
  ((∃ j', find_job "b" (jobs (poller_iteration env_boom demo_queue)) = Some j'
          ∧ status j' = "failed" ∧ message j' = "boom")
   ∧ (background_process (work env_boom) ("b", "song-2", "demucs")
        (claim demo_queue).1).2 = Returned)
  ∧ ∀ r2, select_queued (jobs (poller_iteration env_boom demo_queue)) = Some r2 →
      refused (file_id r2) = None →
      r2 ∈ jobs demo_queue ∧ job_id r2 ≠ "b"
      ∧ (∃ j2, find_job (job_id r2)
                 (jobs (job_poller [env_boom; env_healthy] demo_queue)) = Some j2
               ∧ status j2 = "completed" ∧ progress j2 = 1%Q
               ∧ message j2 = "done")
      ∧ find_job "b" (jobs (job_poller [env_boom; env_healthy] demo_queue))
        = find_job "b" (jobs (poller_iteration env_boom demo_queue)).
Proof.
  destruct (poller_contains_failure env_boom env_healthy demo_queue
              (mk_job "b" "song-2" "demucs" "queued" 0 "queued" 1)
              eq_refl eq_refl eq_refl eq_refl eq_refl)
    as (Hfails & _ & Hnext).
  split; [|exact Hnext].
  exact (Hfails "boom" (pending (work env_boom) (stage_row 3))
           eq_refl eq_refl eq_refl).
Defined.

(** The integration test of the repository: upload, dispatch without
    queue, the thread runs, the job reads ['completed'] and the artifact
    [instrumental.wav] is there. *)
Example demo_pipeline :
  let st1 := (upload 2 "s1" 0%Q (Some ("sample.wav", [Byte.x52; Byte.x49]))
                None init_state).1 in
  let r := start_process env_default "j1" 1%Q "demucs" "s1" st1 in
  let st3 := run_thread (work env_healthy) r.1 in
  http_status r.2 = 202
  ∧ find_job "j1" (jobs st3)
    = Some (mk_job "j1" "s1" "demucs" "completed" 1 "done" 1)
  ∧ outputs st3 !! "s1" = Some {[ "instrumental.wav" := [Byte.x52; Byte.x49] ]}.
Proof. vm_compute. repeat split. Qed.

Example demo_poller :
  jobs (job_poller [env_boom; env_healthy] demo_queue)
  = [mk_job "a" "song-1" "demucs" "completed" 1 "done" 2;
     mk_job "b" "song-2" "demucs" "failed" (2 # 5) "boom" 1].
Proof. reflexivity. Qed.

(** The same pass against a locked database: the commit of the third
    stage raises, and so does the write of the [except] clause; the job
    stays ['processing'] with what the second stage committed. *)
Example demo_locked :
  jobs (poller_iteration env_locked demo_queue)
  = [mk_job "a" "song-1" "demucs" "queued" 0 "queued" 2;
     mk_job "b" "song-2" "demucs" "processing" (2 # 5) "stage 2" 1].
Proof. reflexivity. Qed.

End poller_facts.

(** * Songs: delete *)

Section delete_facts.

Implicit Types (st : state) (l : list song) (s r : song).

Lemma find_song_None id l : find_song id l = None → ∀ s, s ∈ l → song_id s ≠ id.
Proof.
  unfold find_song. intros Hnone s Hs Heq.
  apply list_elem_of_In in Hs.
  apply (List.find_none _ _ Hnone) in Hs.
  apply String.eqb_neq in Hs. done.
Qed.

Lemma find_song_Some id l r : find_song id l = Some r → r ∈ l ∧ song_id r = id.
Proof.
  unfold find_song. intros [Hin Heq]%List.find_some.
  split; [by apply list_elem_of_In|by apply String.eqb_eq].
Qed.

Lemma filter_other_songs_id id l :
  find_song id l = None → filter (fun s => song_id s ≠ id) l = l.
Proof.
  intros Hnone. pose proof (find_song_None _ _ Hnone) as Hall. clear Hnone.
  induction l as [|s l IH]; [done|].
  rewrite filter_cons_True by (apply Hall, list_elem_of_here).
  f_equal. apply IH. intros x Hx. by apply Hall, list_elem_of_further.
Qed.

Lemma find_song_filter_other id l :
  find_song id (filter (fun s => song_id s ≠ id) l) = None.
Proof.
  destruct (find_song id (filter (fun s => song_id s ≠ id) l)) as [r|] eqn:Hr;
    [|done].
  apply find_song_Some in Hr as [Hin Hid].
  by apply list_elem_of_filter in Hin as [Hne _].
Qed.

Lemma find_song_filter_ne id id' l :
  id ≠ id' →
  find_song id' (filter (fun s => song_id s ≠ id) l) = find_song id' l.
Proof.
  intros Hne. unfold find_song. induction l as [|s l IH]; [done|].
  destruct (decide (song_id s = id)) as [Heq|Hneq].
  - rewrite filter_cons_False by (by intros ?). simpl.
    assert (String.eqb (song_id s) id' = false) as ->; [|done].
    apply String.eqb_neq. congruence.
  - rewrite filter_cons_True by done. simpl. by rewrite IH.
Qed.

Lemma set_uploads_uploads st : set_uploads (uploads st) st = st.
Proof. by destruct st. Qed.

(** C10. DELETE answers 204 also when no song has the id, and then
    changes nothing. When the song exists and its backing path is not a
    directory, the answer is 204, the record is gone and so is the file
    under the upload root; a backing file that is already missing is
    passed over. Other records and other files stay. *)
Theorem song_detail_delete id st :
  (find_song id (songs st) = None → song_detail DELETE id None st = (st, Empty 204))
  ∧ (∀ r, find_song id (songs st) = Some r →
       (∀ d, uploads st !! filename r ≠ Some (Dir d)) →
       (song_detail DELETE id None st).2 = Empty 204
       ∧ find_song id (songs (song_detail DELETE id None st).1) = None
       ∧ (filename r ≠ "" → uploads (song_detail DELETE id None st).1 !! filename r = None)
       ∧ (∀ id', id' ≠ id →
            find_song id' (songs (song_detail DELETE id None st).1) = find_song id' (songs st))
       ∧ (∀ name, name ≠ filename r →
            uploads (song_detail DELETE id None st).1 !! name = uploads st !! name)).
Proof.
  unfold song_detail. split.
  - intros Hnone. unfold song_delete. cbv zeta. rewrite Hnone.
    rewrite set_uploads_uploads, (filter_other_songs_id _ _ Hnone).
    by destruct st.
  - intros r Hr Hfile. unfold song_delete. cbv zeta. rewrite Hr.
    destruct (String.eqb_spec (filename r) "") as [Hempty|Hname].
    { rewrite set_uploads_uploads. simpl. split; [done|].
      split; [apply find_song_filter_other|]. split; [done|].
      split; [|done]. intros id' Hne. by apply find_song_filter_ne. }
    destruct (uploads st !! filename r) as [[data|d]|] eqn:Hentry.
    + simpl. split; [done|]. split; [apply find_song_filter_other|].
      split; [intros _; apply lookup_delete_eq|].
      split; [intros id' Hne; by apply find_song_filter_ne|].
      intros name Hne. by apply lookup_delete_ne.
    + by destruct (Hfile d).
    + rewrite set_uploads_uploads. simpl. split; [done|].
      split; [apply find_song_filter_other|]. split; [done|].
      split; [|done]. intros id' Hne. by apply find_song_filter_ne.
Qed.

Lemma song_detail_delete_witness :
  song_detail DELETE "nope" None demo_library = (demo_library, Empty 204)
  ∧ (song_detail DELETE "f" None demo_library).2 = Empty 204
  ∧ find_song "f" (songs (song_detail DELETE "f" None demo_library).1) = None
  ∧ ("f.wav" ≠ "" → uploads (song_detail DELETE "f" None demo_library).1 !! "f.wav" = None)
  ∧ (∀ id', id' ≠ "f" →
       find_song id' (songs (song_detail DELETE "f" None demo_library).1)
       = find_song id' (songs demo_library))
  ∧ (∀ name, name ≠ "f.wav" →
       uploads (song_detail DELETE "f" None demo_library).1 !! name
       = uploads demo_library !! name).
Proof.
  split.
  - apply (proj1 (song_detail_delete "nope" demo_library)). reflexivity.
  - apply (proj2 (song_detail_delete "f" demo_library)
             (mk_song "f" None None "f.wav" None ∅ 0%Q)).
    + reflexivity.
    + intros d. vm_compute. discriminate.
Defined.

End delete_facts.

(** * Songs: partial update *)

Section patch_facts.

Implicit Types (st : state) (l : list song) (s r : song)
  (b md : gmap string json).

(** The parameter PATCH binds for a column is the merged metadata's value
    for that key. *)
Lemma patch_param key b md :
  match b !! key with Some v => v | None => dict_get key (b ∪ md) end
  = dict_get key (b ∪ md).
Proof.
  destruct (b !! key) as [v|] eqn:Hb; [|done].
  unfold dict_get. by rewrite (lookup_union_Some_l _ _ _ _ Hb).
Qed.


Lemma find_song_update id t a md l :
  find_song id (update_song id t a md l)
  = (fun s => mk_song (song_id s) t a (filename s) (duration s) md
                (song_created_at s)) <$> find_song id l.
Proof.
  unfold find_song, update_song. induction l as [|x l IH]; simpl; [done|].
  destruct (String.eqb (song_id x) id) eqn:Hx; simpl; by rewrite Hx.
Qed.

Lemma find_song_update_ne id id' t a md l :
  id ≠ id' → find_song id' (update_song id t a md l) = find_song id' l.
Proof.
  intros Hne. unfold find_song, update_song.
  induction l as [|x l IH]; simpl; [done|].
  destruct (String.eqb (song_id x) id) eqn:Hx; simpl.
  - apply String.eqb_eq in Hx.
    assert (String.eqb (song_id x) id' = false) as ->; [|done].
    apply String.eqb_neq. congruence.
  - by destruct (String.eqb (song_id x) id').
Qed.


(** ** The columns stay in sync with the metadata *)

Lemma songs_background_process env t st :
  songs (background_process env t st).1 = songs st.
Proof. destruct t as [[id fid] m]. apply background_process_frame. Qed.






Lemma songs_run_thread env st : songs (run_thread env st) = songs st.
Proof.
  unfold run_thread. destruct (threads st) as [|t rest]; [done|].
  by rewrite songs_background_process.
Qed.

Lemma songs_run_worker env st : songs (run_worker env st) = songs st.
Proof.
  unfold run_worker. destruct (rq st) as [|t rest]; [done|].
  by rewrite songs_background_process.
Qed.

Lemma songs_poller_iteration env st : songs (poller_iteration env st) = songs st.
Proof.
  unfold poller_iteration. destruct (poll_db_error env); [done|].
  unfold claim. destruct (select_queued (jobs st)) as [r|]; [|done].
  by rewrite songs_background_process.
Qed.

Lemma songs_start_process env uuid now m f st :
  songs (start_process env uuid now m f st).1 = songs st.
Proof.
  unfold start_process. destruct (insert_job _ _); [|done].
  by destruct (queue_configured env), (enqueue_raises env).
Qed.

Lemma songs_create_upload uuid body st :
  songs (create_upload uuid body st).1 = songs st.
Proof. unfold create_upload. by repeat case_match. Qed.

Lemma songs_upload_chunk id hdr data st :
  songs (upload_chunk id hdr data st).1 = songs st.
Proof. unfold upload_chunk. by repeat case_match. Qed.



End patch_facts.

Section patch_theorem.

Implicit Types (st : state) (s r : song) (b md : gmap string json).

Lemma json_or_empty_obj b : json_or_empty (Some (JObj b)) = JObj b.
Proof.
  unfold json_or_empty, truthy.
  destruct (map_to_list b) eqn:Hb; [|done].
  by apply map_to_list_empty_iff in Hb as ->.
Qed.





End patch_theorem.

(** * The predictive timer *)

Section tracker_facts.

Import Stdlib.Reals.Reals Stdlib.micromega.Lra.
Import Tracker.
Local Open Scope R_scope.

Implicit Types (t : timer) (tr : tracker) (e : event).

Lemma Rpower_pos (x y : R) : 0 < Rpower x y.
Proof. unfold Rpower. apply exp_pos. Qed.

Lemma below_cap (p : R) : 0 < p → 0 < 95 / (1 + p) < 95.
Proof.
  intros Hp. split.
  - apply Rdiv_lt_0_compat; lra.
  - apply (Rmult_lt_reg_r (1 + p)); [lra|].
    unfold Rdiv. rewrite Rmult_assoc, Rinv_l by lra. lra.
Qed.

(** The curve stays strictly between 0 and the cap. *)
Lemma predicted_range (elapsed estimated_time : R) :
  0 < predicted elapsed estimated_time < 95.
Proof. unfold predicted. apply below_cap, Rpower_pos. Qed.

Lemma clamp_id (p : R) : 0 <= p <= 100 → Rmin 100 (Rmax 0 p) = p.
Proof.
  intros Hp. rewrite Rmax_right by lra. by rewrite Rmin_right by lra.
Qed.

(** Before the estimate has elapsed the exponential term is at least
    [2.718 ^ -6], which keeps the curve a quarter of a point under the
    cap. *)
Lemma predicted_margin (T t : R) :
  0 < T → 0 <= t < T → predicted t T < 95 * 404 / 405.
Proof.
  intros HT [Ht0 HtT]. unfold predicted.
  assert (t / T * 12 - 6 < 6) as Hexp.
  { assert (t / T < 1); [|lra].
    apply (Rmult_lt_reg_r T); [done|].
    unfold Rdiv. rewrite Rmult_assoc, Rinv_l by lra. lra. }
  assert (Rpower 2.718 (Ropp 6) < Rpower 2.718 (- (t / T * 12 - 6))) as Hlow.
  { apply Rpower_lt; lra. }
  assert (/ 404 < Rpower 2.718 (Ropp 6)) as Hsix.
  { rewrite Rpower_Ropp. replace 6 with (INR 6) by (simpl; lra).
    rewrite Rpower_pow by lra.
    apply Rinv_lt_contravar; [|simpl; lra].
    apply Rmult_lt_0_compat; [simpl; lra|lra]. }
  set (p := Rpower 2.718 (- (t / T * 12 - 6))) in *.
  assert (/ 404 < p) as Hp by lra.
  apply (Rmult_lt_reg_r (1 + p)); [lra|].
  unfold Rdiv at 1. rewrite Rmult_assoc, Rinv_l by lra. lra.
Qed.

Lemma timer_step_emits t now e :
  e ∈ (update_progress_step now t).2 →
  ∃ start last_progress,
    t_pc t = Looping start last_progress
    ∧ now - start < t_estimate t
    ∧ e = emit_progress (t_stage t) (predicted (now - start) (t_estimate t))
            (Predicted (t_stage t) (now - start) (t_estimate t - (now - start)))
            (Some (t_estimate t - (now - start))).
Proof.
  unfold update_progress_step. destruct (t_pc t) as [|start last_progress|] eqn:Hpc.
  - simpl. intros He. by apply elem_of_nil in He.
  - destruct (Rle_dec (t_estimate t) (now - start)) as [Hge|Hlt].
    { simpl. intros He. by apply elem_of_nil in He. }
    destruct (Rle_dec 1 (predicted (now - start) (t_estimate t) - last_progress)).
    + simpl. intros ->%list_elem_of_singleton.
      exists start, last_progress. split; [done|]. split; [lra|done].
    + simpl. intros He. by apply elem_of_nil in He.
  - simpl. intros He. by apply elem_of_nil in He.
Qed.

(** C5. For an estimate [T > 0] and an elapsed time [0 <= t < T] the
    value of the curve is strictly under the cap 95 (by more than a fifth
    of a point), and so is the progress of every event a prediction thread
    emits; the event of an explicit completion carries exactly 100,
    whatever the clock reads. *)
Theorem predictive_cap (T t : R) :
  0 < T → 0 <= t < T →
  0 < predicted t T < 95
  ∧ predicted t T < 95 * 404 / 405
  ∧ (∀ s start last_progress now e,
       now - start = t →
       e ∈ (update_progress_step now (mk_timer s T (Looping start last_progress))).2 →
       ev_progress e < 95)
  ∧ (∀ s now tr,
       ∃ e, emitted (complete_stage s now tr) = emitted tr ++ [e]
            ∧ ev_progress e = 100).
Proof.
  intros HT Ht. split; [apply predicted_range|].
  split; [by apply predicted_margin|]. split.
  - intros s start last_progress now e Hel He.
    apply timer_step_emits in He as (start' & last' & Hpc & _ & ->).
    simpl in *. injection Hpc as <- <-.
    pose proof (predicted_range (now - start) T).
    rewrite clamp_id by lra. lra.
  - intros s now tr. eexists. split; [reflexivity|].
    simpl. apply clamp_id. lra.
Qed.

Lemma predictive_cap_witness :
  0 < predicted 5 10 < 95
  ∧ predicted 5 10 < 95 * 404 / 405
  ∧ (∀ s start last_progress now e,
       now - start = 5 →
       e ∈ (update_progress_step now (mk_timer s 10 (Looping start last_progress))).2 →
       ev_progress e < 95)
  ∧ (∀ s now tr,
       ∃ e, emitted (complete_stage s now tr) = emitted tr ++ [e]
            ∧ ev_progress e = 100).
Proof. apply (predictive_cap 10 5); lra. Defined.

Lemma predicted_midpoint (T : R) : 0 < T → predicted (T / 2) T = 95 / 2.
Proof.
  intros HT. unfold predicted.
  replace (- (T / 2 / T * 12 - 6)) with 0 by (field; lra).
  rewrite Rpower_O by lra. lra.
Qed.

(** C6, as stated, fails: the completion event of the stage is followed
    by a predictive update of the same stage. *)
Lemma stale_prediction_after_complete :
  ∃ e_init e_done e_pred,
    emitted (run_schedule stale_schedule (new_tracker None))
    = [e_init; e_done; e_pred]
    ∧ ev_message e_done = Complete Separation (1 - 0) ∧ ev_progress e_done = 100
    ∧ is_predicted e_pred ∧ ev_stage e_pred = "separation"
    ∧ ev_progress e_pred = 95 / 2.
Proof.
  unfold stale_schedule, run_schedule, new_tracker. simpl.
  unfold start_stage, step_timer. simpl.
  unfold step_timer, update_progress_step. simpl.
  destruct (Rle_dec 180 (90 - 0)) as [Hge|_]; [lra|].
  replace (90 - 0) with (180 / 2) by lra.
  rewrite predicted_midpoint by lra.
  destruct (Rle_dec 1 (95 / 2 - 0)) as [_|Hlt]; [|lra].
  simpl. do 3 eexists. split; [reflexivity|]. simpl.
  split; [done|]. split; [apply clamp_id; lra|].
  split; [done|]. split; [done|]. apply clamp_id. lra.
Qed.

Lemma step_timer_exited i now tr :
  all_exited tr → step_timer i now tr = tr.
Proof.
  intros Hall. unfold step_timer.
  destruct (timers tr !! i) as [t|] eqn:Ht; [|done].
  unfold all_exited in Hall. rewrite Forall_lookup in Hall.
  pose proof (Hall i t Ht) as Hpc.
  unfold update_progress_step. rewrite Hpc. rewrite list_insert_id by done.
  rewrite app_nil_r. by destruct tr.
Qed.

(** Once every thread is past its loop, only explicit calls emit. *)
Lemma exited_emits_nothing schedule tr :
  all_exited tr → starts_nothing schedule →
  all_exited (run_schedule schedule tr)
  ∧ ∃ evs, emitted (run_schedule schedule tr) = emitted tr ++ evs
           ∧ Forall (fun e => ¬ is_predicted e) evs.
Proof.
  revert tr. induction schedule as [|a schedule IH]; intros tr Hall Hns.
  - split; [done|]. exists []. by rewrite app_nil_r.
  - apply Forall_cons in Hns as [Ha Hns].
    change (run_schedule (a :: schedule) tr) with (run_schedule schedule (act a tr)).
    destruct a as [s now|s now|s m|i now]; [done|..]; simpl act.
    + destruct (IH (complete_stage s now tr) Hall Hns) as (Hex & evs & -> & Hevs).
      split; [done|]. simpl. eexists. rewrite <-app_assoc. split; [done|].
      constructor; [|done]. by intros [].
    + destruct (IH (fail_stage s m tr) Hall Hns) as (Hex & evs & -> & Hevs).
      split; [done|]. simpl. eexists. rewrite <-app_assoc. split; [done|].
      constructor; [|done]. by intros [].
    + rewrite step_timer_exited by done. by apply IH.
Qed.

(** C6, amended. A prediction thread emits only while the elapsed time it
    reads is below the estimate; the pass that reads an elapsed time at or
    above the estimate emits nothing and leaves the loop, and a thread
    past its loop never emits again. The explicit complete and error
    calls emit their event and leave the threads as they are: they do not
    stop a thread, which goes on emitting until its estimate has
    elapsed. *)
Theorem timer_stops_at_estimate :
  (∀ t now e, e ∈ (update_progress_step now t).2 →
     is_predicted e
     ∧ ∃ start last_progress,
         t_pc t = Looping start last_progress ∧ now - start < t_estimate t)
  ∧ (∀ t now start last_progress,
       t_pc t = Looping start last_progress → t_estimate t <= now - start →
       update_progress_step now t = (mk_timer (t_stage t) (t_estimate t) Exited, []))
  ∧ (∀ schedule tr, all_exited tr → starts_nothing schedule →
       all_exited (run_schedule schedule tr)
       ∧ ∃ evs, emitted (run_schedule schedule tr) = emitted tr ++ evs
                ∧ Forall (fun e => ¬ is_predicted e) evs)
  ∧ (∀ s now tr, timers (complete_stage s now tr) = timers tr)
  ∧ (∀ s m tr, timers (fail_stage s m tr) = timers tr).
Proof.
  split; [|split; [|split; [|split]]].
  - intros t now e He.
    apply timer_step_emits in He as (start & last_progress & Hpc & Hlt & ->).
    split; [done|]. by exists start, last_progress.
  - intros t now start last_progress Hpc Hge. unfold update_progress_step. rewrite Hpc.
    by destruct (Rle_dec (t_estimate t) (now - start)).
  - apply exited_emits_nothing.
  - done.
  - done.
Qed.

Lemma timer_stops_at_estimate_witness :
  update_progress_step 200 (mk_timer Separation 180 (Looping 0 0))
  = (mk_timer Separation 180 Exited, []).
Proof.
  apply (proj1 (proj2 timer_stops_at_estimate)
           (mk_timer Separation 180 (Looping 0 0)) 200 0 0).
  - reflexivity.
  - simpl. lra.
Defined.

End tracker_facts.

(** * Reading an index back *)

Section index_round_trip.

Import PyStr.

Lemma digits_value_app (acc : Z) (s t : string) :
  digits_value acc (s +:+ t) = digits_value (digits_value acc s) t.
Proof.
  revert acc. induction s as [|c s IH]; intros acc; [done|].
  rewrite str_app_cons. simpl. apply IH.
Qed.

Lemma digits_value_digit (acc d : Z) :
  0 ≤ d < 10 → digits_value acc (digit d) = 10 * acc + d.
Proof.
  intros Hd.
  assert (d = 0 ∨ d = 1 ∨ d = 2 ∨ d = 3 ∨ d = 4 ∨ d = 5 ∨ d = 6 ∨ d = 7
          ∨ d = 8 ∨ d = 9) as Hd' by lia.
  clear Hd.
  assert (∃ c, digit d = String c "" ∧ digit_value c = d) as (c & -> & <-).
  { repeat (destruct Hd' as [->|Hd']); try subst d;
      eexists; (split; reflexivity). }
  reflexivity.
Qed.

Lemma digits_value_zeros (k : nat) (s : string) :
  digits_value 0 (zeros k +:+ s) = digits_value 0 s.
Proof.
  induction k as [|k IH]; [done|].
  simpl zeros. rewrite str_app_cons. simpl. exact IH.
Qed.

Lemma digits_value_dec_digits (f : nat) (n : Z) :
  0 ≤ n → n < 10 ^ Z.of_nat (S f) → digits_value 0 (dec_digits (S f) n) = n.
Proof.
  revert n. induction f as [|f IH]; intros n Hn Hf.
  - change (10 ^ Z.of_nat 1) with 10 in Hf. rewrite dec_digits_step.
    destruct (Z.ltb_spec n 10); [|lia].
    rewrite digits_value_digit by lia. lia.
  - rewrite dec_digits_step. destruct (Z.ltb_spec n 10) as [Hlt|Hge].
    + rewrite digits_value_digit by lia. lia.
    + rewrite digits_value_app, IH.
      * pose proof (Z.mod_pos_bound n 10 ltac:(lia)).
        rewrite digits_value_digit by lia.
        pose proof (Z.div_mod n 10 ltac:(lia)). lia.
      * apply Z.div_pos; lia.
      * apply Z.div_lt_upper_bound; [lia|].
        rewrite (Nat2Z.inj_succ (S f)), Z.pow_succ_r in Hf by lia. lia.
Qed.

Lemma digits_value_str_nat (n : Z) : 0 ≤ n → digits_value 0 (str_nat n) = n.
Proof.
  intros Hn. unfold str_nat.
  apply digits_value_dec_digits; [done|by apply str_nat_fuel].
Qed.

Lemma digit_head (d : Z) :
  0 ≤ d < 10 → ∃ c, digit d = String c "" ∧ c ≠ "-"%char.
Proof.
  intros Hd.
  assert (d = 0 ∨ d = 1 ∨ d = 2 ∨ d = 3 ∨ d = 4 ∨ d = 5 ∨ d = 6 ∨ d = 7
          ∨ d = 8 ∨ d = 9) as Hd' by lia.
  clear Hd. repeat (destruct Hd' as [->|Hd']); try subst d;
    eexists; (split; [reflexivity|discriminate]).
Qed.

(** The digits of a number never start with a minus sign. *)
Lemma dec_digits_head (f : nat) (n : Z) :
  0 ≤ n → ∃ c r, dec_digits (S f) n = String c r ∧ c ≠ "-"%char.
Proof.
  revert n. induction f as [|f IH]; intros n Hn; rewrite dec_digits_step;
    destruct (Z.ltb_spec n 10) as [Hlt|Hge].
  - destruct (digit_head n) as (c & -> & Hc); [lia|]. by exists c, "".
  - pose proof (Z.mod_pos_bound n 10 ltac:(lia)).
    destruct (digit_head (n mod 10)) as (c & -> & Hc); [lia|]. by exists c, "".
  - destruct (digit_head n) as (c & -> & Hc); [lia|]. by exists c, "".
  - destruct (IH (n / 10)) as (c & r & -> & Hc); [apply Z.div_pos; lia|].
    rewrite str_app_cons. by eexists _, _.
Qed.

Lemma zfill_head (w : nat) (s : string) :
  (∃ c r, s = String c r ∧ c ≠ "-"%char) →
  ∃ c r, zfill w s = String c r ∧ c ≠ "-"%char.
Proof.
  intros (c & r & -> & Hc). unfold zfill.
  destruct (w - String.length (String c r))%nat as [|k].
  - by exists c, r.
  - simpl zeros. rewrite str_app_cons. eexists _, _. split; [done|discriminate].
Qed.

Lemma read_index_digits (c : ascii) (r : string) :
  c ≠ "-"%char → read_index (String c r) = digits_value 0 (String c r).
Proof.
  intros Hc. unfold read_index.
  destruct c as [[] [] [] [] [] [] [] []]; try reflexivity. done.
Qed.

Lemma length_zeros (k : nat) : String.length (zeros k) = k.
Proof. induction k as [|k IH]; [done|]. simpl. by rewrite IH. Qed.

Lemma length_zfill (w : nat) (s : string) :
  String.length (zfill w s) = (w `max` String.length s)%nat.
Proof. unfold zfill. rewrite str_length_app, length_zeros. lia. Qed.

Lemma str_app_inj_r (s s' t : string) : s +:+ t = s' +:+ t → s = s'.
Proof.
  intros Heq.
  assert (String.length s = String.length s') as Hlen.
  { apply (f_equal String.length) in Heq. rewrite !str_length_app in Heq. lia. }
  revert s' Heq Hlen. induction s as [|c s IH]; intros [|c' s'] Heq Hlen;
    simpl in Hlen; try lia; [done|].
  rewrite !str_app_cons in Heq. injection Heq as -> Heq.
  f_equal. apply IH; [done|lia].
Qed.

Lemma read_index_format (idx : Z) : read_index (format_06d idx) = idx.
Proof.
  unfold format_06d. destruct (Z.ltb_spec idx 0) as [Hneg|Hpos].
  - change ("-" +:+ zfill 5 (str_nat (- idx)))
      with (String "-" (zfill 5 (str_nat (- idx)))).
    unfold read_index. unfold zfill.
    rewrite digits_value_zeros, digits_value_str_nat by lia. lia.
  - destruct (zfill_head 6 (str_nat idx)) as (c & r & Hz & Hc).
    { unfold str_nat. by apply dec_digits_head. }
    rewrite Hz, read_index_digits by done. rewrite <-Hz. unfold zfill.
    by rewrite digits_value_zeros, digits_value_str_nat.
Qed.

(** Distinct indices have distinct chunk names, whatever their size or
    sign. *)
Lemma chunk_name_inj_all (i j : Z) : chunk_name i = chunk_name j → i = j.
Proof.
  intros Heq. unfold chunk_name in Heq.
  apply (inj (String.app "chunk-")) in Heq. apply str_app_inj_r in Heq.
  rewrite <-(read_index_format i), <-(read_index_format j). by rewrite Heq.
Qed.

(** X1. What [f"{idx:06d}"] writes reads back as [idx], for every
    integer, and is at least six characters wide; so two chunk requests
    with different indices, negative ones included, never write the same
    file. *)
Theorem format_06d_round_trip :
  (∀ idx, read_index (format_06d idx) = idx)
  ∧ (∀ idx, (6 ≤ String.length (format_06d idx))%nat)
  ∧ (∀ i j, chunk_name i = chunk_name j → i = j).
Proof.
  split; [apply read_index_format|]. split; [|apply chunk_name_inj_all].
  intros idx. unfold format_06d. destruct (idx <? 0).
  - change ("-" +:+ zfill 5 (str_nat (- idx)))
      with (String "-" (zfill 5 (str_nat (- idx)))).
    simpl. rewrite length_zfill. lia.
  - rewrite length_zfill. lia.
Qed.

End index_round_trip.

(** * Stored file names *)

Section stored_names.

Import PyStr.

Implicit Types (st : state) (l : list song).

Lemma rfind_drop (c : ascii) (s : string) (k : nat) :
  rfind c s = Some k → ∃ r, drop k s = String c r ∧ rfind c r = None.
Proof.
  revert k. induction s as [|a s IH]; intros k; simpl; [done|].
  destruct (rfind c s) as [k'|] eqn:Hr.
  - intros [= <-]. simpl. by apply IH.
  - destruct (Ascii.eqb_spec a c) as [->|]; [|done].
    intros [= <-]. by exists s.
Qed.

Lemma rfind_drop_past (c : ascii) (s : string) (j : nat) :
  (∀ k, rfind c s = Some k → (k < j)%nat) → rfind c (drop j s) = None.
Proof.
  revert s. induction j as [|j IH]; intros s Hlt.
  - simpl. destruct (rfind c s) as [k|] eqn:Hr; [|done].
    specialize (Hlt k eq_refl). lia.
  - destruct s as [|a s]; [done|]. simpl drop. apply IH.
    intros k Hk. simpl in Hlt. rewrite Hk in Hlt.
    specialize (Hlt (S k) eq_refl). lia.
Qed.

Lemma drop_suffix (s : string) (k : nat) : ∃ base, s = base +:+ drop k s.
Proof.
  revert s. induction k as [|k IH]; intros s; [by exists ""|].
  destruct s as [|a s]; [by exists ""|].
  destruct (IH s) as [base Hb]. exists (String a base).
  rewrite str_app_cons. simpl drop. by rewrite <-Hb.
Qed.

(** What [os.path.splitext] splits off is the end of its argument, and is
    empty or an extension. *)
Lemma splitext_ext_shape (p : string) :
  (∃ base, p = base +:+ splitext_ext p)
  ∧ (splitext_ext p = "" ∨ plain_ext (splitext_ext p)).
Proof.
  unfold splitext_ext.
  destruct (rfind "." p) as [dot|] eqn:Hdot.
  2:{ split; [|by left]. exists p. clear. induction p as [|a p IH]; [done|].
      rewrite str_app_cons. by rewrite <-IH. }
  destruct ((_ <=? dot)%nat && _) eqn:Hcond.
  2:{ split; [|by left]. exists p. clear. induction p as [|a p IH]; [done|].
      rewrite str_app_cons. by rewrite <-IH. }
  apply andb_true_iff in Hcond as [Hstart _]. apply Nat.leb_le in Hstart.
  split; [apply drop_suffix|]. right.
  destruct (rfind_drop _ _ _ Hdot) as (rest & Hrest & Hnodot).
  exists rest. split; [done|]. split; [done|].
  assert (rfind "/" (drop dot p) = None) as Hslash.
  { apply rfind_drop_past. intros k Hk. rewrite Hk in Hstart. lia. }
  rewrite Hrest in Hslash. simpl in Hslash.
  by destruct (rfind "/" rest).
Qed.

Lemma plain_ext_bin : plain_ext ".bin".
Proof. by exists "bin". Qed.

Lemma plain_ext_or_bin (e : string) :
  e = "" ∨ plain_ext e → plain_ext (if String.eqb e "" then ".bin" else e).
Proof.
  intros [->|He]; [apply plain_ext_bin|].
  destruct (String.eqb_spec e ""); [apply plain_ext_bin|done].
Qed.

Lemma plain_ext_infer (d : session) : plain_ext (infer_ext d).
Proof.
  unfold infer_ext.
  destruct (meta d) as [[| | | | |md]|]; try apply plain_ext_bin.
  destruct (md !! "filename") as [[| | |orig_name| |]|]; try apply plain_ext_bin.
  destruct (String.eqb orig_name ""); [apply plain_ext_bin|].
  apply plain_ext_or_bin, splitext_ext_shape.
Qed.

Lemma elem_of_update_song id t a md l (s : song) :
  s ∈ update_song id t a md l →
  ∃ x, x ∈ l ∧ song_id s = song_id x ∧ filename s = filename x.
Proof.
  unfold update_song. intros (x & -> & Hx)%list_elem_of_fmap.
  exists x. split; [done|]. by destruct (String.eqb (song_id x) id).
Qed.

Lemma song_ids_update_song id t a md l :
  song_id <$> update_song id t a md l = song_id <$> l.
Proof.
  unfold update_song. rewrite <-list_fmap_compose. apply list_fmap_ext.
  intros _ x _. simpl. by destruct (String.eqb (song_id x) id).
Qed.

Lemma songs_named_insert st (s : song) songs' ext :
  songs_named st → insert_song s (songs st) = Some songs' →
  filename s = song_id s +:+ ext → plain_ext ext →
  NoDup (song_id <$> songs')
  ∧ ∀ x, x ∈ songs' → ∃ e, filename x = song_id x +:+ e ∧ plain_ext e.
Proof.
  intros [Hnd Hnames] Hins Hname Hext. unfold insert_song in Hins.
  destruct (find_song (song_id s) (songs st)) eqn:Hfind; [done|].
  injection Hins as <-. split.
  - rewrite fmap_app. apply NoDup_app. split; [done|]. split.
    + intros x (y & -> & Hy)%list_elem_of_fmap Hx.
      apply list_elem_of_singleton in Hx.
      by destruct (find_song_None _ _ Hfind y Hy).
    + apply NoDup_singleton.
  - intros x [Hx| ->%list_elem_of_singleton]%elem_of_app; [by apply Hnames|].
    by exists ext.
Qed.

Lemma songs_named_handle rq st : songs_named st → songs_named (handle rq st).
Proof.
  intros Hinv.
  destruct rq as [len uuid now file form_metadata|uuid body|upload_id hdr data
      |uuid now rmtree_ok upload_id|m fid body|env uuid now model fid|env|env|env];
    unfold handle.
  - unfold upload. destruct (MAX_CONTENT_LENGTH <? len); [done|].
    destruct file as [[fname data]|]; [|done].
    destruct (String.eqb fname ""); [done|]. cbv zeta.
    set (ext := if String.eqb (splitext_ext fname) "" then ".bin"
                else splitext_ext fname).
    assert (plain_ext ext) as Hext by apply plain_ext_or_bin, splitext_ext_shape.
    destruct (has_nul _); [done|].
    destruct (negb (uploads_root st)); [done|].
    destruct (too_long _); [done|].
    destruct (uploads st !! _) as [[?|?]|]; [|done|];
      (destruct (default (JObj ∅) form_metadata) as [|?|?|?|?|meta_obj];
         try done;
       destruct (bind_text (dict_get "title" meta_obj)) as [t|]; [|done];
       destruct (bind_text (dict_get "artist" meta_obj)) as [a|]; [|done];
       destruct (insert_song _ _) as [songs'|] eqn:Hins; [|done];
       by apply (songs_named_insert st _ _ ext Hinv Hins)).
  - unfold songs_named. by rewrite songs_create_upload.
  - unfold songs_named. by rewrite songs_upload_chunk.
  - unfold complete_upload.
    destruct (uploads_root st && exists_raises upload_id); [done|].
    destruct (upload_dir st upload_id) as [[?|d]|]; [done| |done].
    destruct (parts_of d); [done|]. cbv zeta.
    destruct (refused _); [done|].
    destruct (uploads st !! _) as [[?|?]|]; [|done|];
      (destruct (insert_song _ _) as [songs'|] eqn:Hins; [|done];
       pose proof (songs_named_insert st _ _ (infer_ext d) Hinv Hins eq_refl
                     (plain_ext_infer d)) as Hnew;
       destruct rmtree_ok; [|done]; unfold remove_upload_dir;
       by destruct (String.eqb upload_id ".")).
  - destruct m; unfold song_detail.
    + unfold song_patch. destruct (find_song fid (songs st)); [|done].
      destruct (json_or_empty body) as [|?|?|?|?|b]; try done.
      destruct (bind_text _) as [t|]; [|done].
      destruct (bind_text _) as [a|]; [|done].
      destruct Hinv as [Hnd Hnames]. split; simpl.
      * by rewrite song_ids_update_song.
      * intros row (x & Hx & -> & ->)%elem_of_update_song. by apply Hnames.
    + unfold song_delete. cbv zeta.
      destruct (match find_song fid (songs st) with
                | Some _ => _ | None => _ end); [|done].
      destruct Hinv as [Hnd Hnames]. split; simpl.
      * apply (NoDup_fmap_2_strong song_id).
        -- intros x y Hx%list_elem_of_filter Hy%list_elem_of_filter Hxy.
           destruct Hx as [_ Hx], Hy as [_ Hy].
           apply list_elem_of_lookup in Hx as [i Hi], Hy as [k Hk].
           assert (i = k) as ->; [|congruence].
           apply (NoDup_lookup _ _ _ (song_id x) Hnd);
             rewrite list_lookup_fmap; [by rewrite Hi|by rewrite Hk, Hxy].
        -- apply NoDup_filter. by apply NoDup_fmap_1 in Hnd.
      * intros row [_ Hs]%list_elem_of_filter. by apply Hnames.
  - unfold songs_named. by rewrite songs_start_process.
  - unfold songs_named. by rewrite songs_run_thread.
  - unfold songs_named. by rewrite songs_run_worker.
  - unfold songs_named. by rewrite songs_poller_iteration.
Qed.

Lemma songs_named_history history : songs_named (run history).
Proof.
  unfold run. induction history as [|rq history IH] using rev_ind.
  - split; [constructor|]. intros s Hs. by apply elem_of_nil in Hs.
  - rewrite foldl_snoc. by apply songs_named_handle.
Qed.

(** X2. In every state the handlers produce, no two songs share an id,
    and the stored file name of every song is its id followed by an
    extension: a dot, then characters that are neither dots nor slashes.
    Whatever file name the client sends, only such an extension of it
    reaches the name under the upload root. *)
Theorem songs_named_run history :
  NoDup (song_id <$> songs (run history))
  ∧ ∀ s, s ∈ songs (run history) →
      ∃ ext, filename s = song_id s +:+ ext
             ∧ ∃ rest, ext = String "."%char rest
                       ∧ rfind "."%char rest = None
                       ∧ rfind "/"%char rest = None.
Proof. apply songs_named_history. Qed.

End stored_names.

(** * Chunk requests and what comes back *)

Section session_round_trips.

Implicit Types (st : state) (d : session) (calls : list (Z * bytes)).

Lemma entry_name_spec (segment : string) :
  entry_name segment = true →
  String.eqb segment "." = false ∧ segment ≠ ".."
  ∧ refused segment = None ∧ exists_raises segment = false.
Proof.
  unfold entry_name. intros [[Hdot Hup]%andb_prop Hname]%andb_prop.
  apply negb_true_iff in Hdot, Hup. apply String.eqb_neq in Hup.
  destruct (refused segment) eqn:Hr; [done|].
  by apply refused_exists in Hr.
Qed.

Lemma uploads_root_upload_chunk id hdr data st :
  uploads_root (upload_chunk id hdr data st).1 = uploads_root st.
Proof. unfold upload_chunk. by repeat case_match. Qed.





(** X4. The parts [complete_upload] assembles are the chunk files in
    ascending name order, whatever order the directory is enumerated
    in. *)
Theorem assembly_ignores_enumeration d (listing : list string) :
  listing ≡ₚ iterdir d →
  sorted (filter (fun p => PyStr.startswith "chunk-" p) listing) = parts_of d
  ∧ Sorted String.le (parts_of d)
  ∧ ∀ name, name ∈ parts_of d ↔
      name ∈ iterdir d ∧ PyStr.startswith "chunk-" name = true.
Proof.
  intros Hp. split; [by apply parts_of_any_enumeration|].
  split; [apply Sorted_merge_sort, _|].
  intros name. unfold parts_of. rewrite sorted_Permutation.
  rewrite list_elem_of_filter. split.
  - intros [Hs Hin]. split; [done|]. by apply Is_true_true.
  - intros [Hin Hs]. split; [|done]. by apply Is_true_true.
Qed.

Lemma assembly_ignores_enumeration_witness :
  sorted (filter (fun p => PyStr.startswith "chunk-" p) (reverse (iterdir demo_dir)))
  = parts_of demo_dir
  ∧ Sorted String.le (parts_of demo_dir)
  ∧ ∀ name, name ∈ parts_of demo_dir ↔
      name ∈ iterdir demo_dir ∧ PyStr.startswith "chunk-" name = true.
Proof.
  apply (assembly_ignores_enumeration demo_dir (reverse (iterdir demo_dir))).
  apply reverse_Permutation.
Defined.

Lemma app_ext_not_empty (uuid ext : string) :
  plain_ext ext → String.eqb (uuid +:+ ext) "" = false.
Proof.
  intros (rest & -> & _). apply String.eqb_neq. intros Heq.
  apply (f_equal String.length) in Heq. rewrite str_length_app in Heq.
  simpl in Heq. lia.
Qed.

(** What [download] sends for a song whose backing file is there. *)
Lemma download_original id st (r : song) (data : bytes) :
  find_song id (songs st) = Some r →
  String.eqb (filename r) "" = false →
  uploads st !! filename r = Some (File data) →
  download id None st = SendFile data.
Proof.
  intros Hr Hname Hfile. unfold download. by rewrite Hr, Hname, Hfile.
Qed.

(** The state after a fresh session has received up to a million chunks,
    once each, and has been completed. *)
Lemma complete_after_chunks (chunks : list bytes) calls uuid now ok id st d :
  0 < Z.of_nat (length chunks) ≤ 1000000 →
  calls ≡ₚ in_order chunks →
  entry_name id = true →
  uploads st !! id = Some (Dir d) → files d = ∅ →
  refused (uuid +:+ infer_ext d) = None →
  uploads st !! (uuid +:+ infer_ext d) = None →
  find_song uuid (songs st) = None →
  ∃ st',
    complete_upload uuid now ok id (upload_chunks id calls st)
    = (st', Json {[ "file_id" := JStr uuid;
                    "url" := JStr ("/download/" +:+ uuid) ]} 201)
    ∧ uploads st' !! (uuid +:+ infer_ext d) = Some (File (concat chunks))
    ∧ find_song uuid (songs st')
      = Some (mk_song uuid None None (uuid +:+ infer_ext d) None ∅ now)
    ∧ (ok = true → uploads st' !! id = None).
Proof.
  intros Hlen Hp (Hdot & _ & _ & Hlong)%entry_name_spec Hd Hf Hname Hfree Hfresh.
  assert (uuid +:+ infer_ext d ≠ id) as Hne by (intros <-; congruence).
  assert (calls.*1 ≡ₚ seqZ 0 (Z.of_nat (length chunks))) as Hidx.
  { by rewrite Hp, in_order_fst. }
  assert (NoDup (written calls).*1) as Hnd.
  { apply (written_NoDup _ (Z.of_nat (length chunks))); [lia|done]. }
  assert (Forall (fun c => refused (chunk_name c.1) = None) calls) as Hnames.
  { apply (calls_storable _ (Z.of_nat (length chunks))); [lia|done]. }
  rewrite (upload_chunks_fresh id calls st d) by done.
  set (d' := mk_session (meta d) (list_to_map (written calls))).
  set (st1 := set_uploads _ st).
  assert (parts_of d' = chunk_name <$> seqZ 0 (Z.of_nat (length chunks))) as Hparts.
  { apply sorted_unique; [|apply chunk_names_sorted; lia].
    unfold parts_of in *.
    rewrite <-(sorted_Permutation (filter _ _)).
    rewrite (parts_of_written d' calls Hnd eq_refl).
    by rewrite written_fst, Hidx. }
  assert (parts_of d' ≠ []) as Hsome.
  { rewrite Hparts. destruct chunks; [simpl in Hlen; lia|].
    rewrite seqZ_cons by (simpl; lia). done. }
  assert (uploads st1 !! (uuid +:+ infer_ext d') = None) as Hfree'.
  { subst st1. simpl. by rewrite lookup_insert_ne. }
  destruct (complete_upload_created uuid now ok id st1 d')
    as (st' & Hres & Hfile & Hsong & Hgone);
    [done|done|apply lookup_insert_eq|done..|].
  exists st'. change (infer_ext d') with (infer_ext d) in *.
  split; [done|]. split; [|by split].
  rewrite Hfile, Hparts. unfold assemble.
  by rewrite (read_in_index_order d' calls chunks Hp Hnd eq_refl).
Qed.

(** X5. Round trip of the resumable upload: a session that has no chunk
    file yet receives up to a million chunks, each index once, in any
    order, and is completed with a fresh id; when the file system takes
    the name of the final file (the id with the extension of the session's
    file name), the download of that id then sends the chunks in index
    order, byte for byte. The session id is the name of an entry of the
    upload root. *)
Theorem resumable_round_trip (chunks : list bytes) calls uuid now ok id st d :
  0 < Z.of_nat (length chunks) ≤ 1000000 →
  calls ≡ₚ in_order chunks →
  entry_name id = true →
  uploads st !! id = Some (Dir d) → files d = ∅ →
  refused (uuid +:+ infer_ext d) = None →
  uploads st !! (uuid +:+ infer_ext d) = None →
  find_song uuid (songs st) = None →
  download uuid None
    (complete_upload uuid now ok id (upload_chunks id calls st)).1
  = SendFile (concat chunks).
Proof.
  intros Hlen Hp Hid Hd Hf Hname Hfree Hfresh.
  destruct (complete_after_chunks chunks calls uuid now ok id st d)
    as (st' & -> & Hfile & Hsong & _); [done..|].
  apply (download_original uuid st' _ _ Hsong); [|done].
  apply app_ext_not_empty, plain_ext_infer.
Qed.

Lemma resumable_round_trip_witness :
  download "f" None
    (complete_upload "f" 0%Q true "u"
       (upload_chunks "u" [(1, demo_chunk1); (0, demo_chunk0); (2, demo_chunk2)]
          demo_created)).1
  = SendFile (concat [demo_chunk0; demo_chunk1; demo_chunk2]).
Proof.
  apply (resumable_round_trip [demo_chunk0; demo_chunk1; demo_chunk2]
           [(1, demo_chunk1); (0, demo_chunk0); (2, demo_chunk2)]
           "f" 0%Q true "u" demo_created
           (mk_session (Some (JObj {[ "filename" := JStr "chunked.wav" ]})) ∅)).
  - simpl. lia.
  - apply perm_swap.
  - reflexivity.
  - reflexivity.
  - reflexivity.
  - reflexivity.
  - reflexivity.
  - reflexivity.
Defined.

(** The success path of [upload], for a fresh [uuid]. *)
Lemma upload_created len uuid now (fname : string) (data : bytes) fm
    (meta_obj : gmap string json) t a st :
  len ≤ MAX_CONTENT_LENGTH →
  fname ≠ "" →
  uploads_root st = true →
  refused (uuid +:+ upload_ext fname) = None →
  (∀ d, uploads st !! (uuid +:+ upload_ext fname) ≠ Some (Dir d)) →
  default (JObj ∅) fm = JObj meta_obj →
  bind_text (dict_get "title" meta_obj) = Some t →
  bind_text (dict_get "artist" meta_obj) = Some a →
  find_song uuid (songs st) = None →
  upload len uuid now (Some (fname, data)) fm st
  = (set_songs
       (songs st ++ [mk_song uuid t a (uuid +:+ upload_ext fname) None meta_obj now])
       (set_uploads (<[uuid +:+ upload_ext fname := File data]> (uploads st)) st),
     Json {[ "file_id" := JStr uuid;
             "url" := JStr ("/download/" +:+ uuid);
             "title" := dict_get "title" meta_obj;
             "artist" := dict_get "artist" meta_obj ]} 201).
Proof.
  intros Hlen Hname Hroot Hstore Hfree Hmeta Ht Ha Hfresh. unfold upload.
  destruct (Z.ltb_spec MAX_CONTENT_LENGTH len) as [Hbig|_]; [lia|].
  apply String.eqb_neq in Hname. rewrite Hname. cbv zeta.
  fold (upload_ext fname). rewrite Hroot. simpl negb. cbv iota.
  unfold refused in Hstore.
  destruct (has_nul (uuid +:+ upload_ext fname)); [done|].
  destruct (too_long (uuid +:+ upload_ext fname)); [done|].
  destruct (uploads st !! (uuid +:+ upload_ext fname)) as [[old|d]|] eqn:Hentry;
    [|by destruct (Hfree d)|];
    rewrite Hmeta, Ht, Ha; unfold insert_song; simpl; by rewrite Hfresh.
Qed.

(** X6. Round trip of the one-shot upload: a named file within the size
    limit, uploaded with a fresh id and metadata whose title and artist
    can be stored, under a name the file system takes (the id with the
    extension of the file's name), is answered with 201 and the id, and
    the download of that id sends the uploaded bytes. Beyond the size
    limit the answer is 413, and nothing is stored. *)
Theorem upload_round_trip len uuid now (fname : string) (data : bytes) fm
    (meta_obj : gmap string json) t a st :
  fname ≠ "" →
  uploads_root st = true →
  refused (uuid +:+ upload_ext fname) = None →
  (∀ d, uploads st !! (uuid +:+ upload_ext fname) ≠ Some (Dir d)) →
  default (JObj ∅) fm = JObj meta_obj →
  bind_text (dict_get "title" meta_obj) = Some t →
  bind_text (dict_get "artist" meta_obj) = Some a →
  find_song uuid (songs st) = None →
  (len ≤ MAX_CONTENT_LENGTH →
   http_status (upload len uuid now (Some (fname, data)) fm st).2 = 201
   ∧ download uuid None (upload len uuid now (Some (fname, data)) fm st).1
     = SendFile data
   ∧ ∃ r, find_song uuid (songs (upload len uuid now (Some (fname, data)) fm st).1)
          = Some r
        ∧ title r = t ∧ artist r = a ∧ metadata r = meta_obj)
  ∧ (MAX_CONTENT_LENGTH < len →
     upload len uuid now (Some (fname, data)) fm st = (st, Aborted 413)).
Proof.
  intros Hname Hroot Hstore Hfree Hmeta Ht Ha Hfresh. split.
  - intros Hlen.
    rewrite (upload_created len uuid now fname data fm meta_obj t a st) by done.
    set (st' := set_songs _ _). change ((st', _).1) with st'.
    split; [done|].
    assert (find_song uuid
              (songs st ++ [mk_song uuid t a (uuid +:+ upload_ext fname) None
                              meta_obj now])
            = Some (mk_song uuid t a (uuid +:+ upload_ext fname) None meta_obj now))
      as Hrow.
    { rewrite find_song_snoc, Hfresh. simpl. by rewrite String.eqb_refl. }
    split; [|by eexists].
    apply (download_original uuid st'
             (mk_song uuid t a (uuid +:+ upload_ext fname) None meta_obj now) data).
    + exact Hrow.
    + apply app_ext_not_empty, plain_ext_or_bin, splitext_ext_shape.
    + apply lookup_insert_eq.
  - intros Hbig. unfold upload.
    by destruct (Z.ltb_spec MAX_CONTENT_LENGTH len) as [_|Hle]; [|lia].
Qed.

Lemma upload_round_trip_witness :
  http_status
    (upload 3 "s1" 0%Q (Some ("take.mp3", [Byte.x49; Byte.x44; Byte.x33]))
       (Some (JObj {[ "title" := JStr "Blue"; "artist" := JStr "Ann" ]}))
       init_state).2 = 201
  ∧ download "s1" None
      (upload 3 "s1" 0%Q (Some ("take.mp3", [Byte.x49; Byte.x44; Byte.x33]))
         (Some (JObj {[ "title" := JStr "Blue"; "artist" := JStr "Ann" ]}))
         init_state).1
    = SendFile [Byte.x49; Byte.x44; Byte.x33]
  ∧ ∃ r, find_song "s1"
           (songs (upload 3 "s1" 0%Q
                     (Some ("take.mp3", [Byte.x49; Byte.x44; Byte.x33]))
                     (Some (JObj {[ "title" := JStr "Blue";
                                    "artist" := JStr "Ann" ]}))
                     init_state).1)
         = Some r
       ∧ title r = Some "Blue" ∧ artist r = Some "Ann"
       ∧ metadata r = {[ "title" := JStr "Blue"; "artist" := JStr "Ann" ]}.
Proof.
  apply (upload_round_trip 3 "s1" 0%Q "take.mp3" [Byte.x49; Byte.x44; Byte.x33]
           (Some (JObj {[ "title" := JStr "Blue"; "artist" := JStr "Ann" ]}))
           {[ "title" := JStr "Blue"; "artist" := JStr "Ann" ]}
           (Some "Blue") (Some "Ann") init_state).
  - discriminate.
  - reflexivity.
  - reflexivity.
  - intros d. vm_compute. discriminate.
  - reflexivity.
  - reflexivity.
  - reflexivity.
  - reflexivity.
  - unfold MAX_CONTENT_LENGTH. lia.
Defined.

End session_round_trips.

(** * Deleting, cleaning up, downloading *)

Section download_facts.

Implicit Types (st : state) (l : list song).

Lemma download_artifact_outputs id key st st' :
  key ≠ "" → outputs st' = outputs st → outputs_root st' = outputs_root st →
  download id (Some key) st' = download id (Some key) st.
Proof.
  intros Hkey Hout Hroot. unfold download. apply String.eqb_neq in Hkey.
  by rewrite Hkey, Hout, Hroot.
Qed.

Lemma download_original_songs id st st' :
  songs st' = songs st → uploads st' = uploads st →
  download id None st' = download id None st.
Proof. intros Hs Hu. unfold download. by rewrite Hs, Hu. Qed.

(** X7. DELETE of a song takes the original away and leaves its outputs:
    once DELETE has answered 204, the download of the id answers 404
    ("not found"), while every artifact download answers as before. *)
Theorem delete_keeps_outputs id body (key : string) st :
  key ≠ "" →
  http_status (song_detail DELETE id body st).2 = 204 →
  download id None (song_detail DELETE id body st).1
  = Plain (Json (error_body "not found") 404)
  ∧ ∀ other, download other (Some key) (song_detail DELETE id body st).1
             = download other (Some key) st.
Proof.
  intros Hkey. unfold song_detail, song_delete. cbv zeta.
  destruct (match find_song id (songs st) with
            | Some _ => _ | None => _ end) as [u|]; [|done].
  intros _. split.
  - unfold download. simpl. by rewrite find_song_filter_other.
  - intros other. by apply download_artifact_outputs.
Qed.

Lemma delete_keeps_outputs_witness :
  download "f" None (song_detail DELETE "f" None demo_library).1
  = Plain (Json (error_body "not found") 404)
  ∧ ∀ other,
      download other (Some "instrumental")
        (song_detail DELETE "f" None demo_library).1
      = download other (Some "instrumental") demo_library.
Proof.
  apply (delete_keeps_outputs "f" None "instrumental" demo_library).
  - discriminate.
  - reflexivity.
Defined.

(** X8. Cleanup of a file id that names an entry of the outputs root
    takes the outputs of that file away and leaves the original: it
    answers 204 whether or not there were outputs, afterwards every
    artifact download of the id answers 404, the download of an original
    answers as before and so do the artifact downloads of the other ids; a
    second cleanup changes nothing. When [rmtree] raises, the answer is
    500 with the exception text. Cleanup of the segment ["."] removes the
    outputs root: afterwards the artifact downloads of every id answer
    404. *)
Theorem cleanup_keeps_original name_error id (key : string) st :
  key ≠ "" → entry_name id = true →
  (cleanup name_error None id st).2 = Empty 204
  ∧ download id (Some key) (cleanup name_error None id st).1
    = Plain (Json (error_body "not found") 404)
  ∧ (∀ other, download other None (cleanup name_error None id st).1
              = download other None st)
  ∧ (∀ other, other ≠ id → other ≠ "." →
       download other (Some key) (cleanup name_error None id st).1
       = download other (Some key) st)
  ∧ cleanup name_error None id (cleanup name_error None id st).1
    = ((cleanup name_error None id st).1, Empty 204)
  ∧ (∀ e, is_Some (outputs st !! id) →
       (cleanup name_error (Some e) id st).2 = Json (error_body e) 500)
  ∧ (outputs_root st = true →
     (cleanup name_error None "." st).2 = Empty 204
     ∧ outputs (cleanup name_error None "." st).1 = ∅
     ∧ ∀ other, download other (Some key) (cleanup name_error None "." st).1
                = Plain (Json (error_body "not found") 404)).
Proof.
  intros Hkey (Hdot & _ & _ & Hlong)%entry_name_spec.
  apply String.eqb_neq in Hkey.
  assert (∀ rm s, cleanup name_error rm id s
                  = match outputs s !! id with
                    | Some _ =>
                        match rm with
                        | Some e => (s, Json (error_body e) 500)
                        | None => (set_outputs (delete id (outputs s)) s, Empty 204)
                        end
                    | None => (s, Empty 204)
                    end) as Hcleanup.
  { intros rm s. unfold cleanup. by rewrite Hlong, andb_false_r, Hdot. }
  assert (outputs (cleanup name_error None id st).1 !! id = None) as Hgone.
  { rewrite Hcleanup. destruct (outputs st !! id) eqn:Hout; simpl; [|done].
    apply lookup_delete_eq. }
  assert (outputs_root (cleanup name_error None id st).1 = outputs_root st)
    as Hroot.
  { rewrite Hcleanup. by destruct (outputs st !! id). }
  split; [|split; [|split; [|split; [|split; [|split]]]]].
  - rewrite Hcleanup. by destruct (outputs st !! id).
  - unfold download. by rewrite Hkey, Hlong, andb_false_r, Hdot, Hgone.
  - intros other. apply download_original_songs;
      rewrite Hcleanup; by destruct (outputs st !! id).
  - intros other Hne Hother%String.eqb_neq. unfold download.
    rewrite Hkey, Hroot, Hother.
    assert (outputs (cleanup name_error None id st).1 !! other
            = outputs st !! other) as ->; [|done].
    rewrite Hcleanup. destruct (outputs st !! id); simpl; [|done].
    by apply lookup_delete_ne.
  - rewrite (Hcleanup None). by rewrite Hgone.
  - intros e [dir Hdir]. rewrite Hcleanup. by rewrite Hdir.
  - intros Hr. unfold cleanup. rewrite Hr. simpl.
    split; [done|]. split; [done|].
    intros other. unfold download. rewrite Hkey. simpl.
    by destruct (String.eqb other ".").
Qed.

Lemma cleanup_keeps_original_witness :
  (cleanup "" None "f" demo_library).2 = Empty 204
  ∧ download "f" (Some "instrumental") (cleanup "" None "f" demo_library).1
    = Plain (Json (error_body "not found") 404)
  ∧ (∀ other, download other None (cleanup "" None "f" demo_library).1
              = download other None demo_library)
  ∧ (∀ other, other ≠ "f" → other ≠ "." →
       download other (Some "instrumental") (cleanup "" None "f" demo_library).1
       = download other (Some "instrumental") demo_library)
  ∧ cleanup "" None "f" (cleanup "" None "f" demo_library).1
    = ((cleanup "" None "f" demo_library).1, Empty 204)
  ∧ (∀ e, is_Some (outputs demo_library !! "f") →
       (cleanup "" (Some e) "f" demo_library).2 = Json (error_body e) 500)
  ∧ (outputs_root demo_library = true →
     (cleanup "" None "." demo_library).2 = Empty 204
     ∧ outputs (cleanup "" None "." demo_library).1 = ∅
     ∧ ∀ other,
         download other (Some "instrumental") (cleanup "" None "." demo_library).1
         = Plain (Json (error_body "not found") 404)).
Proof.
  apply (cleanup_keeps_original "" "f" "instrumental" demo_library).
  - discriminate.
  - reflexivity.
Defined.

Lemma find_song_NoDup l (r : song) :
  NoDup (song_id <$> l) → r ∈ l → find_song (song_id r) l = Some r.
Proof.
  intros Hnd Hr.
  destruct (find_song (song_id r) l) as [r'|] eqn:Hf.
  - apply find_song_Some in Hf as [Hr' Hid].
    apply list_elem_of_lookup in Hr as [i Hi], Hr' as [k Hk].
    assert (k = i) as ->; [|congruence].
    apply (NoDup_lookup _ _ _ (song_id r) Hnd);
      rewrite list_lookup_fmap; [rewrite Hk|rewrite Hi]; simpl; congruence.
  - by destruct (find_song_None _ _ Hf r Hr).
Qed.

Lemma error_body_inj (m1 m2 : string) : error_body m1 = error_body m2 → m1 = m2.
Proof.
  unfold error_body. intros Heq.
  apply (f_equal (fun m : gmap string json => m !! "error")) in Heq.
  rewrite !lookup_singleton_eq in Heq. congruence.
Qed.

(** X9. In every state the handlers produce, each entry of the song list
    carries the url [/download/<id>], the GET of that id returns the same
    object, and the download of that id never answers "not found". *)
Theorem listed_songs_resolve history (r : song) (url : string) :
  (r, url) ∈ list_songs (run history) →
  url = "/download/" +:+ song_id r
  ∧ song_get (song_id r) (run history) = inl (r, url)
  ∧ download (song_id r) None (run history)
    ≠ Plain (Json (error_body "not found") 404).
Proof.
  unfold list_songs. intros (x & Heq & Hx)%list_elem_of_fmap.
  unfold song_object in Heq. injection Heq as -> ->.
  destruct (songs_named_history history) as [Hnd _].
  pose proof (find_song_NoDup _ _ Hnd Hx) as Hfind.
  split; [done|]. split.
  - unfold song_get. by rewrite Hfind.
  - unfold download. rewrite Hfind.
    destruct (String.eqb (filename x) ""); [done|].
    destruct (uploads (run history) !! filename x) as [[data|d]|]; [done..|].
    by intros [= Heq%error_body_inj].
Qed.

Lemma listed_songs_resolve_witness :
  "/download/s1" = "/download/" +:+ song_id demo_row
  ∧ song_get (song_id demo_row) (run demo_history) = inl (demo_row, "/download/s1")
  ∧ download (song_id demo_row) None (run demo_history)
    ≠ Plain (Json (error_body "not found") 404).
Proof.
  apply (listed_songs_resolve demo_history demo_row "/download/s1").
  vm_compute. apply list_elem_of_here.
Defined.

(** X10. The proxy streams what the remote server sent: the chunks it
    yields are the non-empty chunks of the remote body, so their bytes are
    the bytes of the remote body; the Content-Type is the remote one, or
    [application/octet-stream] when there is none. A body without a truthy
    ["url"] is answered with 400 and nothing is fetched; a fetch that
    raises is answered with 502. *)
Theorem proxy_audio_streams (get : json → fetched) (data : gmap string json) :
  (truthy (dict_get "url" data) = false →
   proxy_audio get (Some (JObj data))
   = ProxyPlain (Json (error_body "url required") 400))
  ∧ (∀ e, truthy (dict_get "url" data) = true →
       get (dict_get "url" data) = FetchRaises e →
       proxy_audio get (Some (JObj data))
       = ProxyPlain (Json (error_body ("fetch failed: " +:+ e)) 502))
  ∧ (∀ ct chunks, truthy (dict_get "url" data) = true →
       get (dict_get "url" data) = FetchedStream ct chunks →
       ∃ body,
         proxy_audio get (Some (JObj data))
         = Stream (default "application/octet-stream" ct) body
         ∧ concat body = concat chunks
         ∧ Forall (fun chunk => chunk ≠ []) body).
Proof.
  unfold proxy_audio. rewrite json_or_empty_obj. split; [|split].
  - by intros ->.
  - by intros e -> ->.
  - intros ct chunks -> ->. eexists. split; [done|]. split.
    + induction chunks as [|c chunks IH]; [done|].
      destruct (decide (c = [])) as [->|Hc].
      * rewrite filter_cons_False by (by intros ?). exact IH.
      * rewrite filter_cons_True by done. rewrite !concat_cons.
        f_equal. exact IH.
    + apply Forall_forall. by intros c [Hc _]%list_elem_of_filter.
Qed.

Lemma proxy_audio_streams_witness :
  ∃ body,
    proxy_audio
      (fun _ => FetchedStream None [[Byte.x01]; []; [Byte.x02; Byte.x03]])
      (Some (JObj {[ "url" := JStr "http://example.org/a.mp3" ]}))
    = Stream "application/octet-stream" body
    ∧ concat body = concat [[Byte.x01]; []; [Byte.x02; Byte.x03]]
    ∧ Forall (fun chunk => chunk ≠ []) body.
Proof.
  apply (proj2 (proj2 (proxy_audio_streams
           (fun _ => FetchedStream None [[Byte.x01]; []; [Byte.x02; Byte.x03]])
           {[ "url" := JStr "http://example.org/a.mp3" ]}))
           None [[Byte.x01]; []; [Byte.x02; Byte.x03]]); reflexivity.
Defined.

End download_facts.

(** * Runs: what they produce and what they touch *)

Section run_facts.

Implicit Types (st : state) (l : list job) (j r : job) (env : work_env).

Lemma startswith_app (p s : string) : PyStr.startswith p (p +:+ s) = true.
Proof.
  unfold PyStr.startswith. induction p as [|a p IH]; [by destruct s|].
  rewrite str_app_cons. simpl. by destruct (ascii_dec a a).
Qed.

Lemma update_job_ids jid (F : job → job) l :
  (∀ x, job_id (F x) = job_id x) →
  job_id <$> update_job jid F l = job_id <$> l.
Proof.
  intros HF. unfold update_job. rewrite <-list_fmap_compose.
  apply list_fmap_ext. intros _ x _. simpl.
  by destruct (String.eqb (job_id x) jid).
Qed.

Lemma elem_of_update_job jid (F : job → job) l j' :
  j' ∈ update_job jid F l →
  ∃ j, j ∈ l ∧ ((job_id j = jid ∧ j' = F j) ∨ (job_id j ≠ jid ∧ j' = j)).
Proof.
  unfold update_job. intros (x & -> & Hx)%list_elem_of_fmap.
  exists x. split; [done|].
  destruct (String.eqb (job_id x) jid) eqn:Hid.
  - left. by apply String.eqb_eq in Hid.
  - right. by apply String.eqb_neq in Hid.
Qed.


(** The state after a healthy run for a file id that names an entry of
    the outputs root. *)
Lemma background_process_healthy env jid fid m st :
  connect_error env = None → fault env = None → entry_name fid = true →
  ∃ js st2,
    make_artifact env fid (set_jobs js st) = inl st2
    ∧ (background_process env (jid, fid, m) st).1 = mark_completed jid st2.
Proof.
  intros Hc Hf (Hdot & _ & Hname & _)%entry_name_spec.
  unfold background_process, run_body. rewrite Hc.
  destruct (run_stages_frame env jid [1; 2; 3; 4; 5]%nat st) as [js Hjs].
  pose proof (run_stages_healthy env jid [1; 2; 3; 4; 5]%nat st Hf) as Hok.
  destruct (run_stages env jid [1; 2; 3; 4; 5]%nat st) as [st1 [[e open]|]];
    simpl in Hjs, Hok; [done|]. subst st1.
  unfold faulty. rewrite Hf.
  destruct (make_artifact_storable env fid (set_jobs js st) Hname) as [st2 Hst2].
  exists js, st2. by rewrite Hst2.
Qed.

(** X11. The artifact of a healthy run can be downloaded. The file id
    names an entry of the outputs root, and the outputs of the file are
    empty before the run. When the song's upload is on disk and the file
    system takes the name of the copy, the download of [instrumental]
    afterwards sends the bytes of the original if the copy went through,
    what the copy had written if it raised after creating the file, and
    answers 404 ("artifact not found") if it raised before. When the file
    id names no song, the run still goes through and the same download
    answers 404 ("artifact not found"): the outputs directory exists and
    is empty. *)
Theorem artifact_after_run env jid fid m st :
  connect_error env = None → fault env = None → entry_name fid = true →
  outputs st !! fid = None →
  (∀ (row : song) data, find_song fid (songs st) = Some row →
     filename row ≠ "" →
     uploads st !! filename row = Some (File data) →
     refused ("instrumental" +:+ PyStr.suffix (filename row)) = None →
     download fid (Some "instrumental")
       (background_process env (jid, fid, m) st).1
     = match copy env with
       | Copied => SendFile data
       | CopyRaised (Some written) => SendFile written
       | CopyRaised None => Plain (Json (error_body "artifact not found") 404)
       end)
  ∧ (find_song fid (songs st) = None →
     download fid (Some "instrumental")
       (background_process env (jid, fid, m) st).1
     = Plain (Json (error_body "artifact not found") 404)).
Proof.
  intros Hc Hf Hfid Hout.
  destruct (background_process_healthy env jid fid m st Hc Hf Hfid)
    as (js & st2 & Hst2 & ->).
  apply entry_name_spec in Hfid as (Hdot & _ & [Hnul Hlen]%refused_None & Hlong).
  revert Hst2. unfold make_artifact. rewrite Hnul, Hlen, Hdot. cbv zeta.
  change (outputs (set_jobs js st)) with (outputs st).
  change (songs (set_jobs js st)) with (songs st).
  change (uploads (set_jobs js st)) with (uploads st).
  rewrite Hout. intros [= <-].
  unfold download, mark_completed. simpl. rewrite Hlong, Hdot. simpl.
  rewrite lookup_insert_eq. split.
  - intros row data Hsong Hname%String.eqb_neq Hfile Hdest.
    rewrite Hsong, Hname, Hfile. unfold copy_to. rewrite Hdest.
    destruct (copy env) as [|[written|]];
      rewrite ?insert_empty, ?map_to_list_singleton, ?map_to_list_empty;
      unfold first_artifact; simpl; by rewrite ?startswith_app.
  - intros ->. by rewrite map_to_list_empty.
Qed.

Lemma artifact_after_run_witness :
  download "f" (Some "instrumental")
    (background_process (work env_healthy) ("j1", "f", "demucs")
       demo_library).1
  = SendFile (demo_chunk0 ++ demo_chunk1 ++ demo_chunk2).
Proof.
  apply (proj1 (artifact_after_run (work env_healthy)
                  "j1" "f" "demucs" demo_library eq_refl eq_refl eq_refl eq_refl)
           (mk_song "f" None None "f.wav" None ∅ 0)).
  - reflexivity.
  - discriminate.
  - vm_compute. reflexivity.
  - reflexivity.
Defined.

(** X12. A run touches its own job and its own outputs directory only:
    uploads, songs and the pending calls are as before, the outputs of
    every other file are as before, every other job reads as before, and
    the table has the rows it had, with the ids they had. *)
Theorem background_process_touches_own env jid fid m st :
  uploads (background_process env (jid, fid, m) st).1 = uploads st
  ∧ songs (background_process env (jid, fid, m) st).1 = songs st
  ∧ threads (background_process env (jid, fid, m) st).1 = threads st
  ∧ rq (background_process env (jid, fid, m) st).1 = rq st
  ∧ (∀ f, f ≠ fid →
       outputs (background_process env (jid, fid, m) st).1 !! f
       = outputs st !! f)
  ∧ (∀ x, x ≠ jid →
       find_job x (jobs (background_process env (jid, fid, m) st).1)
       = find_job x (jobs st))
  ∧ job_id <$> jobs (background_process env (jid, fid, m) st).1
    = job_id <$> jobs st.
Proof.
  destruct (background_process_frame env jid fid m st)
    as (Hu & Hs & Ht & Hr & Ho).
  destruct (background_process_jobs env jid fid m st) as (F & HF & HJ).
  do 5 (split; [done|]). rewrite HJ. split.
  - intros x Hx. apply find_job_update_ne; [done|]. intros y. apply HF.
  - apply update_job_ids. intros y. apply HF.
Qed.

(** X13. A run whose body raises at step [k], and whose [except]
    clause writes, leaves the job ['failed'] with the exception text as
    message and the progress of the last UPDATE that reached the store.
    When the step left nothing open (its [execute] raised, or the commit
    that raised dropped the transaction), that is the UPDATE of the stage
    before: [(k - 1) / 5], the progress the row had when the first stage
    raised, [5 / 5] when the artifact step or the final update raised.
    When the commit of the step raised and left its UPDATE open, the
    commit of the [except] clause stores it: [k / 5] for stage [k], and 1
    for the final update. The other columns are as they were. *)
Theorem failed_job_keeps_progress env jid fid m st k e j :
  connect_error env = None → handler_error env = None →
  fault env = Some (k, e) → (1 ≤ k ≤ 7)%nat →
  (k = 7%nat → refused fid = None) →
  find_job jid (jobs st) = Some j →
  find_job jid (jobs (background_process env (jid, fid, m) st).1)
  = Some (mk_job (job_id j) (file_id j) (model j) "failed"
            (if pending_kept env && negb (k =? 6)%nat then
               if (k =? 7)%nat then 1%Q else (Z.of_nat k # 5)%Q
             else if (k =? 1)%nat then progress j
             else (Z.of_nat (Nat.min (k - 1) 5) # 5)%Q)
            e (created_at j)).
Proof.
  intros Hc Hh Hf Hk Hname Hj. unfold background_process. rewrite Hc.
  assert (k = 7%nat →
          ∀ s, ∃ s2, make_artifact env fid s = inl s2 ∧ jobs s2 = jobs s) as Hart.
  { intros H7 s. destruct (make_artifact_frame env fid s)
      as (s2 & Hres & Hjobs & _).
    destruct (make_artifact_storable env fid s (Hname H7)) as [s2' Hinl].
    destruct Hres as [Hres|[e' Hres]]; [|congruence]. by exists s2. }
  unfold run_body, handle_failure, pending. rewrite Hh.
  destruct k as [|[|[|[|[|[|[|[|k]]]]]]]]; try lia; simpl;
    unfold faulty; rewrite Hf; simpl;
    try (destruct (Hart eq_refl
                     (stage_update jid 5 (stage_update jid 4 (stage_update jid 3
                        (stage_update jid 2 (stage_update jid 1 st))))))
           as (s2 & -> & Hs2));
    unfold pending; destruct (pending_kept env); simpl;
    unfold mark_failed, stage_update, stage_row; simpl; rewrite ?Hs2; simpl;
    rewrite ?update_job_id, !find_job_update, Hj by done; reflexivity.
Qed.

Lemma failed_job_keeps_progress_witness :
  find_job "b"
    (jobs (background_process (work env_boom) ("b", "song-2", "demucs")
             demo_queue).1)
  = Some (mk_job "b" "song-2" "demucs" "failed" (2 # 5) "boom" 1).
Proof.
  apply (failed_job_keeps_progress (work env_boom) "b" "song-2" "demucs"
           demo_queue 3 "boom"
           (mk_job "b" "song-2" "demucs" "queued" 0 "queued" 1));
    (reflexivity || discriminate || (simpl; lia)).
Defined.

(** The same run when the commit of the third stage raised and left its
    UPDATE open: the row reads three fifths. *)
Example demo_commit_raised :
  find_job "b"
    (jobs (background_process
             (mk_work_env None (Some (3%nat, "database is locked")) Copied true
                None "")
             ("b", "song-2", "demucs") demo_queue).1)
  = Some (mk_job "b" "song-2" "demucs" "failed" (3 # 5) "database is locked" 1).
Proof. reflexivity. Qed.

End run_facts.

(** * Jobs over histories *)

Section history_facts.

Implicit Types (st : state) (l : list job) (j : job).

Lemma jobs_settled_ext st st' :
  jobs st' = jobs st → threads st' = threads st → rq st' = rq st →
  jobs_settled st → jobs_settled st'.
Proof.
  intros Hj Ht Hr. unfold jobs_settled, pending_ids. by rewrite Hj, Ht, Hr.
Qed.

(** The handlers of songs and uploads leave jobs and pending calls alone. *)
Lemma job_side_upload len uuid now file fm st :
  jobs (upload len uuid now file fm st).1 = jobs st
  ∧ threads (upload len uuid now file fm st).1 = threads st
  ∧ rq (upload len uuid now file fm st).1 = rq st.
Proof. unfold upload. cbv zeta. repeat case_match; done. Qed.

Lemma job_side_create_upload uuid body st :
  jobs (create_upload uuid body st).1 = jobs st
  ∧ threads (create_upload uuid body st).1 = threads st
  ∧ rq (create_upload uuid body st).1 = rq st.
Proof. unfold create_upload. cbv zeta. repeat case_match; done. Qed.

Lemma job_side_upload_chunk id hdr data st :
  jobs (upload_chunk id hdr data st).1 = jobs st
  ∧ threads (upload_chunk id hdr data st).1 = threads st
  ∧ rq (upload_chunk id hdr data st).1 = rq st.
Proof. unfold upload_chunk. cbv zeta. repeat case_match; done. Qed.

Lemma job_side_complete_upload uuid now ok id st :
  jobs (complete_upload uuid now ok id st).1 = jobs st
  ∧ threads (complete_upload uuid now ok id st).1 = threads st
  ∧ rq (complete_upload uuid now ok id st).1 = rq st.
Proof.
  unfold complete_upload, remove_upload_dir. cbv zeta. repeat case_match; done.
Qed.

Lemma job_side_song_detail m id body st :
  jobs (song_detail m id body st).1 = jobs st
  ∧ threads (song_detail m id body st).1 = threads st
  ∧ rq (song_detail m id body st).1 = rq st.
Proof.
  unfold song_detail, song_patch, song_delete. cbv zeta.
  repeat case_match; done.
Qed.

(** Without a queued row a pass of the poller changes nothing. *)
Lemma poller_iteration_idle env st :
  (∀ j, j ∈ jobs st → status j ≠ "queued") → poller_iteration env st = st.
Proof.
  intros Hnone. unfold poller_iteration, claim.
  destruct (poll_db_error env); [done|].
  destruct (select_queued (jobs st)) as [r|] eqn:Hsel; [|done].
  apply select_queued_spec in Hsel as (Hin & Hq & _).
  by destruct (Hnone r Hin).
Qed.

Lemma settled_not_queued st j :
  jobs_settled st → j ∈ jobs st → status j ≠ "queued".
Proof.
  intros (_ & _ & _ & _ & Hst) Hj Hq.
  destruct (Hst j Hj) as [H|[H|H]]; congruence.
Qed.

(** A run of the pending call for [jid]. *)
Lemma settled_after_run st st' jid (F : job → job) :
  tame F → jobs st' = update_job jid F (jobs st) →
  pending_ids st ≡ₚ jid :: pending_ids st' →
  jobs_settled st → jobs_settled st'.
Proof.
  intros HF HJ Hperm (Hids & Hnd & Hrow & Hpend & Hst).
  rewrite Hperm in Hnd. apply NoDup_cons in Hnd as [Hjid Hnd].
  unfold jobs_settled. rewrite HJ. split; [|split; [|split; [|split]]].
  - rewrite update_job_ids; [done|]. intros x. apply HF.
  - done.
  - intros x Hx. rewrite find_job_update_ne.
    + apply Hrow. rewrite Hperm. by apply list_elem_of_further.
    + by intros ->.
    + intros y. apply HF.
  - intros j' (j & Hj & [[Hid ->]|[Hid ->]])%elem_of_update_job Hin.
    + destruct (HF j) as [Hsame _]. rewrite Hsame, Hid in Hin. done.
    + apply Hpend; [done|]. rewrite Hperm. by apply list_elem_of_further.
  - intros j' (j & Hj & [[Hid ->]|[Hid ->]])%elem_of_update_job.
    + destruct (HF j) as [_ [->|[->| ->]]]; 
        [by apply Hst|right; by right|right; by left].
    + by apply Hst.
Qed.


Lemma run_thread_step env st jid fid m rest :
  threads st = (jid, fid, m) :: rest →
  ∃ F, tame F
       ∧ jobs (run_thread env st) = update_job jid F (jobs st)
       ∧ pending_ids st ≡ₚ jid :: pending_ids (run_thread env st).
Proof.
  intros Hth. unfold run_thread. rewrite Hth.
  destruct (background_process_jobs env jid fid m (set_threads rest st))
    as (F & HF & HJ).
  destruct (background_process_frame env jid fid m (set_threads rest st))
    as (_ & _ & Ht & Hr & _).
  exists F. split; [done|]. split; [exact HJ|].
  unfold pending_ids. by rewrite Ht, Hr, Hth.
Qed.

Lemma run_worker_step env st jid fid m rest :
  rq st = (jid, fid, m) :: rest →
  ∃ F, tame F
       ∧ jobs (run_worker env st) = update_job jid F (jobs st)
       ∧ pending_ids st ≡ₚ jid :: pending_ids (run_worker env st).
Proof.
  intros Hrq. unfold run_worker. rewrite Hrq.
  destruct (background_process_jobs env jid fid m (set_rq rest st))
    as (F & HF & HJ).
  destruct (background_process_frame env jid fid m (set_rq rest st))
    as (_ & _ & Ht & Hr & _).
  exists F. split; [done|]. split; [exact HJ|].
  unfold pending_ids. rewrite Ht, Hr, Hrq. simpl.
  rewrite !fmap_app, fmap_cons. simpl. by rewrite <-Permutation_middle.
Qed.

(** What a dispatch that inserts its row does to jobs and pending calls. *)
Lemma start_process_step env uuid now m f st :
  find_job uuid (jobs st) = None →
  jobs (start_process env uuid now m f st).1
  = jobs st ++ [mk_job uuid f m "processing" 0 "queued" now]
  ∧ pending_ids (start_process env uuid now m f st).1
    ≡ₚ uuid :: pending_ids st.
Proof.
  intros Hfresh. split; [by apply start_process_row|].
  unfold start_process, insert_job, pending_ids. simpl. rewrite Hfresh.
  destruct (queue_configured env), (enqueue_raises env); simpl;
    rewrite !fmap_app; simpl;
    by rewrite ?(assoc_L (++) _ _ [uuid]), <-Permutation_cons_append.
Qed.

Lemma start_process_refused env uuid now m f st :
  find_job uuid (jobs st) ≠ None → (start_process env uuid now m f st).1 = st.
Proof.
  intros Hused. unfold start_process, insert_job. simpl.
  by destruct (find_job uuid (jobs st)).
Qed.

Lemma settled_after_insert st st' (new : job) :
  find_job (job_id new) (jobs st) = None → status new = "processing" →
  jobs st' = jobs st ++ [new] →
  pending_ids st' ≡ₚ job_id new :: pending_ids st →
  jobs_settled st → jobs_settled st'.
Proof.
  intros Hfresh Hnew HJ Hperm (Hids & Hnd & Hrow & Hpend & Hst).
  assert (job_id new ∉ pending_ids st) as Hnotin.
  { intros [j Hj]%Hrow. congruence. }
  unfold jobs_settled. rewrite HJ. split; [|split; [|split; [|split]]].
  - rewrite fmap_app. apply NoDup_app. split; [done|]. split.
    + intros x (j & -> & Hj)%list_elem_of_fmap [Heq|[]%elem_of_nil]%elem_of_cons.
      by destruct (find_job_None _ _ Hfresh j Hj).
    + apply NoDup_singleton.
  - rewrite Hperm. by apply NoDup_cons.
  - intros x Hx. rewrite Hperm in Hx. rewrite find_job_snoc.
    apply elem_of_cons in Hx as [->|Hx].
    + rewrite Hfresh, String.eqb_refl. by eexists.
    + destruct (Hrow x Hx) as [j ->]. by eexists.
  - intros j [Hj| ->%list_elem_of_singleton]%elem_of_app Hin; [|done].
    rewrite Hperm in Hin.
    apply elem_of_cons in Hin as [Heq|Hin]; [|by apply Hpend].
    by destruct (find_job_None _ _ Hfresh j Hj).
  - intros j [Hj| ->%list_elem_of_singleton]%elem_of_app; [by apply Hst|].
    by left.
Qed.

Lemma jobs_settled_handle req st : jobs_settled st → jobs_settled (handle req st).
Proof.
  intros Hinv. destruct req as [len uuid now file form_metadata|uuid body|upload_id hdr data
      |uuid now rmtree_ok upload_id|m fid body|env uuid now model fid|env|env|env];
    unfold handle.
  - destruct (job_side_upload len uuid now file form_metadata st) as (? & ? & ?).
    by apply (jobs_settled_ext st).
  - destruct (job_side_create_upload uuid body st) as (? & ? & ?).
    by apply (jobs_settled_ext st).
  - destruct (job_side_upload_chunk upload_id hdr data st) as (? & ? & ?).
    by apply (jobs_settled_ext st).
  - destruct (job_side_complete_upload uuid now rmtree_ok upload_id st)
      as (? & ? & ?).
    by apply (jobs_settled_ext st).
  - destruct (job_side_song_detail m fid body st) as (? & ? & ?).
    by apply (jobs_settled_ext st).
  - destruct (find_job uuid (jobs st)) eqn:Hfresh.
    + rewrite start_process_refused; [done|]. by rewrite Hfresh.
    + destruct (start_process_step env uuid now model fid st Hfresh)
        as [HJ Hperm].
      by apply (settled_after_insert st _
                  (mk_job uuid fid model "processing" 0 "queued" now)).
  - destruct (threads st) as [|[[jid fid] m] rest] eqn:Hth.
    + unfold run_thread. by rewrite Hth.
    + destruct (run_thread_step env st jid fid m rest Hth) as (F & HF & HJ & Hp).
      by apply (settled_after_run st _ jid F).
  - destruct (rq st) as [|[[jid fid] m] rest] eqn:Hrq.
    + unfold run_worker. by rewrite Hrq.
    + destruct (run_worker_step env st jid fid m rest Hrq) as (F & HF & HJ & Hp).
      by apply (settled_after_run st _ jid F).
  - rewrite poller_iteration_idle; [done|].
    intros j Hj. by apply (settled_not_queued st).
Qed.

Lemma jobs_settled_history history : jobs_settled (run history).
Proof.
  unfold run. induction history as [|rq history IH] using rev_ind.
  - unfold jobs_settled, pending_ids. simpl.
    split; [constructor|]. split; [constructor|].
    split; [by intros x Hx%elem_of_nil|].
    split; by intros j Hj%elem_of_nil.
  - rewrite foldl_snoc. by apply jobs_settled_handle.
Qed.



(** X14. In every state the handlers produce, no two jobs have the same
    id, every job reads ['processing'], ['completed'] or ['failed'], no
    job waits in two pending calls, a pending call is for a job that
    reads ['processing'], and a pass of the poller changes nothing: the
    dispatch never writes the status the poller selects. *)
Theorem jobs_settled_run history :
  NoDup (job_id <$> jobs (run history))
  ∧ (∀ j, j ∈ jobs (run history) →
       status j = "processing" ∨ status j = "completed" ∨ status j = "failed")
  ∧ NoDup (pending_ids (run history))
  ∧ (∀ j, j ∈ jobs (run history) → job_id j ∈ pending_ids (run history) →
       status j = "processing")
  ∧ ∀ env, poller_iteration env (run history) = run history.
Proof.
  pose proof (jobs_settled_history history) as Hinv.
  destruct Hinv as (Hids & Hnd & Hrow & Hpend & Hst).
  do 4 (split; [done|]). intros env. apply poller_iteration_idle.
  intros j Hj Hq. destruct (Hst j Hj) as [H|[H|H]]; congruence.
Qed.



End history_facts.

(** * The poller: order of the claims *)

Section fifo_facts.

Implicit Types (st : state) (l : list job) (j r : job).

Lemma claims_none n st :
  select_queued (jobs st) = None → (claims n st).2 = [].
Proof.
  intros Hsel. induction n as [|n IH]; [done|].
  simpl. unfold claim. by rewrite Hsel.
Qed.

Lemma claims_claimed n st : (claims n st).2 = job_id <$> claimed n st.
Proof.
  revert st. induction n as [|n IH]; intros st; [done|].
  simpl. unfold claim.
  destruct (select_queued (jobs st)) as [r|] eqn:Hsel.
  - specialize (IH (set_jobs (mark_processing (job_id r) (jobs st)) st)).
    destruct (claims n _) as [st2 ids]. simpl in *. by rewrite IH.
  - by apply claims_none.
Qed.

Lemma claimed_queued n st r :
  r ∈ claimed n st → r ∈ jobs st ∧ status r = "queued".
Proof.
  revert st. induction n as [|n IH]; intros st; simpl.
  { by intros ?%elem_of_nil. }
  unfold claim. destruct (select_queued (jobs st)) as [r0|] eqn:Hsel.
  - intros [->|Hin]%elem_of_cons.
    + by apply select_queued_spec in Hsel as (? & ? & _).
    + apply IH in Hin as [Hin Hq]. simpl in Hin. split; [|done].
      by apply (queued_after_update _ _ _ _ mark_processing_not_queued) in Hin
        as [Hin _].
  - by intros ?%elem_of_nil.
Qed.

Lemma update_job_absent jid (F : job → job) l :
  (∀ x, x ∈ l → job_id x ≠ jid) → update_job jid F l = l.
Proof.
  intros Habs. unfold update_job. rewrite <-(list_fmap_id l) at 2.
  apply list_fmap_ext. intros _ x Hx%list_elem_of_lookup_2. simpl.
  apply Habs, String.eqb_neq in Hx. by rewrite Hx.
Qed.

(** With one row per id, a claim takes exactly one row out of the queued
    ones. *)
Lemma queued_after_mark l r :
  NoDup (job_id <$> l) → r ∈ l → status r = "queued" →
  length (filter (fun j => status j = "queued") l)
  = S (length (filter (fun j => status j = "queued")
                 (mark_processing (job_id r) l))).
Proof.
  intros Hnd Hin Hq. induction l as [|x l IH]; [by apply elem_of_nil in Hin|].
  rewrite fmap_cons in Hnd. apply NoDup_cons in Hnd as [Hx Hnd].
  unfold mark_processing, update_job. rewrite fmap_cons.
  destruct (String.eqb (job_id x) (job_id r)) eqn:Hid.
  - apply String.eqb_eq in Hid.
    assert (r = x) as ->.
    { apply elem_of_cons in Hin as [->|Hin]; [done|].
      destruct Hx. rewrite Hid. apply list_elem_of_fmap. by exists r. }
    rewrite filter_cons_True by done.
    rewrite filter_cons_False by done.
    fold (update_job (job_id x)
            (set_status_message "processing" "taken by poller") l).
    rewrite update_job_absent; [done|].
    intros y Hy Heq. destruct Hx. rewrite <-Heq.
    apply list_elem_of_fmap. by exists y.
  - apply String.eqb_neq in Hid.
    apply elem_of_cons in Hin as [->|Hin]; [done|].
    specialize (IH Hnd Hin).
    fold (update_job (job_id r)
            (set_status_message "processing" "taken by poller") l).
    fold (mark_processing (job_id r) l).
    destruct (decide (status x = "queued")) as [Hxq|Hxq].
    + rewrite !filter_cons_True by done. simpl. by rewrite IH.
    + by rewrite !filter_cons_False by done.
Qed.

Lemma select_queued_empty l :
  select_queued l = None → filter (fun j => status j = "queued") l = [].
Proof.
  unfold select_queued.
  by destruct (filter (fun j => status j = "queued") l).
Qed.

Lemma claimed_length n st :
  NoDup (job_id <$> jobs st) →
  length (claimed n st)
  = Nat.min n (length (filter (fun j => status j = "queued") (jobs st))).
Proof.
  revert st. induction n as [|n IH]; intros st Hnd; [done|].
  simpl. unfold claim.
  destruct (select_queued (jobs st)) as [r|] eqn:Hsel.
  - pose proof (select_queued_spec _ _ Hsel) as (Hin & Hq & _).
    rewrite (queued_after_mark _ r Hnd Hin Hq). simpl. f_equal.
    apply (IH (set_jobs (mark_processing (job_id r) (jobs st)) st)).
    simpl. unfold mark_processing. by rewrite update_job_ids.
  - by rewrite (select_queued_empty _ Hsel).
Qed.

(** X16. One poller takes the queued jobs oldest first. The rows it
    receives from [n] passes in a row were queued rows of the table at the
    start, come in the order of [created_at], and are the rows whose ids
    [claims] returns; when no two rows have the same id, it receives as
    many rows as there were queued ones, up to [n]: no queued job is
    skipped and none is taken twice. *)
Theorem poller_takes_oldest_first n st :
  (claims n st).2 = job_id <$> claimed n st
  ∧ (∀ r, r ∈ claimed n st → r ∈ jobs st ∧ status r = "queued")
  ∧ StronglySorted (fun a b => (created_at a <= created_at b)%Q) (claimed n st)
  ∧ (NoDup (job_id <$> jobs st) →
     length (claimed n st)
     = Nat.min n (length (filter (fun j => status j = "queued") (jobs st)))).
Proof.
  split; [apply claims_claimed|]. split; [apply claimed_queued|].
  split; [|apply claimed_length].
  revert st. induction n as [|n IH]; intros st; simpl; [constructor|].
  unfold claim. destruct (select_queued (jobs st)) as [r0|] eqn:Hsel;
    [|constructor].
  constructor; [apply IH|].
  apply Forall_forall. intros b [Hb Hbq]%claimed_queued. simpl in Hb.
  apply (queued_after_update _ _ _ _ mark_processing_not_queued) in Hb
    as [Hb _]; [|done].
  apply select_queued_spec in Hsel as (_ & _ & Hmin). by apply Hmin.
Qed.

Lemma poller_takes_oldest_first_witness :
  (claims 3 demo_queue).2 = job_id <$> claimed 3 demo_queue
  ∧ (∀ r, r ∈ claimed 3 demo_queue → r ∈ jobs demo_queue ∧ status r = "queued")
  ∧ StronglySorted (fun a b => (created_at a <= created_at b)%Q)
      (claimed 3 demo_queue)
  ∧ length (claimed 3 demo_queue) = 2%nat.
Proof.
  destruct (poller_takes_oldest_first 3 demo_queue) as (H1 & H2 & H3 & H4).
  split; [exact H1|]. split; [exact H2|]. split; [exact H3|].
  apply H4. apply (bool_decide_unpack (NoDup (job_id <$> jobs demo_queue))).
  vm_compute. exact I.
Defined.

End fifo_facts.

(** * Songs: patches in a row *)

Section patch_sequence.

Implicit Types (st : state) (l : list song) (b md : gmap string json).

Lemma update_song_twice id t a md t' a' md' l :
  update_song id t' a' md' (update_song id t a md l)
  = update_song id t' a' md' l.
Proof.
  unfold update_song. rewrite <-list_fmap_compose.
  apply list_fmap_ext. intros _ x _. simpl.
  destruct (String.eqb (song_id x) id) eqn:Hx; simpl; by rewrite Hx.
Qed.

Lemma song_patch_then id b1 b2 st :
  http_status (song_patch id (Some (JObj b1)) st).2 = 200 →
  (song_patch id (Some (JObj b2)) (song_patch id (Some (JObj b1)) st).1).2
  = (song_patch id (Some (JObj (b2 ∪ b1))) st).2
  ∧ (http_status (song_patch id (Some (JObj (b2 ∪ b1))) st).2 = 200 →
     song_patch id (Some (JObj b2)) (song_patch id (Some (JObj b1)) st).1
     = song_patch id (Some (JObj (b2 ∪ b1))) st).
Proof.
  unfold song_patch. rewrite !json_or_empty_obj.
  destruct (find_song id (songs st)) as [row|] eqn:Hrow; [|done].
  rewrite !patch_param.
  destruct (bind_text (dict_get "title" (b1 ∪ metadata row))) as [t1|]; [|done].
  destruct (bind_text (dict_get "artist" (b1 ∪ metadata row))) as [a1|]; [|done].
  intros _. simpl. rewrite find_song_update, Hrow. simpl.
  rewrite !patch_param, !(assoc_L (∪)).
  destruct (bind_text (dict_get "title" (b2 ∪ b1 ∪ metadata row))) as [t|];
    [|done].
  destruct (bind_text (dict_get "artist" (b2 ∪ b1 ∪ metadata row))) as [a|];
    [|done].
  simpl. by rewrite update_song_twice.
Qed.

(** X17. Patches compose. After an accepted PATCH with body [b1], a PATCH
    of the same song with body [b2] answers what a single PATCH with the
    keys of [b2] over those of [b1] answers on the state before, and when
    that answer is 200 the two leave the same state. Repeating an accepted
    PATCH changes nothing more and gives the same answer. *)
Theorem song_detail_patch_composes id b1 b2 st :
  http_status (song_detail PATCH id (Some (JObj b1)) st).2 = 200 →
  (song_detail PATCH id (Some (JObj b2))
     (song_detail PATCH id (Some (JObj b1)) st).1).2
  = (song_detail PATCH id (Some (JObj (b2 ∪ b1))) st).2
  ∧ (http_status (song_detail PATCH id (Some (JObj (b2 ∪ b1))) st).2 = 200 →
     song_detail PATCH id (Some (JObj b2))
       (song_detail PATCH id (Some (JObj b1)) st).1
     = song_detail PATCH id (Some (JObj (b2 ∪ b1))) st)
  ∧ song_detail PATCH id (Some (JObj b1))
      (song_detail PATCH id (Some (JObj b1)) st).1
    = song_detail PATCH id (Some (JObj b1)) st.
Proof.
  unfold song_detail. intros H1.
  destruct (song_patch_then id b1 b2 st H1) as [Hresp Hstate].
  split; [done|]. split; [done|].
  destruct (song_patch_then id b1 b1 st H1) as [_ Hsame].
  rewrite (idemp (∪) b1) in Hsame. by apply Hsame.
Qed.

Lemma song_detail_patch_composes_witness :
  (song_detail PATCH "s1" (Some (JObj {[ "title" := JStr "Red" ]}))
     (song_detail PATCH "s1" (Some (JObj demo_patch)) (run demo_history)).1).2
  = (song_detail PATCH "s1"
       (Some (JObj ({[ "title" := JStr "Red" ]} ∪ demo_patch)))
       (run demo_history)).2
  ∧ (http_status
       (song_detail PATCH "s1"
          (Some (JObj ({[ "title" := JStr "Red" ]} ∪ demo_patch)))
          (run demo_history)).2 = 200 →
     song_detail PATCH "s1" (Some (JObj {[ "title" := JStr "Red" ]}))
       (song_detail PATCH "s1" (Some (JObj demo_patch)) (run demo_history)).1
     = song_detail PATCH "s1"
         (Some (JObj ({[ "title" := JStr "Red" ]} ∪ demo_patch)))
         (run demo_history))
  ∧ song_detail PATCH "s1" (Some (JObj demo_patch))
      (song_detail PATCH "s1" (Some (JObj demo_patch)) (run demo_history)).1
    = song_detail PATCH "s1" (Some (JObj demo_patch)) (run demo_history).
Proof.
  apply (song_detail_patch_composes "s1" demo_patch {[ "title" := JStr "Red" ]}
           (run demo_history)).
  reflexivity.
Defined.

End patch_sequence.

(** * The prediction thread over its passes *)

Section progress_facts.

Import Stdlib.Reals.Reals Stdlib.micromega.Lra.
Import Tracker Progress.
Local Open Scope R_scope.

Implicit Types (t : timer) (e : event) (clock : list R).

Lemma update_progress_snd now clock t :
  (update_progress (now :: clock) t).2
  = (update_progress_step now t).2
    ++ (update_progress clock (update_progress_step now t).1).2.
Proof.
  simpl. destruct (update_progress_step now t) as [t1 evs]. simpl.
  by destruct (update_progress clock t1) as [t2 evs'].
Qed.

Lemma update_progress_exited clock t :
  t_pc t = Exited → (update_progress clock t).2 = [].
Proof.
  intros Hpc. induction clock as [|now clock IH]; [done|].
  rewrite update_progress_snd. unfold update_progress_step. rewrite Hpc.
  simpl. exact IH.
Qed.

(** The static estimate of a stage is positive when the duration is not
    negative. *)
Lemma estimate_pos s (duration : option R) :
  (∀ d, duration = Some d → 0 <= d) → 0 < estimate s duration.
Proof.
  intros Hd. unfold estimate. destruct duration as [d|].
  - specialize (Hd d eq_refl).
    destruct (Req_dec_T d 0); destruct s; lra.
  - destruct s; lra.
Qed.

(** What a thread inside its loop emits from [last_progress] on. *)
Lemma update_progress_climbs clock s (T start last_progress : R) :
  0 <= last_progress → Forall (fun now => start <= now) clock →
  Forall (fun e =>
            last_progress + 1 <= ev_progress e < 95
            ∧ ev_stage e = stage_name s ∧ is_predicted e
            ∧ ∃ r, ev_estimated_time e = Some r ∧ 0 < r <= T)
    (update_progress clock (mk_timer s T (Looping start last_progress))).2
  ∧ Sorted (fun e1 e2 => ev_progress e1 + 1 <= ev_progress e2)
      (update_progress clock (mk_timer s T (Looping start last_progress))).2
  ∧ ((update_progress clock (mk_timer s T (Looping start last_progress))).2 ≠ [] →
     last_progress
     + INR (length (update_progress clock
                      (mk_timer s T (Looping start last_progress))).2) < 95).
Proof.
  revert last_progress. induction clock as [|now clock IH];
    intros last_progress Hlp Hclock.
  { simpl. split; [constructor|]. split; [constructor|done]. }
  apply Forall_cons in Hclock as [Hnow Hclock].
  rewrite update_progress_snd. unfold update_progress_step.
  cbn [t_pc t_estimate t_stage].
  destruct (Rle_dec T (now - start)) as [Hge|Hlt].
  { cbn [fst snd]. rewrite update_progress_exited by done.
    split; [constructor|]. split; [constructor|done]. }
  pose proof (predicted_range (now - start) T) as Hrange.
  destruct (Rle_dec 1 (predicted (now - start) T - last_progress)) as [Hup|Hno];
    cbn [fst snd].
  - assert (0 <= predicted (now - start) T) as Hp by lra.
    destruct (IH _ Hp Hclock) as (Hall & Hsorted & Hlen).
    set (evs' := (update_progress clock
                    (mk_timer s T (Looping start (predicted (now - start) T)))).2)
      in *.
    assert (Rmin 100 (Rmax 0 (predicted (now - start) T))
            = predicted (now - start) T) as Hclamp by (apply clamp_id; lra).
    cbn [app]. split; [|split].
    + constructor.
      * simpl. rewrite Hclamp. split; [lra|]. split; [done|]. split; [done|].
        eexists. split; [done|]. lra.
      * eapply Forall_impl; [exact Hall|].
        intros e (He & Hrest). split; [lra|done].
    + constructor; [done|].
      destruct evs' as [|e' evs']; constructor.
      apply Forall_cons in Hall as [(He & _) _]. simpl. rewrite Hclamp. lra.
    + intros _. cbn [length]. rewrite S_INR.
      destruct evs' as [|e' evs'].
      * simpl. lra.
      * specialize (Hlen ltac:(done)). lra.
  - cbn [app]. by apply IH.
Qed.

(** X18. A prediction thread holds back. For a duration that is not
    negative and a clock that does not go back behind the thread's start,
    the estimate is positive, and what the thread emits over any number of
    passes is throttled: every event is a predictive one of its stage with
    a progress from 1 up to under 95 and a remaining time that is positive
    and at most the estimate, each event lies at least one point above the
    one before, and so there are at most 94 of them. *)
Theorem prediction_thread_throttle s (duration : option R) (start : R) clock :
  (∀ d, duration = Some d → 0 <= d) →
  Forall (fun now => start <= now) clock →
  0 < estimate s duration
  ∧ Forall (fun e =>
              1 <= ev_progress e < 95
              ∧ ev_stage e = stage_name s ∧ is_predicted e
              ∧ ∃ r, ev_estimated_time e = Some r
                     ∧ 0 < r <= estimate s duration)
      (update_progress (start :: clock)
         (mk_timer s (estimate s duration) Created)).2
  ∧ Sorted (fun e1 e2 => ev_progress e1 + 1 <= ev_progress e2)
      (update_progress (start :: clock)
         (mk_timer s (estimate s duration) Created)).2
  ∧ (length (update_progress (start :: clock)
               (mk_timer s (estimate s duration) Created)).2 ≤ 94)%nat.
Proof.
  intros Hd Hclock. split; [by apply estimate_pos|].
  rewrite update_progress_snd. unfold update_progress_step.
  cbn [t_pc t_estimate t_stage fst snd app].
  destruct (update_progress_climbs clock s (estimate s duration) start 0
              ltac:(lra) Hclock) as (Hall & Hsorted & Hlen).
  set (evs := (update_progress clock
                 (mk_timer s (estimate s duration) (Looping start 0))).2) in *.
  split; [|split; [done|]].
  - eapply Forall_impl; [exact Hall|].
    intros e (He & Hrest). split; [lra|done].
  - destruct evs as [|e evs]; [simpl; lia|].
    specialize (Hlen ltac:(done)). rewrite Rplus_0_l in Hlen.
    assert (length (e :: evs) < 95)%nat as Hlt; [|lia].
    apply INR_lt. rewrite (INR_IZR_INZ 95).
    change (Z.of_nat 95) with 95%Z. lra.
Qed.

Lemma prediction_thread_throttle_witness :
  0 < estimate Separation (Some 120)
  ∧ Forall (fun e =>
              1 <= ev_progress e < 95
              ∧ ev_stage e = stage_name Separation ∧ is_predicted e
              ∧ ∃ r, ev_estimated_time e = Some r
                     ∧ 0 < r <= estimate Separation (Some 120))
      (update_progress [0; 60; 90; 90.5; 200]%R
         (mk_timer Separation (estimate Separation (Some 120)) Created)).2
  ∧ Sorted (fun e1 e2 => ev_progress e1 + 1 <= ev_progress e2)
      (update_progress [0; 60; 90; 90.5; 200]%R
         (mk_timer Separation (estimate Separation (Some 120)) Created)).2
  ∧ (length (update_progress [0; 60; 90; 90.5; 200]%R
               (mk_timer Separation (estimate Separation (Some 120%R)) Created)).2
     ≤ 94)%nat.
Proof.
  apply (prediction_thread_throttle Separation (Some 120) 0 [60; 90; 90.5; 200]).
  - intros d [= <-]. lra.
  - repeat constructor; lra.
Defined.

End progress_facts.

(** * Threads: what becomes of their jobs *)

Section thread_facts.

Implicit Types (st : state) (l : list job) (j : job) (env : work_env).







End thread_facts.

(** * Resumable upload: what becomes of the session metadata *)

Section session_metadata.

Implicit Types (st : state).

Lemma create_upload_fresh sid body st :
  refused sid = None → uploads st !! sid = None →
  (create_upload sid body st).1
  = set_uploads_root true
      (set_uploads
         (<[sid := Dir (mk_session (Some (json_or_empty body)) ∅)]> (uploads st))
         st).
Proof.
  intros [Hnul Hlen]%refused_None Hnew. unfold create_upload. cbv zeta.
  by rewrite Hnul, Hlen, Hnew.
Qed.

(** X22. Of the metadata posted when a session is created only the
    extension of its ["filename"] survives. A session created under a
    fresh id that names an entry of the upload root, filled with up to a
    million chunks (each index once, in any order) and completed under a
    fresh id, is registered as a song without title and artist and with
    empty metadata, whatever else the body of the creating request held,
    when the file system takes the name of the final file: its file name
    is the id followed by the inferred extension, GET /songs/<id> shows
    that row, and when the removal of the session directory succeeds the
    session is gone. When the file system refuses that name, the
    completion raises and registers nothing. *)
Theorem session_metadata_is_dropped (chunks : list bytes) calls sid body
    uuid now ok st :
  0 < Z.of_nat (length chunks) ≤ 1000000 →
  calls ≡ₚ in_order chunks →
  entry_name sid = true →
  uploads st !! sid = None →
  uploads st !! (uuid +:+ infer_ext (mk_session (Some (json_or_empty body)) ∅))
  = None →
  uuid +:+ infer_ext (mk_session (Some (json_or_empty body)) ∅) ≠ sid →
  find_song uuid (songs st) = None →
  (refused (uuid +:+ infer_ext (mk_session (Some (json_or_empty body)) ∅)) = None →
   song_get uuid
     (complete_upload uuid now ok sid
        (upload_chunks sid calls (create_upload sid body st).1)).1
   = inl (mk_song uuid None None
            (uuid +:+ infer_ext (mk_session (Some (json_or_empty body)) ∅))
            None ∅ now,
          "/download/" +:+ uuid)
   ∧ (ok = true →
      uploads (complete_upload uuid now ok sid
                 (upload_chunks sid calls (create_upload sid body st).1)).1
        !! sid = None))
  ∧ (∀ exn,
       refused (uuid +:+ infer_ext (mk_session (Some (json_or_empty body)) ∅))
       = Some exn →
       complete_upload uuid now ok sid
         (upload_chunks sid calls (create_upload sid body st).1)
       = (upload_chunks sid calls (create_upload sid body st).1, Unhandled exn)).
Proof.
  intros Hlen Hp Hsid Hnew Hfree Hne Hfresh.
  pose proof (entry_name_spec _ Hsid) as (Hdot & _ & Hstore & Hlong).
  rewrite (create_upload_fresh _ _ _ Hstore Hnew).
  set (d := mk_session (Some (json_or_empty body)) ∅) in *.
  set (st1 := set_uploads_root true
                (set_uploads (<[sid := Dir d]> (uploads st)) st)).
  assert (uploads st1 !! sid = Some (Dir d)) as Hd by apply lookup_insert_eq.
  assert (uploads st1 !! (uuid +:+ infer_ext d) = None) as Hfree1.
  { subst st1. simpl. by rewrite lookup_insert_ne. }
  split.
  - intros Hname.
    destruct (complete_after_chunks chunks calls uuid now ok sid st1 d
                Hlen Hp Hsid Hd eq_refl Hname Hfree1 Hfresh)
      as (st' & Hres & Hfile & Hsong & Hgone).
    rewrite Hres. simpl. split; [|done].
    unfold song_get. by rewrite Hsong.
  - intros exn Hname.
    assert (calls.*1 ≡ₚ seqZ 0 (Z.of_nat (length chunks))) as Hidx.
    { by rewrite Hp, in_order_fst. }
    assert (NoDup (written calls).*1) as Hnd.
    { apply (written_NoDup _ (Z.of_nat (length chunks))); [lia|done]. }
    assert (Forall (fun c => refused (chunk_name c.1) = None) calls) as Hnames.
    { apply (calls_storable _ (Z.of_nat (length chunks))); [lia|done]. }
    rewrite (upload_chunks_fresh sid calls st1 d) by done.
    set (d' := mk_session (meta d) (list_to_map (written calls))).
    assert (parts_of d' ≠ []) as Hsome.
    { intros Hnil.
      pose proof (parts_of_written d' calls Hnd eq_refl) as Hparts.
      rewrite Hnil, written_fst, Hidx in Hparts.
      apply Permutation_nil_l in Hparts. symmetry in Hparts.
      apply fmap_nil_inv in Hparts.
      destruct chunks; [simpl in Hlen; lia|].
      rewrite seqZ_cons in Hparts by (simpl; lia). done. }
    unfold complete_upload, upload_dir. rewrite Hlong, andb_false_r, Hdot.
    cbn [uploads set_uploads]. rewrite lookup_insert_eq.
    destruct (parts_of d') as [|p ps]; [done|]. cbv zeta.
    change (infer_ext d') with (infer_ext d). by rewrite Hname.
Qed.

Lemma session_metadata_is_dropped_witness :
  song_get "f"
    (complete_upload "f" 0%Q true "u"
       (upload_chunks "u" [(1, demo_chunk1); (0, demo_chunk0)]
          (create_upload "u" (Some demo_meta) init_state).1)).1
  = inl (mk_song "f" None None
           ("f" +:+ infer_ext (mk_session (Some (json_or_empty (Some demo_meta))) ∅))
           None ∅ 0%Q,
         "/download/" +:+ "f")
  ∧ (true = true →
     uploads (complete_upload "f" 0%Q true "u"
                (upload_chunks "u" [(1, demo_chunk1); (0, demo_chunk0)]
                   (create_upload "u" (Some demo_meta) init_state).1)).1
       !! "u" = None).
Proof.
  apply (session_metadata_is_dropped [demo_chunk0; demo_chunk1]
           [(1, demo_chunk1); (0, demo_chunk0)]
           "u" (Some demo_meta) "f" 0%Q true init_state).
  - simpl. lia.
  - apply perm_swap.
  - reflexivity.
  - reflexivity.
  - reflexivity.
  - discriminate.
  - reflexivity.
  - reflexivity.
Defined.

End session_metadata.

(** * Upload: what a failed registration leaves behind *)

Section orphan_files.

Implicit Types (st : state).

(** X23. The upload saves the file before it registers the song and
    takes nothing back. A named file arrives under a fresh id, the upload
    root being there. When the request is within the size limit, the file
    system takes the name (the id and the extension) and the answer is
    not 201 (the metadata is not an object, or its title or artist cannot
    be stored), the bytes are on disk under that name, no song has been
    added, the download of the id answers 404 ("not found"), and DELETE of
    the id answers 204 and leaves the file where it is. Beyond the size
    limit the answer is 413, and when the file system refuses the name the
    save raises: in both cases nothing is stored. *)
Theorem failed_upload_leaves_file len uuid now (fname : string) (data : bytes)
    fm st :
  fname ≠ "" → uploads_root st = true →
  find_song uuid (songs st) = None →
  (len ≤ MAX_CONTENT_LENGTH →
   refused (uuid +:+ upload_ext fname) = None →
   (∀ d, uploads st !! (uuid +:+ upload_ext fname) ≠ Some (Dir d)) →
   http_status (upload len uuid now (Some (fname, data)) fm st).2 ≠ 201 →
   http_status (upload len uuid now (Some (fname, data)) fm st).2 = 500
   ∧ uploads (upload len uuid now (Some (fname, data)) fm st).1
       !! (uuid +:+ upload_ext fname) = Some (File data)
   ∧ songs (upload len uuid now (Some (fname, data)) fm st).1 = songs st
   ∧ download uuid None (upload len uuid now (Some (fname, data)) fm st).1
     = Plain (Json (error_body "not found") 404)
   ∧ song_detail DELETE uuid None
       (upload len uuid now (Some (fname, data)) fm st).1
     = ((upload len uuid now (Some (fname, data)) fm st).1, Empty 204))
  ∧ (MAX_CONTENT_LENGTH < len →
     upload len uuid now (Some (fname, data)) fm st = (st, Aborted 413))
  ∧ (∀ exn, len ≤ MAX_CONTENT_LENGTH →
       refused (uuid +:+ upload_ext fname) = Some exn →
       upload len uuid now (Some (fname, data)) fm st = (st, Unhandled exn)).
Proof.
  intros Hname Hroot Hfresh. apply String.eqb_neq in Hname.
  split; [|split].
  - intros Hlen [Hnul Hlong]%refused_None Hfree. unfold upload.
    destruct (Z.ltb_spec MAX_CONTENT_LENGTH len) as [Hbig|_]; [lia|].
    rewrite Hname. cbv zeta. fold (upload_ext fname).
    rewrite Hnul, Hroot, Hlong. simpl negb. cbv iota.
    set (st1 := set_uploads
                  (<[uuid +:+ upload_ext fname := File data]> (uploads st)) st).
    assert (uploads st1 !! (uuid +:+ upload_ext fname) = Some (File data)) as Hfile
      by apply lookup_insert_eq.
    assert (download uuid None st1 = Plain (Json (error_body "not found") 404))
      as Hdown.
    { unfold download. simpl. by rewrite Hfresh. }
    assert (song_detail DELETE uuid None st1 = (st1, Empty 204)) as Hdel.
    { unfold song_detail, song_delete. cbv zeta. simpl. rewrite Hfresh.
      rewrite (filter_other_songs_id _ _ Hfresh). reflexivity. }
    destruct (uploads st !! (uuid +:+ upload_ext fname)) as [[old|d]|] eqn:Hentry;
      [|by destruct (Hfree d)|];
      (destruct (default (JObj ∅) fm) as [|?|?|?|?|meta_obj]; try done;
       destruct (bind_text (dict_get "title" meta_obj)) as [t|]; [|done];
       destruct (bind_text (dict_get "artist" meta_obj)) as [a|]; [|done];
       unfold insert_song; simpl; rewrite Hfresh; simpl; done).
  - intros Hbig. unfold upload.
    by destruct (Z.ltb_spec MAX_CONTENT_LENGTH len) as [_|Hle]; [|lia].
  - intros exn Hlen Hrefused. unfold upload.
    destruct (Z.ltb_spec MAX_CONTENT_LENGTH len) as [Hbig|_]; [lia|].
    rewrite Hname. cbv zeta. fold (upload_ext fname).
    revert Hrefused. unfold refused. rewrite Hroot.
    destruct (has_nul (uuid +:+ upload_ext fname)); [by intros [= <-]|].
    destruct (too_long (uuid +:+ upload_ext fname)); [by intros [= <-]|done].
Qed.

Lemma failed_upload_leaves_file_witness :
  http_status
    (upload 4 "s9" 0%Q (Some ("take.mp3", demo_chunk0))
       (Some (JObj {[ "title" := JArr [JStr "Blue"] ]})) init_state).2 = 500
  ∧ uploads
      (upload 4 "s9" 0%Q (Some ("take.mp3", demo_chunk0))
         (Some (JObj {[ "title" := JArr [JStr "Blue"] ]})) init_state).1
      !! ("s9" +:+ upload_ext "take.mp3") = Some (File demo_chunk0)
  ∧ songs
      (upload 4 "s9" 0%Q (Some ("take.mp3", demo_chunk0))
         (Some (JObj {[ "title" := JArr [JStr "Blue"] ]})) init_state).1
    = songs init_state
  ∧ download "s9" None
      (upload 4 "s9" 0%Q (Some ("take.mp3", demo_chunk0))
         (Some (JObj {[ "title" := JArr [JStr "Blue"] ]})) init_state).1
    = Plain (Json (error_body "not found") 404)
  ∧ song_detail DELETE "s9" None
      (upload 4 "s9" 0%Q (Some ("take.mp3", demo_chunk0))
         (Some (JObj {[ "title" := JArr [JStr "Blue"] ]})) init_state).1
    = ((upload 4 "s9" 0%Q (Some ("take.mp3", demo_chunk0))
          (Some (JObj {[ "title" := JArr [JStr "Blue"] ]})) init_state).1,
       Empty 204).
Proof.
  apply (proj1 (failed_upload_leaves_file 4 "s9" 0%Q "take.mp3" demo_chunk0
                  (Some (JObj {[ "title" := JArr [JStr "Blue"] ]})) init_state
                  ltac:(discriminate) eq_refl eq_refl)).
  - unfold MAX_CONTENT_LENGTH. lia.
  - reflexivity.
  - intros d. discriminate.
  - vm_compute. discriminate.
Defined.

End orphan_files.

